(** * Register access and timed sampling of the linie test bench

    A shallow embedding of [test/csr.py] (class [PitayaCSR] and its
    backends) and of [test/transfer.py] (classes [Filter], [CsrParams]
    and [CsrThread]), with the properties of the register codec, of the
    write path and of the timed sampler that the specification states.

    Python integers are unbounded: they are [Z], with [&], [|], [<<],
    [>>] as [Z.land], [Z.lor], [Z.shiftl], [Z.shiftr] (arithmetic shift,
    two's complement on negative numbers, as in Python) and [//], [%] as
    [Z.div], [Z.modulo] (floor division, sign of the divisor, as in
    Python for a non-zero divisor). Dictionaries are [gmap]s. The
    [float64] numbers of numpy are [Float64.float64], with the rounding
    of binary64 written out. *)

From Stdlib Require Import ZArith QArith Qround Qabs Qpower Lia Lqa.
From stdpp Require Import base option list gmap strings sorting.

Local Open Scope Z_scope.

(** ** Exceptions and the state-and-exception monad *)

(** The keys of a dictionary: register names in [csrmap] and in the
    dictionary that [get_params] returns, integers in the dictionary
    that [PitayaTB.set_one] fills. *)
Abbreviation key := (string + Z)%type.

(** The arguments of the two [assert] statements of [PitayaCSR.set]:
    [assert wr, name] and [assert ..., (value, val, ma)]. *)
Inductive assert_args :=
| ArgName (name : string)
| ArgRange (value val ma : Z).

(** The ways a [ValueError] arises: a shift by a negative count,
    [int(ret, 16)] on a string that is no hexadecimal literal, and
    [PitayaReal.cmd] on diagnostic output, [ValueError((cmd, o, e))]. *)
Inductive value_error :=
| NegativeShiftCount
| InvalidLiteral (ret : string)
| CmdFailed (cmd : list string) (o e : string).

Inductive exn :=
| KeyError (k : key)
| AssertionError (args : assert_args)
| OverflowError
| TypeError
| UnboundLocalError (var : string)
| ValueError (v : value_error).

(** The error names of the specification, as the exceptions that the
    code raises for them. *)
Definition UnknownRegister (name : string) : exn := KeyError (inl name).
Definition ReadOnlyRegister (name : string) : exn :=
  AssertionError (ArgName name).
Definition OutOfRange (value nr : Z) : exn :=
  AssertionError (ArgRange value (Z.land value (Z.shiftl 1 (nr * 8) - 1))
                           (Z.shiftl 1 (nr * 8))).

Inductive result (A : Type) :=
| Ok (a : A)
| Raise (e : exn).
Arguments Ok {A} a.
Arguments Raise {A} e.

(** A computation over the backend state [S]. An exception keeps the
    state reached when it was raised: Python does not roll back. *)
Definition M (S A : Type) : Type := S → result A * S.

Definition ret {S A} (a : A) : M S A := λ s, (Ok a, s).
Definition raise {S A} (e : exn) : M S A := λ s, (Raise e, s).
Definition bind {S A B} (m : M S A) (k : A → M S B) : M S B :=
  λ s, match m s with
       | (Ok a, s') => k a s'
       | (Raise e, s') => (Raise e, s')
       end.

#[global] Instance M_ret {S} : MRet (M S) := λ A, @ret S A.
#[global] Instance M_bind {S} : MBind (M S) := λ A B k m, bind m k.

(** [for x in l: body(x)] *)
Fixpoint for_ {S A} (l : list A) (body : A → M S unit) : M S unit :=
  match l with
  | [] => ret ()
  | a :: l' => bind (body a) (λ _, for_ l' body)
  end.

(** [acc = init; for x in l: acc = body(acc, x)] *)
Fixpoint fold_ {S A B} (body : B → A → M S B) (acc : B) (l : list A)
  : M S B :=
  match l with
  | [] => ret acc
  | a :: l' => bind (body acc a) (λ acc', fold_ body acc' l')
  end.

(** [range(n)]: empty when [n <= 0]. *)
Definition range (n : Z) : list Z := seqZ 0 n.

(** [1 << n] raises [ValueError] on a negative count. *)
Definition shl {S} (a n : Z) : M S Z :=
  if n <? 0 then raise (ValueError NegativeShiftCount)
  else ret (Z.shiftl a n).

(** [value >= -ma/2]: in Python 3 [-ma/2] is the float quotient of two
    integers. [ma] is a power of two here, so the quotient is exact
    whenever it is a float at all; from [2^1024] on it is not and the
    division raises [OverflowError]. An integer and a float compare by
    value, so the test is [-ma <= 2*value]. *)
Definition ge_neg_half {S} (value ma : Z) : M S bool :=
  if 2 ^ 1025 <=? ma then raise OverflowError
  else ret (- ma <=? 2 * value).

Definition assert_ {S} (b : bool) (args : assert_args) : M S unit :=
  if b then ret () else raise (AssertionError args).

(** ** [test/csr.py]: [PitayaCSR] and its backends *)

(** The per-byte access that the subclasses of [PitayaCSR] provide. *)
Class Backend (S : Type) := {
  set_one : Z → Z → M S unit;
  get_one : Z → M S Z;
}.

(** A backend raises nothing but [ValueError], as [PitayaReal.cmd] and
    [int(ret, 16)] do. *)
Definition raises_ValueError (S : Type) `{!Backend S} : Prop :=
  (∀ a v s e s', set_one a v s = (Raise e, s') → ∃ d, e = ValueError d) ∧
  (∀ a s e s', get_one a s = (Raise e, s') → ∃ d, e = ValueError d).

(** A backend is reliable when its per-byte write never raises. *)
Definition reliable (S : Type) `{!Backend S} : Prop :=
  ∀ a v s, ∃ s', set_one a v s = (Ok (), s').

(** Python's string order on the keys of a dictionary, for [sorted]. *)
Definition string_le (s1 s2 : string) : Prop :=
  Is_true (String.leb s1 s2).

#[global] Instance string_le_dec : RelDecision string_le :=
  λ s1 s2, Is_true_dec (String.leb s1 s2).

Module PitayaCSR.
Section PitayaCSR.
Context {S : Type} `{!Backend S}.

(** [map = csrmap]: register name to [(addr, nr, wr)], the address,
    the width in bytes and the writable flag. The table comes from the
    generated module [csrmap], which is not part of the sources. *)
Variable map : gmap string (Z * Z * bool).

(** [self.map[name]] *)
Definition map_getitem (name : string) : M S (Z * Z * bool) :=
  match map !! name with
  | Some r => ret r
  | None => raise (KeyError (inl name))
  end.

(** The byte that round [i] of the loop of [set] writes:
    [(val >> (8*(nr - i - 1))) & 0xff]. *)
Definition set_byte (val nr i : Z) : Z :=
  Z.land (Z.shiftr val (8 * (nr - i - 1))) 255.

(** The loop of [set]:
    [for i in range(nr): v = ...; self.set_one(addr + i*4, v)]. *)
Definition set_loop (addr nr val : Z) : M S unit :=
  for_ (range nr) (λ i, set_one (addr + i * 4) (set_byte val nr i)).

Definition set (name : string) (value : Z) : M S unit :=
  '(addr, nr, wr) ← map_getitem name;
  assert_ wr (ArgName name);;
  ma ← shl 1 (nr * 8);
  let val := Z.land value (ma - 1) in
  lo ← ge_neg_half value ma;
  assert_ (lo && (value <? ma)) (ArgRange value val ma);;
  set_loop addr nr val.

Definition get (name : string) : M S Z :=
  '(addr, nr, wr) ← map_getitem name;
  fold_ (λ v i, b ← get_one (addr + i * 4);
                mret (Z.lor v (Z.shiftl b (8 * (nr - i - 1)))))
        0 (range nr).

(** [get_params] of the module [iir_coeffs], which is not part of the
    sources: from the filter coefficients [b], [a] and the fixed-point
    [shift] and [width] it returns the quantized coefficients and a
    dictionary from register suffix to integer value. *)
Context {coeffs : Type}.
Variable get_params :
  coeffs → coeffs → Z → Z → coeffs * coeffs * gmap string Z.

(** [v or d] on integers: [d] when [v] is 0. *)
Definition or_ (v d : Z) : Z := if decide (v = 0) then d else v.

(** [sorted(params)]: the keys in increasing order. *)
Definition sorted (params : gmap string Z) : list string :=
  merge_sort string_le (map_to_list params).*1.

(** The loop of [set_iir]:
    [for k in sorted(params): self.set(prefix + "_" + k, params[k])]. *)
Definition set_params (prefix : string) (params : gmap string Z)
  : M S unit :=
  for_ (sorted params) (λ k,
    match params !! k with
    | Some v => set (prefix +:+ "_" +:+ k) v
    | None => raise (KeyError (inl k))
    end).

(** [print(params)] writes to standard output only and is left out. *)
Definition set_iir (prefix : string) (b a : coeffs) : M S unit :=
  shift0 ← get (prefix +:+ "_shift");
  let shift := or_ shift0 16 in
  width0 ← get (prefix +:+ "_width");
  let width := or_ width0 25 in
  let '(_, _, params) := get_params b a shift width in
  set_params prefix params.
End PitayaCSR.
End PitayaCSR.

(** [PitayaTB]: [set_one] stores the byte in the dictionary [params],
    which the test bench shares with [CsrParams], under the integer key
    [(addr - 0x40300000)//4]; [get_one] returns 0 whatever the address. *)
Module PitayaTB.
Definition set_one (addr value : Z) : M (gmap key Z) unit :=
  λ params, (Ok (), <[inr ((addr - 0x40300000) / 4) := value]> params).

Definition get_one (addr : Z) : M (gmap key Z) Z :=
  λ params, (Ok 0, params).

#[global] Instance backend : Backend (gmap key Z) :=
  Build_Backend _ set_one get_one.
End PitayaTB.

Module PitayaReal.
Section PitayaReal.
(** The remote side, as far as [PitayaReal] sees it: [popen] stands
    for [subprocess.Popen(("ssh", url) + cmd, ...).communicate()],
    which returns standard output and standard error; [hex08] and
    [hex02] for the two [format] calls; [int16] for [int(ret, 16)]. *)
Context {R : Type}.
Variable popen : list string → R → string * string * R.
Variable hex08 hex02 : Z → string.
Variable int16 : string → option Z.

Definition mon : string := "/opt/bin/monitor".

Definition cmd (c : list string) : M R string :=
  λ r, let '(o, e, r') := popen c r in
       if decide (e = EmptyString) then (Ok o, r')
       else (Raise (ValueError (CmdFailed c o e)), r').

Definition set_one (addr value : Z) : M R unit :=
  cmd [mon; hex08 addr; hex02 value];; mret ().

Definition get_one (addr : Z) : M R Z :=
  r ← cmd [mon; hex08 addr];
  match int16 r with
  | Some v => mret v
  | None => raise (ValueError (InvalidLiteral r))
  end.

Definition backend : Backend R := Build_Backend _ set_one get_one.
End PitayaReal.
End PitayaReal.

(** Modelled from the spec: the device that a backend talks to is not
    part of the sources. Its register file is byte addressed; a write
    applies the byte to the register file at that address, a read
    returns the current value at that address (0 if never written).
    [received] lists the writes that the device was sent, oldest
    first. *)
Module RegFile.
Record device := Device {
  regs : gmap Z Z;
  received : list (Z * Z);
}.

Definition set_one (addr value : Z) : M device unit :=
  λ d, (Ok (), {| regs := <[addr := value]> (regs d);
                  received := received d ++ [(addr, value)] |}).

Definition get_one (addr : Z) : M device Z :=
  λ d, (Ok (default 0 (regs d !! addr)), d).

#[global] Instance backend : Backend device :=
  Build_Backend _ set_one get_one.

Definition reset : device := {| regs := ∅; received := [] |}.
End RegFile.

(** ** [test/transfer.py]: [CsrParams.writes] *)

(** The bus transactions of [migen.bus.transactions]. *)
Inductive transaction :=
| TWrite (address data : Z)
| TRead (address : Z).

(** A register description of [dut.get_csrs()], as far as [writes] reads
    it: [c.name] and [c.size], the size in bits. *)
Module CSR.
Record csr := Csr {
  name : string;
  size : Z;
}.
End CSR.
Abbreviation csr := CSR.csr.

Module CsrParams.
Section CsrParams.
(** [get_offset] of [migen.bank.csrgen]: the bus address of the named
    register in the register bank, [None] where it raises [KeyError]
    for a name that the bank does not have. *)
Variable get_offset : list csr → string → option Z.

(** [sorted(self.params)]: a list with keys of both kinds does not
    sort, [str] and [int] do not compare. *)
Definition sorted (params : gmap key Z) : result (list key) :=
  let ks := (map_to_list params).*1 in
  let strs := omap (λ k, match k with inl s => Some s | inr _ => None end) ks in
  let ints := omap (λ k, match k with inr i => Some i | inl _ => None end) ks in
  match strs, ints with
  | _, [] => Ok (inl <$> merge_sort string_le strs)
  | [], _ => Ok (inr <$> merge_sort Z.le ints)
  | _, _ => Raise TypeError
  end.

(** [for c in self.desc: if c.name == k: n = c.size; break], with [n]
    as the loop found it: [None] is the unbound variable. *)
Fixpoint find_size (desc : list csr) (k : key) (n : option Z)
  : option Z :=
  match desc with
  | [] => n
  | c :: desc' =>
      if decide (inl (CSR.name c) = k) then Some (CSR.size c)
      else find_size desc' k n
  end.

(** [for i in reversed(range(b)): vi = (v >> (i*8)) & 0xff;
    yield TWrite(a, vi); a += 1] *)
Fixpoint write_bytes (a v : Z) (idx : list Z) : list transaction :=
  match idx with
  | [] => []
  | i :: idx' =>
      TWrite a (Z.land (Z.shiftr v (i * 8)) 255)
      :: write_bytes (a + 1) v idx'
  end.

(** One round of the outer loop of [writes], for the key [k]: the
    transactions it yields, then either the value of [n] that the next
    round starts from or the exception that ends the generator. *)
Definition writes_key (desc : list csr) (params : gmap key Z)
    (k : key) (n : option Z) : list transaction * result (option Z) :=
  let n := find_size desc k n in
  let an :=
    match k with
    | inl s =>
        match get_offset desc s with
        | Some a => Ok (a, n)
        | None => Raise (KeyError (inl s))
        end
    | inr a => Ok (a, Some 1)
    end in
  match an with
  | Raise e => ([], Raise e)
  | Ok (a, n) =>
      match params !! k with
      | None => ([], Raise (KeyError k))
      | Some v =>
          match n with
          | None => ([], Raise (UnboundLocalError "n"))
          | Some n' =>
              let b := (n' + 8 - 1) / 8 in
              (write_bytes a v (reverse (range b)), Ok n)
          end
      end
  end.

Fixpoint writes_keys (desc : list csr) (params : gmap key Z)
    (ks : list key) (n : option Z) : list transaction * option exn :=
  match ks with
  | [] => ([], None)
  | k :: ks' =>
      match writes_key desc params k n with
      | (ts, Raise e) => (ts, Some e)
      | (ts, Ok n') =>
          let '(ts', r) := writes_keys desc params ks' n' in
          (ts ++ ts', r)
      end
  end.

(** The generator [writes], run to its end on the dictionary as it is
    when the simulation starts: the transactions it yields, in order,
    and the exception that ends it, if one does. *)
Definition writes (desc : list csr) (params : gmap key Z)
  : list transaction * option exn :=
  match sorted params with
  | Raise e => ([], Some e)
  | Ok ks => writes_keys desc params ks None
  end.
End CsrParams.
End CsrParams.

(** ** [test/transfer.py]: [CsrThread] *)

Module CsrThread.
(** What the queue holds: a [threading.Event] (here its identity),
    [None], an integer, or anything else, which is a transaction. *)
Inductive item :=
| QEvent (ev : nat)
| QNone
| QInt (n : Z)
| QTransaction (t : transaction).

(** The generator object [self.gen()] together with the queue it pops
    from: [sleeping] counts the rounds left of a [for i in range(q):
    yield] that the generator is suspended in, [finished] holds once
    [break] has ended it, [events] lists the events it has set. *)
Record thread := Thread {
  queue : list item;
  sleeping : nat;
  finished : bool;
  events : list nat;
}.

(** What [next] on the generator gives. *)
Inductive step :=
| Yield (t : option transaction)
| StopIteration.

(** The [while True] loop from the top of its body until the next
    [yield] or [break]. Each round pops one element, so the loop is
    structural in the queue; on the empty queue [pop(0)] raises
    [IndexError] and the handler yields [None]. *)
Fixpoint loop (q : list item) (evs : list nat) : step * thread :=
  match q with
  | [] => (Yield None, Thread [] 0 false evs)
  | QEvent ev :: q' => loop q' (evs ++ [ev])
  | QNone :: q' => (StopIteration, Thread q' 0 true evs)
  | QInt n :: q' =>
      match Z.to_nat n with
      | O => loop q' evs
      | Datatypes.S r => (Yield None, Thread q' r false evs)
      end
  | QTransaction t :: q' => (Yield (Some t), Thread q' 0 false evs)
  end.

(** [next(gen)] *)
Definition gen (g : thread) : step * thread :=
  if finished g then (StopIteration, g)
  else
    match sleeping g with
    | Datatypes.S r =>
        (Yield None, Thread (queue g) r false (events g))
    | O => loop (queue g) (events g)
    end.

(** [self.queue.append(q)], by whichever thread. *)
Definition append (q : item) (g : thread) : thread :=
  Thread (queue g ++ [q]) (sleeping g) (finished g) (events g).

(** The queue side of [write] and [read], up to [ev.wait()], for a
    caller that no other thread interrupts: the transaction is
    appended, then the event. These are two appends, and nothing
    keeps another thread from running between them: where that
    matters the two steps are taken apart (see [schedule]). *)
Definition write (addr value : Z) (ev : nat) (g : thread) : thread :=
  append (QEvent ev) (append (QTransaction (TWrite addr value)) g).

Definition read (addr : Z) (ev : nat) (g : thread) : thread :=
  append (QEvent ev) (append (QTransaction (TRead addr)) g).

(** The consumer of the generator, [migen.bus.csr.Initiator], once per
    clock cycle: a write on the bus is over after one cycle, a read
    after two, and whenever no transaction is on the bus the next one
    is taken from the generator, where [None] leaves the bus idle for
    the cycle. [StopIteration] stops the simulation ([running]
    becomes false). *)
Record simulation := Simulation {
  cycle_counter : Z;
  generator : thread;
  on_bus : option transaction;
  read_data_ready : bool;
  running : bool;
}.

Definition do_simulation (s : simulation) : simulation :=
  let '(t, rdy) :=
    match on_bus s with
    | Some (TRead a) =>
        if read_data_ready s then (None, false)
        else (Some (TRead a), true)
    | Some (TWrite _ _) => (None, read_data_ready s)
    | None => (None, read_data_ready s)
    end in
  match t with
  | Some _ => Simulation (cycle_counter s) (generator s) t rdy true
  | None =>
      match gen (generator s) with
      | (Yield t', g') => Simulation (cycle_counter s) g' t' rdy true
      | (StopIteration, g') =>
          Simulation (cycle_counter s) g' None rdy false
      end
  end.

(** One clock cycle of the simulator: the function above, then the
    clock edge. *)
Definition cycle (s : simulation) : simulation :=
  if running s then
    let s' := do_simulation s in
    Simulation (cycle_counter s' + 1) (generator s') (on_bus s')
               (read_data_ready s') (running s')
  else s.
End CsrThread.

(** ** [float64]: the numbers of numpy *)

Module Float64.
(** A binary64 number: a finite one, by its value, an infinity or a
    NaN. The two zeros are one number here: nothing in [Filter] tells
    them apart, the only divisor there is a converted integer, whose
    zero is the positive one. *)
Inductive float64 :=
| Finite (q : Q)
| Infinity (negative : bool)
| NaN.

Definition pow2 (e : Z) : Q := (2 ^ e)%Q.

(** [floor(log2 q)] for a positive [q]. *)
Definition ilog2 (q : Q) : Z :=
  let l := Z.log2 (Qnum q) - Z.log2 (Z.pos (Qden q)) in
  if Qle_bool (pow2 l) q then l else l - 1.

(** The nearest integer, the even one of two that are equally near. *)
Definition round_half_even (q : Q) : Z :=
  let f := Qfloor q in
  match (q - inject_Z f ?= 1 # 2)%Q with
  | Lt => f
  | Eq => if Z.even f then f else f + 1
  | Gt => f + 1
  end.

(** Rounding to nearest, ties to even, into binary64: 53 bits of
    precision, the least exponent of a bit -1074, values below
    [2^1024]; what is rounded to [2^1024] or beyond is an infinity. *)
Definition round (q : Q) : float64 :=
  if Qeq_bool q 0 then Finite 0
  else
    let e := Z.max (ilog2 (Qabs q) - 52) (-1074) in
    let r := (inject_Z (round_half_even (q / pow2 e)) * pow2 e)%Q in
    if Qle_bool (pow2 1024) (Qabs r) then Infinity (negb (Qle_bool 0 q))
    else Finite (Qred r).

(** The conversion of an integer (of an [int64], or of a Python [int]
    that numpy takes as one). *)
Definition of_int (z : Z) : float64 := round (inject_Z z).

Definition is_zero (q : Q) : bool := Qeq_bool q 0.
Definition is_negative (q : Q) : bool := negb (Qle_bool 0 q).

(** [*] and [/] of numpy on [float64]: the exact product or quotient,
    rounded once; an infinity or a NaN where IEEE 754 has one, also
    for a divisor 0, which raises nothing in numpy. *)
Definition mul (a b : float64) : float64 :=
  match a, b with
  | NaN, _ | _, NaN => NaN
  | Finite x, Finite y => round (x * y)
  | Infinity s, Infinity s' => Infinity (xorb s s')
  | Infinity s, Finite y | Finite y, Infinity s =>
      if is_zero y then NaN else Infinity (xorb s (is_negative y))
  end.

Definition div (a b : float64) : float64 :=
  match a, b with
  | NaN, _ | _, NaN => NaN
  | Finite x, Finite y =>
      if is_zero y then
        if is_zero x then NaN else Infinity (is_negative x)
      else round (x / y)
  | Infinity _, Infinity _ => NaN
  | Infinity s, Finite y => Infinity (xorb s (is_negative y))
  | Finite _, Infinity _ => Finite 0
  end.
End Float64.

(** ** [test/transfer.py]: [Filter] *)

Module Filter.
(** The attributes of a [Filter]; [xgen] is what the iterator over
    [x] has still to give. *)
Record state := State {
  scale : Z;
  x : list Z;
  xgen : list Z;
  ygen : list Z;
  y : list Z;
  warmup : Z;
  latency : Z;
  interval : Z;
}.

(** [astype(np.int)] on a [float64] array, with [np.int] of 64 bits:
    the C cast of a double to [int64], which drops the fractional
    part. Where the result is not an [int64], and for an infinity or
    a NaN, C leaves the value open; it is [-2^63] here, as on
    x86-64. *)
Definition astype_int (a : Float64.float64) : Z :=
  match a with
  | Float64.Finite q =>
      let t := Z.quot (Qnum q) (Z.pos (Qden q)) in
      if decide (- 2 ^ 63 <= t < 2 ^ 63) then t else - 2 ^ 63
  | _ => - 2 ^ 63
  end.

(** [__init__]. [x] is a sequence of Python floats, as [Transfer]
    passes it: [samples] gives them by value, and a value that is not
    a binary64 number stands for the one nearest to it, as Python
    reads a literal. [self.scale*np.array(x)] converts the scale and
    multiplies in [float64]. [flen_x] is [flen(self.dut.x)], the bit
    width of the input signal of the device, from 1 to 64.
    [warmup % interval] raises [ZeroDivisionError] for [interval = 0]:
    no filter then. *)
Definition init (flen_x : Z) (samples : list Q)
    (warmup latency interval : Z) : option state :=
  let scale := 2 ^ (flen_x - 1) - 1 in
  let xs := (λ v, astype_int (Float64.mul (Float64.of_int scale)
                                          (Float64.round v)))
            <$> samples in
  if decide (interval = 0) then None
  else Some (State scale xs xs [] []
               (warmup - warmup mod interval) latency interval).

Inductive outcome :=
| Return
| StopSimulation
| ZeroDivisionError.

Section Simulation.
(** The device under test, as the test bench sees it: its state, the
    value of its output signal [y] in that state, and the clock edge,
    which takes the value that the input signal [x] holds. *)
Context {D : Type}.
Variable dut_y : D → Z.
Variable dut_clock : Z → D → D.

(** [selfp]: the cycle counter of the simulator, the device, and the
    value that the input signal holds. *)
Record proxy := Proxy {
  cycle_counter : Z;
  dut : D;
  dut_x : Z;
}.

(** The first [try] block of [do_simulation]: on the sampling grid
    the next input, if there is one, is driven on [x] and the cycle at
    which its output is due is appended to [ygen]; [StopIteration] is
    passed over. *)
Definition apply_input (c : Z) (self : state) (selfp : proxy)
  : state * proxy :=
  if decide (c mod interval self = 0) then
    match xgen self with
    | v :: rest =>
        (State (scale self) (x self) rest
               (ygen self ++ [c + 1 + latency self]) (y self)
               (warmup self) (latency self) (interval self),
         Proxy (cycle_counter selfp) (dut selfp) v)
    | [] => (self, selfp)
    end
  else (self, selfp).

(** The second [try] block: when the first pending output is due at
    this cycle, it is taken off [ygen] and the output of the device
    is appended to [y]; [IndexError] is passed over. *)
Definition capture_output (c : Z) (self : state) (selfp : proxy)
  : state :=
  match ygen self with
  | due :: rest =>
      if decide (c = due) then
        State (scale self) (x self) (xgen self) rest
              (y self ++ [dut_y (dut selfp)])
              (warmup self) (latency self) (interval self)
      else self
  | [] => self
  end.

Definition do_simulation (self : state) (selfp : proxy)
  : outcome * state * proxy :=
  let c := cycle_counter selfp - warmup self in
  if c <? 0 then (Return, self, selfp)
  else if decide (length (y self) = length (x self))
  then (StopSimulation, self, selfp)
  else if decide (interval self = 0)
  then (ZeroDivisionError, self, selfp)
  else
    let '(self1, selfp1) := apply_input c self selfp in
    (Return, capture_output c self1 selfp1, selfp1).

(** The clock edge between two calls of [do_simulation]. *)
Definition clock (selfp : proxy) : proxy :=
  Proxy (cycle_counter selfp + 1)
        (dut_clock (dut_x selfp) (dut selfp)) (dut_x selfp).

(** [run_simulation] of [migen.sim.generic], as far as the filter
    sees it: one call of [do_simulation] per clock cycle, from cycle 0
    on, until it raises [StopSimulation]. [fuel] bounds the number of
    calls; [None] when it runs out or an exception escapes. The result
    is the filter and [selfp] at the cycle of the last call. *)
Fixpoint run_simulation (fuel : nat) (self : state) (selfp : proxy)
  : option (state * proxy) :=
  match fuel with
  | O => None
  | Datatypes.S fuel' =>
      match do_simulation self selfp with
      | (Return, self', selfp') =>
          run_simulation fuel' self' (clock selfp')
      | (StopSimulation, self', selfp') => Some (self', selfp')
      | (ZeroDivisionError, _, _) => None
      end
  end.

(** The filter and [selfp] at the start of cycle [n], when no call
    before it has stopped the simulation. *)
Fixpoint at_cycle (n : nat) (self : state) (selfp : proxy)
  : state * proxy :=
  match n with
  | O => (self, selfp)
  | Datatypes.S n' =>
      let '(self', selfp') := at_cycle n' self selfp in
      let '(_, self'', selfp'') := do_simulation self' selfp' in
      (self'', clock selfp'')
  end.

(** The output of the device at the start of cycle [n] of a run. *)
Definition output_at (n : nat) (self : state) (selfp : proxy) : Z :=
  dut_y (dut (at_cycle n self selfp).2).

(** [run_simulation(self, ncycles=n)]: the simulation is over after
    [n] clock cycles, or before when [do_simulation] raises
    [StopSimulation]. *)
Fixpoint run_simulation_ncycles (n : nat) (self : state) (selfp : proxy)
  : option (state * proxy) :=
  match n with
  | O => Some (self, selfp)
  | Datatypes.S n' =>
      match do_simulation self selfp with
      | (Return, self', selfp') =>
          run_simulation_ncycles n' self' (clock selfp')
      | (StopSimulation, self', selfp') => Some (self', selfp')
      | (ZeroDivisionError, _, _) => None
      end
  end.

(** [np.array(v)/self.scale] for a series of integers ([int64]): both
    sides are converted and divided in [float64]. *)
Definition normalize (scale : Z) (l : list Z) : list Float64.float64 :=
  (λ v, Float64.div (Float64.of_int v) (Float64.of_int scale)) <$> l.

(** [run]: the simulation, then both series divided by [scale]. Of
    the keyword arguments, which go to [run_simulation] as they are,
    [ncycles] bounds the simulation; the others name files. The
    simulation starts at cycle 0 with the input signal at its reset
    value 0. *)
Definition run (ncycles : option nat) (fuel : nat) (self : state) (d : D)
  : option (list Float64.float64 * list Float64.float64) :=
  match
    match ncycles with
    | None => run_simulation fuel self (Proxy 0 d 0)
    | Some n => run_simulation_ncycles n self (Proxy 0 d 0)
    end
  with
  | None => None
  | Some (self', _) =>
      Some (normalize (scale self') (x self'),
            normalize (scale self') (y self'))
  end.
End Simulation.
End Filter.

(** ** Example register maps *)

(** The register map of the end-to-end scenario of the specification:
    [gain] at address [0x100], two bytes wide, writable. *)
Definition gain_map : gmap string (Z * Z * bool) :=
  {[ "gain" := (0x100, 2, true) ]}.

(** A map with a writable register of three bytes at the base address of
    the register bank, a read-only one and a register of one byte. *)
Definition bank_map : gmap string (Z * Z * bool) :=
  {[ "sweep_step" := (0x40300000, 3, true);
     "version" := (0x4030000c, 1, false);
     "tap" := (0x40300010, 1, true) ]}.

(** Byte [i] of the [nr] bytes of [val], most significant byte first:
    byte 0 is the top byte, byte [nr - 1] the low one. *)
Definition big_endian_byte (val nr i : Z) : Z :=
  (val / 2 ^ (8 * (nr - 1 - i))) mod 256.

(** A register bank with a register of 24 bits between two others, and
    [get_offset] as [migen.bank.csrgen] has it: the registers take
    [ceil(size/8)] bus addresses each, in the order of the bank. *)
Definition bank_desc : list csr :=
  [CSR.Csr "tap" 2; CSR.Csr "sweep_step" 24; CSR.Csr "version" 8].

Fixpoint bank_offset_from (offset : Z) (desc : list csr) (k : string)
  : option Z :=
  match desc with
  | [] => None
  | c :: desc' =>
      if decide (CSR.name c = k) then Some offset
      else bank_offset_from (offset + (CSR.size c + 8 - 1) / 8) desc' k
  end.

Definition bank_offset : list csr → string → option Z :=
  bank_offset_from 0.

(** A map with the two registers that [set_iir] reads for the prefix
    [iir_c] and one that it writes; and a stand-in for [get_params]
    that returns [shift] and [width] as it got them, to show which
    values [set_iir] passes. *)
Definition iir_map : gmap string (Z * Z * bool) :=
  {[ "iir_c_shift" := (0x40300020, 1, false);
     "iir_c_width" := (0x40300024, 1, false);
     "iir_c_b0" := (0x40300028, 4, true);
     "iir_c_a1" := (0x40300038, 4, true) ]}.

Definition echo_params (b a : unit) (shift width : Z)
  : unit * unit * gmap string Z :=
  ((), (), {[ "b0" := shift; "a1" := width ]}).

(** The caller's side of a [write] while the simulation runs: the
    transaction and its event are appended to the queue. *)
Definition caller_write (addr value : Z) (ev : nat)
    (s : CsrThread.simulation) : CsrThread.simulation :=
  CsrThread.Simulation (CsrThread.cycle_counter s)
    (CsrThread.write addr value ev (CsrThread.generator s))
    (CsrThread.on_bus s) (CsrThread.read_data_ready s)
    (CsrThread.running s).

(** A simulation that idles: nothing queued, nothing on the bus. *)
Definition idle_simulation : CsrThread.simulation :=
  CsrThread.Simulation 0 (CsrThread.Thread [] 0 false []) None false true.

(** ** Example devices *)

(** A register between input and output: the output at a cycle is the
    input that was held at the cycle before. The state is the value of
    the output. *)
Definition delay_y (d : Z) : Z := d.
Definition delay_clock (x d : Z) : Z := x.

(** A device stuck at the most negative value of its signed output of
    eight bits. *)
Definition stuck_y (d : unit) : Z := -128.
Definition stuck_clock (x : Z) (d : unit) : unit := d.

(** ** Example remote side for [PitayaReal] *)

(** The digits of ["{:x}".format(n)] for a natural number, and the two
    format calls of [PitayaReal]: the sign, then zeros up to the width,
    then the digits. *)
Definition hex_digit (n : N) : string :=
  match n with
  | 0%N => "0" | 1%N => "1" | 2%N => "2" | 3%N => "3" | 4%N => "4"
  | 5%N => "5" | 6%N => "6" | 7%N => "7" | 8%N => "8" | 9%N => "9"
  | 10%N => "a" | 11%N => "b" | 12%N => "c" | 13%N => "d" | 14%N => "e"
  | _ => "f"
  end.

Fixpoint hex_digits (fuel : nat) (n : N) (acc : string) : string :=
  match fuel with
  | O => acc
  | Datatypes.S fuel' =>
      let acc' := hex_digit (n mod 16) +:+ acc in
      if (n / 16 =? 0)%N then acc' else hex_digits fuel' (n / 16) acc'
  end.

Fixpoint zeros (n : nat) : string :=
  match n with
  | O => EmptyString
  | Datatypes.S n' => "0" +:+ zeros n'
  end.

Definition format_x (width : nat) (z : Z) : string :=
  let digits := hex_digits (Datatypes.S (N.size_nat (Z.abs_N z)))
                           (Z.abs_N z) EmptyString in
  let sign := if z <? 0 then "-" else EmptyString in
  sign +:+ zeros (width - String.length sign - String.length digits)
       +:+ digits.

Definition hex08 (addr : Z) : string := "0x" +:+ format_x 8 addr.
Definition hex02 (value : Z) : string := "0x" +:+ format_x 2 value.

(** A remote side that keeps the commands it was sent, and answers the
    second of them with diagnostic output. *)
Definition flaky_popen (c : list string) (r : list (list string))
  : string * string * list (list string) :=
  (EmptyString,
   if decide (length r = 1%nat) then "bus error" else EmptyString,
   r ++ [c]).

(** A remote side that keeps the commands it was sent and never
    complains. *)
Definition quiet_popen (c : list string) (r : list (list string))
  : string * string * list (list string) :=
  (EmptyString, EmptyString, r ++ [c]).

(** ** Vocabulary of the further properties *)

(** The per-byte writes of a [set] of the register [name] that passes
    its checks: address and byte, most significant byte first. *)
Definition register_writes (map : gmap string (Z * Z * bool))
    (name : string) (value : Z) : list (Z * Z) :=
  match map !! name with
  | Some (addr, nr, _) =>
      (λ i, (addr + 4 * i, big_endian_byte (value mod 2 ^ (8 * nr)) nr i))
      <$> range nr
  | None => []
  end.

(** A map with a register wider than the range check can handle. *)
Definition wide_map : gmap string (Z * Z * bool) :=
  {[ "wide" := (0x40300040, 129, true) ]}.

(** The data of a list of write transactions, read as one number, the
    first byte the most significant one. *)
Definition written_value (ts : list transaction) : Z :=
  foldl (λ acc t, match t with
                  | TWrite _ data => acc * 256 + data
                  | TRead _ => acc
                  end) 0 ts.

(** The write transactions of one named parameter: [ceil(n/8)] bytes
    from the offset of its register on, most significant byte first;
    none when the register bank does not have the name. *)
Definition parameter_writes (get_offset : list csr → string → option Z)
    (desc : list csr) (k : string) (v : Z) : list transaction :=
  match get_offset desc k, CsrParams.find_size desc (inl k) None with
  | Some a, Some n =>
      (λ j, TWrite (a + j) (big_endian_byte v ((n + 8 - 1) / 8) j))
      <$> range ((n + 8 - 1) / 8)
  | _, _ => []
  end.

(** The consumer's side of the generator: [next] on it [n] times, or
    until it raises [StopIteration]; the values it yields and the
    generator after them. *)
Fixpoint nexts (n : nat) (g : CsrThread.thread)
  : list (option transaction) * CsrThread.thread :=
  match n with
  | O => ([], g)
  | S n' =>
      match CsrThread.gen g with
      | (CsrThread.Yield t, g') =>
          let '(ts, g'') := nexts n' g' in (t :: ts, g'')
      | (CsrThread.StopIteration, g') => ([], g')
      end
  end.

(** A call of [write] or [read], up to [ev.wait()]: the transaction
    and the event made for it, [ev]. *)
Definition caller_request (g : CsrThread.thread) (r : transaction * nat)
  : CsrThread.thread :=
  match r.1 with
  | TWrite addr value => CsrThread.write addr value r.2 g
  | TRead addr => CsrThread.read addr r.2 g
  end.

(** What the threads do to the generator and its queue, step by step
    and in the order in which the steps happen: a caller appends to
    the queue, or the simulation calls [next] on the generator. The
    two appends of a [write] or a [read] are two steps, and steps of
    other threads can lie between them. *)
Inductive action :=
| Append (q : CsrThread.item)
| Next.

(** The generator after the steps [acts], with what each [Next] among
    them got. *)
Fixpoint schedule (acts : list action) (g : CsrThread.thread)
  : list CsrThread.step * CsrThread.thread :=
  match acts with
  | [] => ([], g)
  | Append q :: acts' => schedule acts' (CsrThread.append q g)
  | Next :: acts' =>
      let '(r, g') := CsrThread.gen g in
      let '(rs, g'') := schedule acts' g' in
      (r :: rs, g'')
  end.

(** The elements that the steps append, in order. *)
Definition appended (acts : list action) : list CsrThread.item :=
  omap (λ a, match a with Append q => Some q | Next => None end) acts.

(** An element that [write] or [read] appends. *)
Definition is_request (q : CsrThread.item) : bool :=
  match q with
  | CsrThread.QTransaction _ | CsrThread.QEvent _ => true
  | _ => false
  end.

(** The transactions and the events among elements of the queue, and
    the transactions among what the generator gave. *)
Definition transactions (q : list CsrThread.item) : list transaction :=
  omap (λ i, match i with
             | CsrThread.QTransaction t => Some t
             | _ => None
             end) q.

Definition events_among (q : list CsrThread.item) : list nat :=
  omap (λ i, match i with CsrThread.QEvent ev => Some ev | _ => None end) q.

Definition yielded (rs : list CsrThread.step) : list transaction :=
  omap (λ r, match r with
             | CsrThread.Yield (Some t) => Some t
             | _ => None
             end) rs.

(** * Properties *)

(** ** The monad and the loops *)

Lemma bind_Ok {S A B} (m : M S A) (k : A → M S B) s a s' :
  m s = (Ok a, s') → bind m k s = k a s'.
Proof. unfold bind. intros ->. reflexivity. Qed.

Lemma bind_Raise {S A B} (m : M S A) (k : A → M S B) s e s' :
  m s = (Raise e, s') → bind m k s = (Raise e, s').
Proof. unfold bind. intros ->. reflexivity. Qed.

Lemma for_app {S A} (l1 l2 : list A) (body : A → M S unit) s :
  for_ (l1 ++ l2) body s = bind (for_ l1 body) (λ _, for_ l2 body) s.
Proof.
  revert s. induction l1 as [|a l1 IH]; intros s; simpl.
  - reflexivity.
  - destruct (body a s) as [[[]|e] s1] eqn:E.
    + rewrite (bind_Ok _ _ _ _ _ E), IH. unfold bind. rewrite E.
      reflexivity.
    + rewrite (bind_Raise _ _ _ _ _ E). unfold bind. rewrite E.
      reflexivity.
Qed.

(** A loop over a reliable body runs to its end. *)
Lemma for_reliable {S A} (l : list A) (body : A → M S unit) :
  (∀ a s, ∃ s', body a s = (Ok (), s')) →
  ∀ s, ∃ s', for_ l body s = (Ok (), s').
Proof.
  intros Hbody. induction l as [|a l IH]; intros s; simpl.
  - eexists. reflexivity.
  - destruct (Hbody a s) as [s1 H1]. rewrite (bind_Ok _ _ _ _ _ H1).
    apply IH.
Qed.

Lemma range_nonpos n : n <= 0 → range n = [].
Proof.
  intros Hn. unfold range, seqZ.
  replace (Z.to_nat n) with 0%nat by lia. reflexivity.
Qed.

Lemma elem_of_range n i : i ∈ range n ↔ 0 <= i < n.
Proof. unfold range. rewrite elem_of_seqZ. lia. Qed.

Lemma lookup_range n (j : nat) :
  Z.of_nat j < n → range n !! j = Some (Z.of_nat j).
Proof.
  intros Hj. unfold range. rewrite lookup_seqZ_lt by lia. reflexivity.
Qed.

Lemma length_range n : 0 <= n → Z.of_nat (length (range n)) = n.
Proof. intros Hn. unfold range. rewrite length_seqZ. lia. Qed.

(** ** The range check of [PitayaCSR.set] *)

Lemma shiftl_1 n : 0 <= n → Z.shiftl 1 n = 2 ^ n.
Proof. intros Hn. rewrite Z.shiftl_mul_pow2 by lia. lia. Qed.

Lemma land_mask v n : 0 <= n → Z.land v (2 ^ n - 1) = v mod 2 ^ n.
Proof.
  intros Hn. rewrite <- Z.land_ones by lia. f_equal.
  rewrite Z.ones_equiv. lia.
Qed.

Lemma pow2_width nr : 0 <= nr <= 128 → 0 < 2 ^ (nr * 8) < 2 ^ 1025.
Proof.
  intros Hnr. split; [apply Z.pow_pos_nonneg; lia|].
  apply Z.pow_lt_mono_r; lia.
Qed.

Section set_facts.
Context {S : Type} `{!Backend S}.
Variable map : gmap string (Z * Z * bool).

Lemma set_unknown name value s :
  map !! name = None →
  PitayaCSR.set map name value s = (Raise (UnknownRegister name), s).
Proof.
  intros Hm. unfold PitayaCSR.set, mbind, M_bind, bind at 1.
  unfold PitayaCSR.map_getitem. rewrite Hm. reflexivity.
Qed.

Lemma set_read_only name addr nr value s :
  map !! name = Some (addr, nr, false) →
  PitayaCSR.set map name value s = (Raise (ReadOnlyRegister name), s).
Proof.
  intros Hm. unfold PitayaCSR.set, mbind, M_bind, bind at 1.
  unfold PitayaCSR.map_getitem. rewrite Hm. reflexivity.
Qed.

Lemma set_negative_width name addr nr value s :
  map !! name = Some (addr, nr, true) → nr < 0 →
  PitayaCSR.set map name value s
  = (Raise (ValueError NegativeShiftCount), s).
Proof.
  intros Hm Hnr. unfold PitayaCSR.set, mbind, M_bind, bind at 1.
  unfold PitayaCSR.map_getitem. rewrite Hm. cbn.
  unfold bind at 1, shl.
  destruct (Z.ltb_spec (nr * 8) 0); [reflexivity|lia].
Qed.

Lemma set_overflow name addr nr value s :
  map !! name = Some (addr, nr, true) → 128 < nr →
  PitayaCSR.set map name value s = (Raise OverflowError, s).
Proof.
  intros Hm Hnr. unfold PitayaCSR.set, mbind, M_bind, bind at 1.
  unfold PitayaCSR.map_getitem. rewrite Hm. cbn.
  unfold bind at 1, shl.
  destruct (Z.ltb_spec (nr * 8) 0); [lia|]. cbn.
  unfold bind at 1, ge_neg_half. rewrite shiftl_1 by lia.
  destruct (Z.leb_spec (2 ^ 1025) (2 ^ (nr * 8))) as [|Hlt];
    [reflexivity|].
  exfalso. apply (Z.pow_lt_mono_r_iff 2) in Hlt; lia.
Qed.

Lemma set_out_of_range name addr nr value s :
  map !! name = Some (addr, nr, true) → 0 <= nr <= 128 →
  ¬ (- 2 ^ (nr * 8) <= 2 * value ∧ value < 2 ^ (nr * 8)) →
  PitayaCSR.set map name value s = (Raise (OutOfRange value nr), s).
Proof.
  intros Hm Hnr Hv. unfold PitayaCSR.set, mbind, M_bind, bind at 1.
  unfold PitayaCSR.map_getitem. rewrite Hm. cbn.
  unfold bind at 1, shl.
  destruct (Z.ltb_spec (nr * 8) 0); [lia|]. cbn.
  unfold bind at 1, ge_neg_half, OutOfRange.
  pose proof (pow2_width nr Hnr) as Hp.
  rewrite shiftl_1 by lia.
  destruct (Z.leb_spec (2 ^ 1025) (2 ^ (nr * 8))); [lia|]. cbn.
  unfold bind at 1.
  destruct (Z.leb_spec (- 2 ^ (nr * 8)) (2 * value));
    destruct (Z.ltb_spec value (2 ^ (nr * 8))); cbn;
    try reflexivity.
  exfalso. apply Hv. lia.
Qed.

Lemma set_in_range name addr nr value s :
  map !! name = Some (addr, nr, true) → 0 <= nr <= 128 →
  - 2 ^ (nr * 8) <= 2 * value → value < 2 ^ (nr * 8) →
  PitayaCSR.set map name value s
  = PitayaCSR.set_loop addr nr (value mod 2 ^ (nr * 8)) s.
Proof.
  intros Hm Hnr Hlo Hhi. unfold PitayaCSR.set, mbind, M_bind, bind at 1.
  unfold PitayaCSR.map_getitem. rewrite Hm. cbn.
  unfold bind at 1, shl.
  destruct (Z.ltb_spec (nr * 8) 0); [lia|]. cbn.
  unfold bind at 1, ge_neg_half.
  pose proof (pow2_width nr Hnr) as Hp.
  rewrite shiftl_1 by lia.
  destruct (Z.leb_spec (2 ^ 1025) (2 ^ (nr * 8))); [lia|]. cbn.
  unfold bind at 1.
  destruct (Z.leb_spec (- 2 ^ (nr * 8)) (2 * value)); [|lia].
  destruct (Z.ltb_spec value (2 ^ (nr * 8))); [|lia]. cbn.
  rewrite land_mask by lia. reflexivity.
Qed.
End set_facts.

(** ** The bytes of a value, and the value of the bytes *)

Lemma testbit_255 m : Z.testbit 255 m = (0 <=? m) && (m <? 8).
Proof. apply (Z.testbit_ones 8). lia. Qed.

(** Every byte that [set] writes is a byte. *)
Lemma set_byte_range val nr i : 0 <= PitayaCSR.set_byte val nr i < 256.
Proof.
  unfold PitayaCSR.set_byte. change 255 with (Z.ones 8).
  rewrite Z.land_ones by lia. apply Z.mod_pos_bound. lia.
Qed.

(** Or-ing one more byte below the bytes gathered so far. *)
Lemma lor_next_byte val k :
  0 <= k →
  Z.lor (Z.shiftl (Z.shiftr val (k + 8)) (k + 8))
        (Z.shiftl (Z.land (Z.shiftr val k) 255) k)
  = Z.shiftl (Z.shiftr val k) k.
Proof.
  intros Hk. apply Z.bits_inj'. intros n Hn.
  rewrite Z.lor_spec, !Z.shiftl_spec, Z.land_spec by lia.
  rewrite testbit_255.
  destruct (Z.lt_ge_cases n k) as [Hlt|Hge].
  - rewrite (Z.testbit_neg_r _ (n - (k + 8))) by lia.
    rewrite !(Z.testbit_neg_r _ (n - k)) by lia. reflexivity.
  - rewrite (Z.shiftr_spec val k (n - k)) by lia.
    replace (n - k + k) with n by lia.
    destruct (Z.lt_ge_cases n (k + 8)) as [Hlt8|Hge8].
    + rewrite (Z.testbit_neg_r _ (n - (k + 8))) by lia.
      destruct (Z.leb_spec 0 (n - k)); [|lia].
      destruct (Z.ltb_spec (n - k) 8); [|lia].
      cbn. rewrite andb_true_r. reflexivity.
    + rewrite (Z.shiftr_spec val (k + 8)) by lia.
      replace (n - (k + 8) + (k + 8)) with n by lia.
      destruct (Z.testbit val n); reflexivity.
Qed.

(** The loop of [get] over the bytes that the loop of [set] wrote, after
    [j] rounds: the value without its low [nr - j] bytes. *)
Lemma decode_prefix val nr (j : nat) :
  Z.of_nat j <= nr → 0 <= val < 2 ^ (nr * 8) →
  foldl (λ v i, Z.lor v (Z.shiftl (PitayaCSR.set_byte val nr i)
                                  (8 * (nr - i - 1))))
        0 (range (Z.of_nat j))
  = Z.shiftl (Z.shiftr val (8 * (nr - Z.of_nat j)))
             (8 * (nr - Z.of_nat j)).
Proof.
  intros Hj Hval. induction j as [|j IH].
  - cbn [foldl range]. rewrite range_nonpos by lia. cbn [foldl].
    rewrite Z.shiftr_div_pow2 by lia.
    replace (8 * (nr - Z.of_nat 0)) with (nr * 8) by lia.
    rewrite Z.div_small by lia. symmetry. apply Z.shiftl_0_l.
  - unfold range in *.
    replace (Z.of_nat (Datatypes.S j)) with (Z.of_nat j + 1) by lia.
    rewrite seqZ_app by lia. rewrite foldl_app, IH by lia.
    cbn [seqZ foldl]. change (seqZ (0 + Z.of_nat j) 1) with
      [0 + Z.of_nat j]. cbn [foldl]. unfold PitayaCSR.set_byte.
    replace (0 + Z.of_nat j) with (Z.of_nat j) by lia.
    replace (8 * (nr - Z.of_nat j)) with
      (8 * (nr - Z.of_nat j - 1) + 8) by lia.
    replace (8 * (nr - (Z.of_nat j + 1))) with
      (8 * (nr - Z.of_nat j - 1)) by lia.
    apply lor_next_byte. lia.
Qed.

(** Decoding the bytes of a value gives the value back. *)
Lemma decode_encode val nr :
  0 <= nr → 0 <= val < 2 ^ (nr * 8) →
  foldl (λ v i, Z.lor v (Z.shiftl (PitayaCSR.set_byte val nr i)
                                  (8 * (nr - i - 1))))
        0 (range nr)
  = val.
Proof.
  intros Hnr Hval.
  pose proof (decode_prefix val nr (Z.to_nat nr)) as H.
  rewrite Z2Nat.id in H by lia. rewrite H by lia.
  replace (8 * (nr - nr)) with 0 by lia.
  rewrite Z.shiftr_0_r, Z.shiftl_0_r. reflexivity.
Qed.

(** ** [set] and [get] on the register file *)

Lemma foldl_ext_in {A B} (f1 f2 : A → B → A) (l : list B) acc :
  (∀ v i, i ∈ l → f1 v i = f2 v i) → foldl f1 acc l = foldl f2 acc l.
Proof.
  revert acc. induction l as [|b l IH]; intros acc Hf; cbn; [reflexivity|].
  rewrite Hf by left. apply IH. intros v i Hi. apply Hf. right. exact Hi.
Qed.

Lemma foldl_insert_other `{Countable K} (f : Z → K) (g : Z → Z)
    (l : list Z) (m : gmap K Z) k :
  (∀ i, i ∈ l → f i ≠ k) →
  foldl (λ m i, <[f i := g i]> m) m l !! k = m !! k.
Proof.
  revert m. induction l as [|a l IH]; intros m Hk; cbn; [reflexivity|].
  rewrite IH by (intros i Hi; apply Hk; right; exact Hi).
  apply lookup_insert_ne, Hk. left.
Qed.

Lemma foldl_insert_lookup `{Countable K} (f : Z → K) (g : Z → Z)
    (l : list Z) (m : gmap K Z) j :
  (∀ i i', f i = f i' → i = i') → NoDup l → j ∈ l →
  foldl (λ m i, <[f i := g i]> m) m l !! f j = Some (g j).
Proof.
  intros Hinj. revert m. induction l as [|a l IH]; intros m Hnd Hj.
  - inversion Hj.
  - apply NoDup_cons in Hnd as [Ha Hnd]. cbn.
    apply elem_of_cons in Hj as [->|Hj].
    + rewrite foldl_insert_other.
      * apply lookup_insert_eq.
      * intros i Hi Heq. apply Hinj in Heq. subst. contradiction.
    + apply IH; assumption.
Qed.

Lemma RegFile_for (f g : Z → Z) (l : list Z) (d : RegFile.device) :
  for_ l (λ i, set_one (f i) (g i)) d
  = (Ok (), RegFile.Device
              (foldl (λ m i, <[f i := g i]> m) (RegFile.regs d) l)
              (RegFile.received d ++ ((λ i, (f i, g i)) <$> l))).
Proof.
  revert d. induction l as [|a l IH]; intros d; cbn.
  - rewrite app_nil_r. destruct d; reflexivity.
  - unfold bind. cbn. rewrite IH. cbn. rewrite <- app_assoc. reflexivity.
Qed.

Lemma RegFile_fold (h : Z → Z → Z → Z) (f : Z → Z) (l : list Z) acc
    (d : RegFile.device) :
  fold_ (λ v i, b ← get_one (f i); mret (h v i b)) acc l d
  = (Ok (foldl (λ v i, h v i (default 0 (RegFile.regs d !! f i))) acc l),
     d).
Proof.
  revert acc. induction l as [|a l IH]; intros acc; cbn; [reflexivity|].
  unfold bind at 1. cbn. apply IH.
Qed.

Lemma RegFile_reliable : reliable RegFile.device.
Proof. intros a v s. eexists. reflexivity. Qed.

Lemma PitayaTB_reliable : reliable (gmap key Z).
Proof. intros a v s. eexists. reflexivity. Qed.

(** What the loop of [set] does to the device: one write per byte, at
    addresses four apart. *)
Lemma RegFile_set_loop addr nr val (d : RegFile.device) :
  PitayaCSR.set_loop addr nr val d
  = (Ok (), RegFile.Device
              (foldl (λ m i, <[addr + i * 4 := PitayaCSR.set_byte val nr i]> m)
                     (RegFile.regs d) (range nr))
              (RegFile.received d
               ++ ((λ i, (addr + i * 4, PitayaCSR.set_byte val nr i))
                   <$> range nr))).
Proof.
  unfold PitayaCSR.set_loop.
  apply (RegFile_for (λ i, addr + i * 4) (λ i, PitayaCSR.set_byte val nr i)).
Qed.

(** Reading a register back after the loop of [set] has written it. *)
Lemma RegFile_get_after_set map name addr nr wr val
    (d : RegFile.device) d' :
  map !! name = Some (addr, nr, wr) → 0 <= nr →
  0 <= val < 2 ^ (nr * 8) →
  PitayaCSR.set_loop addr nr val d = (Ok (), d') →
  PitayaCSR.get map name d' = (Ok val, d').
Proof.
  intros Hm Hnr Hval Hset. rewrite RegFile_set_loop in Hset.
  inversion Hset as [Hd']. clear Hset.
  unfold PitayaCSR.get, mbind, M_bind, bind at 1.
  unfold PitayaCSR.map_getitem. rewrite Hm. cbn.
  rewrite (RegFile_fold (λ v i b, Z.lor v (Z.shiftl b (8 * (nr - i - 1))))
             (λ i, addr + i * 4)).
  f_equal. f_equal.
  etransitivity; [|exact (decode_encode val nr Hnr Hval)].
  apply foldl_ext_in. intros v i Hi. cbn.
  rewrite (foldl_insert_lookup (λ i, addr + i * 4)
             (λ i, PitayaCSR.set_byte val nr i)).
  - reflexivity.
  - intros i1 i2. lia.
  - apply NoDup_seqZ.
  - exact Hi.
Qed.

(** ** The claims on [PitayaCSR.set] and [PitayaCSR.get] *)

Lemma pow2_half nr : 1 <= nr → 2 ^ (nr * 8) = 2 * 2 ^ (8 * nr - 1).
Proof.
  intros Hnr. replace (nr * 8) with (1 + (8 * nr - 1)) by lia.
  rewrite Z.pow_add_r by lia. reflexivity.
Qed.

Lemma set_loop_reliable {S} `{!Backend S} addr nr val :
  reliable S → ∀ s, ∃ s', PitayaCSR.set_loop addr nr val s = (Ok (), s').
Proof.
  intros Hrel. unfold PitayaCSR.set_loop. apply for_reliable.
  intros i s. apply Hrel.
Qed.

Lemma for_raises {S A} (P : exn → Prop) (l : list A)
    (body : A → M S unit) :
  (∀ a s e s', body a s = (Raise e, s') → P e) →
  ∀ s e s', for_ l body s = (Raise e, s') → P e.
Proof.
  intros Hbody. induction l as [|a l IH]; intros s e s'; cbn.
  - unfold ret. intros H. inversion H.
  - unfold bind. destruct (body a s) as [[[]|e0] s0] eqn:E.
    + apply IH.
    + intros H. inversion H; subst. eapply Hbody, E.
Qed.

(** C1 (as amended): for a writable register of width [1 <= nr <= 128]
    the range check of [set] accepts exactly the values with
    [-2^(8*nr-1) <= value < 2^(8*nr)]. So [2^(8*nr-1) - 1] is accepted,
    and so is [2^(8*nr-1)]: the upper bound is [2^(8*nr)]. A value
    outside the range raises the [AssertionError] of the range check
    with the backend state as it was: nothing has been written. *)
Theorem set_range_check {S} `{!Backend S} map name addr nr (s : S) :
  reliable S → map !! name = Some (addr, nr, true) → 1 <= nr <= 128 →
  (∀ value, - 2 ^ (8 * nr - 1) <= value < 2 ^ (8 * nr) →
     ∃ s', PitayaCSR.set map name value s = (Ok (), s')) ∧
  (∀ value, ¬ (- 2 ^ (8 * nr - 1) <= value < 2 ^ (8 * nr)) →
     PitayaCSR.set map name value s = (Raise (OutOfRange value nr), s)) ∧
  (∃ s', PitayaCSR.set map name (2 ^ (8 * nr - 1) - 1) s = (Ok (), s')) ∧
  (∃ s', PitayaCSR.set map name (2 ^ (8 * nr - 1)) s = (Ok (), s')).
Proof.
  intros Hrel Hm Hnr.
  pose proof (pow2_half nr ltac:(lia)) as Hhalf.
  replace (8 * nr) with (nr * 8) in * by lia.
  assert (0 < 2 ^ (nr * 8 - 1)) as Hpos by (apply Z.pow_pos_nonneg; lia).
  assert (∀ value, - 2 ^ (nr * 8 - 1) <= value < 2 ^ (nr * 8) →
            ∃ s', PitayaCSR.set map name value s = (Ok (), s')) as Hacc.
  { intros value Hv.
    rewrite (set_in_range map name addr nr) by (try assumption; lia).
    apply set_loop_reliable, Hrel. }
  repeat split.
  - exact Hacc.
  - intros value Hv. apply (set_out_of_range map name addr);
      [assumption|lia|]. intros [Hlo Hhi]. apply Hv. lia.
  - apply Hacc. lia.
  - apply Hacc. lia.
Qed.

Lemma set_range_check_witness :
  reliable RegFile.device ∧ gain_map !! "gain" = Some (0x100, 2, true) ∧
  1 <= 2 <= 128 ∧
  (∃ s', PitayaCSR.set gain_map "gain" (2 ^ (8 * 2 - 1)) RegFile.reset
         = (Ok (), s')).
Proof.
  split; [exact RegFile_reliable|]. split; [reflexivity|].
  split; [lia|].
  apply (set_range_check gain_map "gain" 0x100 2 RegFile.reset
           RegFile_reliable eq_refl ltac:(lia)).
Defined.

(** C1, as stated, fails: a register of one byte takes the value
    [2^(8*1-1) = 128], no [OutOfRange] is raised and the byte [0x80] is
    written. *)
Lemma set_accepts_half_scale :
  PitayaCSR.set bank_map "tap" (2 ^ (8 * 1 - 1)) RegFile.reset
  = (Ok (), RegFile.Device {[ 0x40300010 := 0x80 ]} [(0x40300010, 0x80)])
  ∧ fst (PitayaCSR.set bank_map "tap" (2 ^ (8 * 1 - 1)) RegFile.reset)
    ≠ Raise (OutOfRange (2 ^ (8 * 1 - 1)) 1).
Proof. split; [vm_compute; reflexivity|vm_compute; discriminate]. Qed.

(** C5: a [set] that fails for the name or the value (a [KeyError] or
    an [AssertionError]: the backend raises neither) fails before the
    loop. The state of the backend is as it was, whatever the backend,
    so no per-byte write was made; and the exception is the one of the
    unknown name, of the read-only register or of the range check. *)
Theorem set_failure_atomic {S} `{!Backend S} map name value (s s' : S) e :
  raises_ValueError S →
  PitayaCSR.set map name value s = (Raise e, s') →
  (∃ k, e = KeyError k) ∨ (∃ args, e = AssertionError args) →
  s' = s ∧
  ((e = UnknownRegister name ∧ map !! name = None) ∨
   (e = ReadOnlyRegister name ∧
    ∃ addr nr, map !! name = Some (addr, nr, false)) ∨
   (∃ addr nr, e = OutOfRange value nr ∧
      map !! name = Some (addr, nr, true) ∧
      ¬ (- 2 ^ (nr * 8) <= 2 * value ∧ value < 2 ^ (nr * 8)))).
Proof.
  intros [Hset _] Hrun Hkind.
  destruct (map !! name) as [[[addr nr] [|]]|] eqn:Hm.
  - destruct (Z.lt_ge_cases nr 0) as [Hneg|Hnr].
    { rewrite (set_negative_width map name addr nr) in Hrun by assumption.
      inversion Hrun; subst. destruct Hkind as [[? ?]|[? ?]]; discriminate. }
    destruct (Z.lt_ge_cases 128 nr) as [Hbig|Hsmall].
    { rewrite (set_overflow map name addr nr) in Hrun by assumption.
      inversion Hrun; subst. destruct Hkind as [[? ?]|[? ?]]; discriminate. }
    destruct (decide (- 2 ^ (nr * 8) <= 2 * value ∧ value < 2 ^ (nr * 8)))
      as [[Hlo Hhi]|Hout].
    + rewrite (set_in_range map name addr nr) in Hrun
        by (try assumption; lia).
      exfalso. unfold PitayaCSR.set_loop in Hrun.
      apply (for_raises (λ e, ∃ d, e = ValueError d)) in Hrun.
      * destruct Hrun as [d ->].
        destruct Hkind as [[? ?]|[? ?]]; discriminate.
      * intros i s0 e0 s0'. apply Hset.
    + rewrite (set_out_of_range map name addr nr) in Hrun
        by (try assumption; lia).
      inversion Hrun; subst. split; [reflexivity|].
      right. right. exists addr, nr. auto.
  - rewrite (set_read_only map name addr nr) in Hrun by assumption.
    inversion Hrun; subst. split; [reflexivity|].
    right. left. eauto.
  - rewrite set_unknown in Hrun by assumption.
    inversion Hrun; subst. split; [reflexivity|]. left. auto.
Qed.

Lemma RegFile_raises : raises_ValueError RegFile.device.
Proof. split; intros; discriminate. Qed.

Lemma PitayaTB_raises : raises_ValueError (gmap key Z).
Proof. split; intros; discriminate. Qed.

Lemma PitayaReal_cmd_raises {R} (popen : list string → R → string * string * R)
    c r e r' :
  PitayaReal.cmd popen c r = (Raise e, r') → ∃ d, e = ValueError d.
Proof.
  unfold PitayaReal.cmd. destruct (popen c r) as [[o err] r0].
  destruct (decide (err = EmptyString)); intros Hc; inversion Hc; eauto.
Qed.

(** [PitayaReal] raises nothing but [ValueError] either, but it can
    raise it in the middle of the loop of [set]. *)
Lemma PitayaReal_raises {R} (popen : list string → R → string * string * R)
    hex08 hex02 int16 :
  @raises_ValueError R (PitayaReal.backend popen hex08 hex02 int16).
Proof.
  split.
  - intros a v s e s'. cbn. unfold PitayaReal.set_one, mbind, M_bind, bind.
    destruct (PitayaReal.cmd popen _ s) as [[o|e0] r0] eqn:E;
      intros H; inversion H; subst.
    eapply PitayaReal_cmd_raises, E.
  - intros a s e s'. cbn. unfold PitayaReal.get_one, mbind, M_bind, bind.
    destruct (PitayaReal.cmd popen _ s) as [[o|e0] r0] eqn:E.
    + destruct (int16 o); intros H; inversion H; eauto.
    + intros H; inversion H; subst. eapply PitayaReal_cmd_raises, E.
Qed.

Lemma set_failure_atomic_witness :
  raises_ValueError RegFile.device ∧
  PitayaCSR.set bank_map "version" 1 RegFile.reset
  = (Raise (ReadOnlyRegister "version"), RegFile.reset) ∧
  RegFile.reset = RegFile.reset ∧
  ((ReadOnlyRegister "version" = UnknownRegister "version" ∧
    bank_map !! "version" = None) ∨
   (ReadOnlyRegister "version" = ReadOnlyRegister "version" ∧
    ∃ addr nr, bank_map !! "version" = Some (addr, nr, false)) ∨
   (∃ addr nr, ReadOnlyRegister "version" = OutOfRange 1 nr ∧
      bank_map !! "version" = Some (addr, nr, true) ∧
      ¬ (- 2 ^ (nr * 8) <= 2 * 1 ∧ 1 < 2 ^ (nr * 8)))).
Proof.
  split; [exact RegFile_raises|]. split; [reflexivity|].
  apply (set_failure_atomic bank_map "version" 1 RegFile.reset
           RegFile.reset (ReadOnlyRegister "version") RegFile_raises
           eq_refl).
  right. eexists. reflexivity.
Defined.

(** C3: on a device that keeps the bytes written to it, [get] after
    [set] returns a value congruent to the value set, modulo
    [2^(8*nr)]. The value returned is the unsigned one, in
    [0, 2^(8*nr)). Registers up to 128 bytes can be set; a wider one
    cannot, and then there is nothing to read back. *)
Theorem set_get_round_trip map name addr nr value (d : RegFile.device) :
  map !! name = Some (addr, nr, true) → 1 <= nr →
  - 2 ^ (8 * nr - 1) <= value < 2 ^ (8 * nr - 1) →
  (nr <= 128 → ∃ d', PitayaCSR.set map name value d = (Ok (), d')) ∧
  (∀ d', PitayaCSR.set map name value d = (Ok (), d') →
     ∃ v, PitayaCSR.get map name d' = (Ok v, d') ∧
          0 <= v < 2 ^ (8 * nr) ∧
          v mod 2 ^ (8 * nr) = value mod 2 ^ (8 * nr)).
Proof.
  intros Hm Hnr Hv.
  pose proof (pow2_half nr Hnr) as Hhalf.
  replace (8 * nr) with (nr * 8) in * by lia.
  assert (0 < 2 ^ (nr * 8 - 1)) as Hpos by (apply Z.pow_pos_nonneg; lia).
  split.
  - intros Hle.
    rewrite (set_in_range map name addr nr) by (try assumption; lia).
    apply set_loop_reliable, RegFile_reliable.
  - intros d' Hset.
    destruct (Z.lt_ge_cases 128 nr) as [Hbig|Hle].
    { rewrite (set_overflow map name addr nr) in Hset by assumption.
      discriminate. }
    rewrite (set_in_range map name addr nr) in Hset
      by (try assumption; lia).
    assert (0 <= value mod 2 ^ (nr * 8) < 2 ^ (nr * 8)) as Hmod
      by (apply Z.mod_pos_bound; lia).
    exists (value mod 2 ^ (nr * 8)). split; [|split].
    + eapply RegFile_get_after_set; try eassumption. lia.
    + exact Hmod.
    + apply Z.mod_mod. lia.
Qed.

Lemma set_get_round_trip_witness :
  gain_map !! "gain" = Some (0x100, 2, true) ∧ 1 <= 2 ∧
  - 2 ^ (8 * 2 - 1) <= -1234 < 2 ^ (8 * 2 - 1) ∧
  (2 <= 128 →
   ∃ d', PitayaCSR.set gain_map "gain" (-1234) RegFile.reset = (Ok (), d')) ∧
  (∀ d', PitayaCSR.set gain_map "gain" (-1234) RegFile.reset = (Ok (), d') →
     ∃ v, PitayaCSR.get gain_map "gain" d' = (Ok v, d') ∧
          0 <= v < 2 ^ (8 * 2) ∧
          v mod 2 ^ (8 * 2) = -1234 mod 2 ^ (8 * 2)).
Proof.
  split; [reflexivity|]. split; [lia|]. split; [vm_compute; intuition discriminate|].
  apply (set_get_round_trip gain_map "gain" 0x100 2 (-1234) RegFile.reset
           eq_refl); [lia|vm_compute; intuition discriminate].
Defined.

(** C4 (as amended): with [gain] at address [0x100], two bytes wide and
    writable, [set("gain", -1)] sends the device exactly two writes, of
    the byte [0xFF] each, at the addresses [0x100] and [0x104]; a [get]
    from a device that returns the bytes written then gives [0xFFFF],
    the unsigned value, without sign extension. *)
Theorem gain_scenario map (d : RegFile.device) :
  map !! "gain" = Some (0x100, 2, true) →
  ∃ d', PitayaCSR.set map "gain" (-1) d = (Ok (), d') ∧
        RegFile.received d'
        = RegFile.received d ++ [(0x100, 0xFF); (0x104, 0xFF)] ∧
        PitayaCSR.get map "gain" d' = (Ok 0xFFFF, d').
Proof.
  intros Hm.
  assert (PitayaCSR.set map "gain" (-1) d
          = PitayaCSR.set_loop 0x100 2 0xFFFF d) as Hset.
  { rewrite (set_in_range map "gain" 0x100 2) by (try assumption; lia).
    reflexivity. }
  rewrite Hset. rewrite RegFile_set_loop. eexists.
  split; [reflexivity|]. split; [reflexivity|].
  apply (RegFile_get_after_set map "gain" 0x100 2 true 0xFFFF d);
    [assumption|lia|lia|]. apply RegFile_set_loop.
Qed.

Lemma gain_scenario_witness :
  gain_map !! "gain" = Some (0x100, 2, true) ∧
  ∃ d', PitayaCSR.set gain_map "gain" (-1) RegFile.reset = (Ok (), d') ∧
        RegFile.received d'
        = RegFile.received RegFile.reset ++ [(0x100, 0xFF); (0x104, 0xFF)] ∧
        PitayaCSR.get gain_map "gain" d' = (Ok 0xFFFF, d').
Proof.
  split; [reflexivity|].
  apply (gain_scenario gain_map RegFile.reset eq_refl).
Defined.

(** C4, as stated, fails: the second write goes to [0x104], not to
    [0x101]. *)
Lemma gain_second_write_address :
  RegFile.received (snd (PitayaCSR.set gain_map "gain" (-1) RegFile.reset))
  = [(0x100, 0xFF); (0x104, 0xFF)] ∧
  RegFile.received (snd (PitayaCSR.set gain_map "gain" (-1) RegFile.reset))
  ≠ [(0x100, 0xFF); (0x101, 0xFF)].
Proof. split; [vm_compute; reflexivity|vm_compute; discriminate]. Qed.

(** On the simulated backend a [get] returns 0 whatever was set. *)
Lemma PitayaTB_get (map : gmap string (Z * Z * bool)) (name : string)
    (addr nr : Z) (wr : bool) (params : gmap key Z) :
  map !! name = Some (addr, nr, wr) →
  PitayaCSR.get map name params = (Ok 0, params).
Proof.
  intros Hm. unfold PitayaCSR.get, mbind, M_bind, bind at 1.
  unfold PitayaCSR.map_getitem. rewrite Hm. cbn.
  generalize (range nr). intros l.
  induction l as [|i l IH]; cbn [fold_]; [reflexivity|].
  unfold bind at 1, mbind, M_bind, bind at 1.
  cbn [get_one PitayaTB.backend PitayaTB.get_one mret M_ret ret].
  rewrite Z.shiftl_0_l, Z.lor_0_l. exact IH.
Qed.

(** ** The write path: bytes and addresses *)

Lemma set_byte_big_endian val nr i :
  i < nr → PitayaCSR.set_byte val nr i = big_endian_byte val nr i.
Proof.
  intros Hi. unfold PitayaCSR.set_byte, big_endian_byte.
  change 255 with (Z.ones 8). rewrite Z.land_ones by lia.
  rewrite Z.shiftr_div_pow2 by lia.
  replace (8 * (nr - i - 1)) with (8 * (nr - 1 - i)) by lia. reflexivity.
Qed.

Lemma fmap_range_ext {A} (f g : Z → A) n :
  (∀ i, 0 <= i < n → f i = g i) → f <$> range n = g <$> range n.
Proof.
  intros Hfg. apply list_fmap_ext. intros j i Hi. apply Hfg.
  apply elem_of_range. eapply list_elem_of_lookup_2, Hi.
Qed.

Lemma range_succ n : 0 <= n → range (n + 1) = range n ++ [n].
Proof. intros Hn. unfold range. rewrite seqZ_app by lia. reflexivity. Qed.

Lemma range_cons n : 0 <= n → range (n + 1) = 0 :: (Z.succ <$> range n).
Proof.
  intros Hn. unfold range. rewrite seqZ_cons by lia. f_equal.
  replace (Z.pred (n + 1)) with n by lia.
  change (Z.succ 0) with (1 + 0). rewrite <- (fmap_add_seqZ 1 0 n).
  apply list_fmap_ext. intros j i _. lia.
Qed.

(** The inner loop of [writes]: [b] writes at consecutive addresses,
    most significant byte first. *)
Lemma write_bytes_big_endian a v b :
  CsrParams.write_bytes a v (reverse (range b))
  = (λ j, TWrite (a + j) (big_endian_byte v b j)) <$> range b.
Proof.
  destruct (Z.le_gt_cases b 0) as [Hb|Hb].
  { rewrite range_nonpos by lia. reflexivity. }
  rewrite <- (Z2Nat.id b) by lia. generalize (Z.to_nat b). clear.
  intros n. revert a. induction n as [|n IH]; intros a.
  - reflexivity.
  - replace (Z.of_nat (Datatypes.S n)) with (Z.of_nat n + 1) by lia.
    rewrite range_succ at 1 by lia. rewrite reverse_snoc.
    rewrite range_cons by lia. cbn [CsrParams.write_bytes fmap list_fmap].
    f_equal.
    + unfold big_endian_byte. change 255 with (Z.ones 8).
      rewrite Z.land_ones, Z.shiftr_div_pow2 by lia.
      f_equal; [lia|]. f_equal. f_equal. f_equal. lia.
    + rewrite IH. rewrite <- list_fmap_compose. apply list_fmap_ext.
      intros j i _. cbn. unfold big_endian_byte.
      f_equal; [lia|]. f_equal. f_equal. f_equal. lia.
Qed.

(** The writes of [set], as the device receives them. *)
Lemma RegFile_set_received map name addr nr value (d : RegFile.device) :
  map !! name = Some (addr, nr, true) → 0 <= nr <= 128 →
  - 2 ^ (nr * 8) <= 2 * value → value < 2 ^ (nr * 8) →
  ∃ d', PitayaCSR.set map name value d = (Ok (), d') ∧
        RegFile.received d'
        = RegFile.received d
          ++ ((λ i, (addr + 4 * i,
                     big_endian_byte (value mod 2 ^ (8 * nr)) nr i))
              <$> range nr).
Proof.
  intros Hm Hnr Hlo Hhi.
  rewrite (set_in_range map name addr nr) by assumption.
  rewrite RegFile_set_loop. eexists. split; [reflexivity|]. cbn.
  f_equal. apply fmap_range_ext. intros i Hi.
  rewrite set_byte_big_endian by lia.
  replace (nr * 8) with (8 * nr) by lia. f_equal. lia.
Qed.

(** One named parameter of [CsrParams]: [ceil(n/8)] writes from the
    offset of the register on, at consecutive addresses, most
    significant byte first. *)
Lemma writes_named (get_offset : list csr → string → option Z)
    (desc : list csr) (k : string) (v a n : Z) :
  get_offset desc k = Some a →
  CsrParams.find_size desc (inl k) None = Some n →
  CsrParams.writes get_offset desc {[ inl k := v ]}
  = ((λ j, TWrite (a + j) (big_endian_byte v ((n + 8 - 1) / 8) j))
     <$> range ((n + 8 - 1) / 8), None).
Proof.
  intros Ha Hn. unfold CsrParams.writes, CsrParams.sorted.
  rewrite map_to_list_singleton. cbn.
  unfold CsrParams.writes_key. rewrite Hn, Ha, lookup_singleton_eq.
  rewrite app_nil_r. f_equal. apply write_bytes_big_endian.
Qed.

(** An integer key matches the name of no register. *)
Lemma find_size_int (desc : list csr) (k : Z) (n : option Z) :
  CsrParams.find_size desc (inr k) n = n.
Proof.
  induction desc as [|c desc IH]; cbn; [reflexivity|].
  destruct (decide (inl (CSR.name c) = inr k)); [discriminate|exact IH].
Qed.

(** An integer key of [CsrParams]: one write, at the key, of the low
    byte of the value. *)
Lemma writes_key_int (get_offset : list csr → string → option Z)
    (desc : list csr) (params : gmap key Z) (k v : Z) (n : option Z) :
  params !! inr k = Some v →
  CsrParams.writes_key get_offset desc params (inr k) n
  = ([TWrite k (v mod 256)], Ok (Some 1)).
Proof.
  intros Hv. unfold CsrParams.writes_key. rewrite Hv.
  change ((1 + 8 - 1) / 8) with 1. change (reverse (range 1)) with [0].
  cbn [CsrParams.write_bytes]. change (0 * 8) with 0.
  change 255 with (Z.ones 8). rewrite Z.land_ones by lia.
  rewrite Z.shiftr_0_r. reflexivity.
Qed.

Lemma writes_keys_int (get_offset : list csr → string → option Z)
    (desc : list csr) (params : gmap key Z) (ks : list Z) (g : Z → Z)
    (n : option Z) :
  (∀ k, k ∈ ks → params !! inr k = Some (g k)) →
  CsrParams.writes_keys get_offset desc params (inr <$> ks) n
  = ((λ k, TWrite k (g k mod 256)) <$> ks, None).
Proof.
  revert n. induction ks as [|k ks IH]; intros n Hks; [reflexivity|].
  cbn [fmap list_fmap CsrParams.writes_keys].
  rewrite (writes_key_int _ _ _ k (g k)) by (apply Hks; left).
  change (list_fmap Z key inr ks) with (inr <$> ks : list key).
  rewrite IH by (intros k' Hk'; apply Hks; right; exact Hk').
  reflexivity.
Qed.

(** ** From [PitayaTB.set_one] to the writes on the bus *)

Lemma foldl_insert_is_Some `{Countable K} (f : Z → K) (g : Z → Z)
    (l : list Z) (m : gmap K Z) k :
  is_Some (foldl (λ m i, <[f i := g i]> m) m l !! k)
  ↔ is_Some (m !! k) ∨ ∃ i, i ∈ l ∧ f i = k.
Proof.
  revert m. induction l as [|a l IH]; intros m; cbn.
  - split; [auto|]. intros [Hm|(i & Hi & _)]; [exact Hm|inversion Hi].
  - rewrite IH, lookup_insert_is_Some'. split.
    + intros [[Ha|Hm]|(i & Hi & Hf)].
      * right. exists a. split; [left|exact Ha].
      * left. exact Hm.
      * right. exists i. split; [right; exact Hi|exact Hf].
    + intros [Hm|(i & Hi & Hf)].
      * left. right. exact Hm.
      * apply elem_of_cons in Hi as [->|Hi].
        -- left. left. exact Hf.
        -- right. exists i. auto.
Qed.

Lemma elem_of_keys `{Countable K} (m : gmap K Z) k :
  k ∈ (map_to_list m).*1 ↔ is_Some (m !! k).
Proof.
  rewrite list_elem_of_fmap. split.
  - intros ([k' v] & -> & Hkv). apply elem_of_map_to_list in Hkv.
    exists v. exact Hkv.
  - intros [v Hv]. exists (k, v). split; [reflexivity|].
    apply elem_of_map_to_list. exact Hv.
Qed.

Lemma Sorted_shift_range off n : Sorted Z.le (Z.add off <$> range n).
Proof.
  unfold range. rewrite fmap_add_seqZ.
  destruct (Z.le_gt_cases n 0) as [Hn|Hn].
  { unfold seqZ. replace (Z.to_nat n) with 0%nat by lia. constructor. }
  rewrite <- (Z2Nat.id n) by lia. generalize (Z.to_nat n) (off + 0). clear.
  intros n. induction n as [|n IH]; intros m.
  - constructor.
  - rewrite seqZ_cons by lia.
    replace (Z.pred (Z.of_nat (Datatypes.S n))) with (Z.of_nat n) by lia.
    constructor; [apply IH|].
    destruct n as [|n]; [constructor|].
    rewrite seqZ_cons by lia. constructor. lia.
Qed.

(** [sorted] on the dictionary that the loop of [set] fills through
    [PitayaTB.set_one], from the empty one: the integer keys, in
    increasing order. *)
Lemma sorted_int_keys off (g : Z → Z) n :
  CsrParams.sorted
    (foldl (λ m i, <[inr (off + i) := g i]> m) (∅ : gmap key Z) (range n))
  = Ok (inr <$> (Z.add off <$> range n)).
Proof.
  unfold CsrParams.sorted.
  set (params := foldl _ _ _).
  assert ((map_to_list params).*1 ≡ₚ inr <$> (Z.add off <$> range n))
    as Hperm.
  { apply NoDup_Permutation.
    - apply NoDup_fst_map_to_list.
    - apply (NoDup_fmap_2 _).
      unfold range. rewrite fmap_add_seqZ. apply NoDup_seqZ.
    - intros k. rewrite elem_of_keys. unfold params.
      rewrite (foldl_insert_is_Some (λ i, inr (off + i))).
      rewrite lookup_empty. rewrite !list_elem_of_fmap. split.
      + intros [[? ?]|(i & Hi & <-)]; [discriminate|].
        exists (off + i). split; [reflexivity|].
        apply list_elem_of_fmap. eauto.
      + intros (z & -> & Hz). apply list_elem_of_fmap in Hz as (i & -> & Hi).
        right. eauto. }
  assert (∀ l : list Z,
            omap (λ k : key, match k with inl s => Some s | inr _ => None end)
                 (inr <$> l) = []) as Hstr.
  { intros l. induction l; [reflexivity|assumption]. }
  assert (∀ l : list Z,
            omap (λ k : key, match k with inr i => Some i | inl _ => None end)
                 (inr <$> l) = l) as Hint.
  { intros l. induction l as [|a l IH]; [reflexivity|].
    cbn. f_equal. exact IH. }
  pose proof (omap_Permutation
    (λ k : key, match k with inl s => Some s | inr _ => None end)
    _ _ Hperm) as Hs.
  pose proof (omap_Permutation
    (λ k : key, match k with inr i => Some i | inl _ => None end)
    _ _ Hperm) as Hi.
  rewrite Hstr in Hs. rewrite Hint in Hi.
  apply Permutation_nil_r in Hs. rewrite Hs.
  destruct (omap (λ k : key, match k with
                             | inr i => Some i
                             | inl _ => None
                             end) (map_to_list params).*1)
    as [|i0 ints].
  - apply Permutation_nil_l in Hi. rewrite <- Hi. reflexivity.
  - f_equal. f_equal. apply (Sorted_unique Z.le).
    + apply Sorted_merge_sort. apply _.
    + apply Sorted_shift_range.
    + rewrite merge_sort_Permutation. exact Hi.
Qed.

Lemma PitayaTB_set_loop (addr nr val : Z) (params : gmap key Z) :
  PitayaCSR.set_loop addr nr val params
  = (Ok (),
     foldl (λ m i, <[inr ((addr - 0x40300000) / 4 + i)
                     := PitayaCSR.set_byte val nr i]> m)
           params (range nr)).
Proof.
  unfold PitayaCSR.set_loop. generalize (range nr). intros l. revert params.
  induction l as [|i l IH]; intros params; [reflexivity|].
  cbn [for_ foldl]. unfold bind at 1.
  cbn [set_one PitayaTB.backend PitayaTB.set_one]. rewrite IH.
  replace ((addr + i * 4 - 0x40300000) / 4)
    with ((addr - 0x40300000) / 4 + i); [reflexivity|].
  replace (addr + i * 4 - 0x40300000) with (addr - 0x40300000 + i * 4)
    by lia.
  rewrite Z.div_add by lia. reflexivity.
Qed.

(** The writes of the simulated backend: [set] on [PitayaTB] from the
    empty dictionary, then the generator [writes] of [CsrParams] on the
    dictionary. *)
Lemma PitayaTB_set_writes (get_offset : list csr → string → option Z)
    (desc : list csr) (map : gmap string (Z * Z * bool)) (name : string)
    (addr nr value : Z) :
  map !! name = Some (addr, nr, true) → 0 <= nr <= 128 →
  - 2 ^ (nr * 8) <= 2 * value → value < 2 ^ (nr * 8) →
  ∃ params,
    PitayaCSR.set map name value (∅ : gmap key Z) = (Ok (), params) ∧
    CsrParams.writes get_offset desc params
    = ((λ i, TWrite ((addr - 0x40300000) / 4 + i)
                    (big_endian_byte (value mod 2 ^ (8 * nr)) nr i))
       <$> range nr, None).
Proof.
  intros Hm Hnr Hlo Hhi.
  rewrite (set_in_range map name addr nr) by assumption.
  rewrite PitayaTB_set_loop. eexists. split; [reflexivity|].
  unfold CsrParams.writes.
  rewrite (sorted_int_keys ((addr - 0x40300000) / 4)
             (λ i, PitayaCSR.set_byte (value mod 2 ^ (nr * 8)) nr i)).
  rewrite (writes_keys_int _ _ _ _
    (λ k, PitayaCSR.set_byte (value mod 2 ^ (nr * 8)) nr
            (k - (addr - 0x40300000) / 4))).
  - f_equal. rewrite <- list_fmap_compose. apply fmap_range_ext.
    intros i Hi. cbn.
    replace ((addr - 0x40300000) / 4 + i - (addr - 0x40300000) / 4)
      with i by lia.
    pose proof (set_byte_range (value mod 2 ^ (nr * 8)) nr i).
    rewrite Z.mod_small by lia. rewrite set_byte_big_endian by lia.
    replace (nr * 8) with (8 * nr) by lia. reflexivity.
  - intros k Hk. apply list_elem_of_fmap in Hk as (i & -> & Hi).
    replace ((addr - 0x40300000) / 4 + i - (addr - 0x40300000) / 4)
      with i by lia.
    apply (foldl_insert_lookup (λ i, inr ((addr - 0x40300000) / 4 + i))
             (λ i, PitayaCSR.set_byte (value mod 2 ^ (nr * 8)) nr i)).
    + intros i1 i2 Heq. inversion Heq. lia.
    + apply NoDup_seqZ.
    + exact Hi.
Qed.

(** C2 (as amended): for a writable register of [nr] bytes at address
    [addr] and a value that passes the range check, [set] makes exactly
    [nr] per-byte writes, at the addresses [addr], [addr + 4], ...,
    [addr + 4*(nr-1)], with the bytes of [value mod 2^(8*nr)], most
    significant byte first. On the simulated backend these become
    exactly [nr] write transactions of [CsrParams.writes], at the
    consecutive bus addresses from [(addr - 0x40300000)//4] on, in the
    same order. A named parameter of [CsrParams] of [n] bits gives
    [ceil(n/8)] write transactions at consecutive addresses from the
    offset of its register on, most significant byte first. *)
Theorem write_path (map : gmap string (Z * Z * bool)) (name : string)
    (addr nr value : Z) (d : RegFile.device)
    (get_offset : list csr → string → option Z) (desc : list csr) :
  map !! name = Some (addr, nr, true) → 1 <= nr <= 128 →
  - 2 ^ (8 * nr - 1) <= value < 2 ^ (8 * nr) →
  Z.of_nat (length (range nr)) = nr ∧
  (∃ d', PitayaCSR.set map name value d = (Ok (), d') ∧
         RegFile.received d'
         = RegFile.received d
           ++ ((λ i, (addr + 4 * i,
                      big_endian_byte (value mod 2 ^ (8 * nr)) nr i))
               <$> range nr)) ∧
  (∃ params,
     PitayaCSR.set map name value (∅ : gmap key Z) = (Ok (), params) ∧
     CsrParams.writes get_offset desc params
     = ((λ i, TWrite ((addr - 0x40300000) / 4 + i)
                     (big_endian_byte (value mod 2 ^ (8 * nr)) nr i))
        <$> range nr, None)) ∧
  (∀ k v a n,
     get_offset desc k = Some a →
     CsrParams.find_size desc (inl k) None = Some n →
     CsrParams.writes get_offset desc {[ inl k := v ]}
     = ((λ j, TWrite (a + j) (big_endian_byte v ((n + 8 - 1) / 8) j))
        <$> range ((n + 8 - 1) / 8), None)).
Proof.
  intros Hm Hnr Hv.
  pose proof (pow2_half nr ltac:(lia)) as Hhalf.
  replace (8 * nr - 1) with (nr * 8 - 1) in Hv by lia.
  replace (2 ^ (8 * nr)) with (2 ^ (nr * 8)) in Hv by (f_equal; lia).
  replace (8 * nr - 1) with (nr * 8 - 1) in Hhalf by lia.
  split; [apply length_range; lia|]. split; [|split].
  - apply (RegFile_set_received map name addr nr value d);
      [assumption|lia|lia|lia].
  - apply (PitayaTB_set_writes get_offset desc map name addr nr value);
      [assumption|lia|lia|lia].
  - intros k v a n. apply writes_named.
Qed.

Lemma write_path_witness :
  bank_map !! "sweep_step" = Some (0x40300000, 3, true) ∧ 1 <= 3 <= 128 ∧
  - 2 ^ (8 * 3 - 1) <= 0x123456 < 2 ^ (8 * 3) ∧
  ∃ d', PitayaCSR.set bank_map "sweep_step" 0x123456 RegFile.reset
        = (Ok (), d') ∧
        RegFile.received d'
        = RegFile.received RegFile.reset
          ++ ((λ i, (0x40300000 + 4 * i,
                     big_endian_byte (0x123456 mod 2 ^ (8 * 3)) 3 i))
              <$> range 3).
Proof.
  split; [reflexivity|]. split; [lia|].
  split; [vm_compute; intuition discriminate|].
  apply (write_path bank_map "sweep_step" 0x40300000 3 0x123456
           RegFile.reset bank_offset bank_desc eq_refl);
    [lia|vm_compute; intuition discriminate].
Defined.

(** C2, as stated, fails: the three bytes of a register at address
    [A = 0x40300000] are written at [A], [A + 4] and [A + 8], not at
    [A], [A + 1] and [A + 2]; on the simulated backend the three write
    transactions go to the bus addresses 0, 1 and 2. *)
Lemma set_stride_four :
  RegFile.received
    (snd (PitayaCSR.set bank_map "sweep_step" 0x123456 RegFile.reset))
  = [(0x40300000, 0x12); (0x40300004, 0x34); (0x40300008, 0x56)] ∧
  RegFile.received
    (snd (PitayaCSR.set bank_map "sweep_step" 0x123456 RegFile.reset))
  ≠ [(0x40300000, 0x12); (0x40300001, 0x34); (0x40300002, 0x56)] ∧
  fst (CsrParams.writes bank_offset bank_desc
         (snd (PitayaCSR.set bank_map "sweep_step" 0x123456
                 (∅ : gmap key Z))))
  = [TWrite 0 0x12; TWrite 1 0x34; TWrite 2 0x56].
Proof.
  split; [vm_compute; reflexivity|].
  split; [vm_compute; discriminate|vm_compute; reflexivity].
Qed.

(** A named parameter of the example bank: three writes from offset 1
    on, most significant byte first. *)
Example writes_sweep_step :
  CsrParams.writes bank_offset bank_desc {[ inl "sweep_step" := 0x123456 ]}
  = ([TWrite 1 0x12; TWrite 2 0x34; TWrite 3 0x56], None).
Proof. vm_compute. reflexivity. Qed.

(** ** [set_iir] *)

(** C10: when the shift register reads as 0, [set_iir] passes
    [shift = 16] to [get_params], and when the width register reads as
    0 it passes [width = 25]; the registers are then set from the
    parameters computed for these values, not for the values read. The
    simulated backend reads every register as 0. *)
Theorem set_iir_defaults {S} `{!Backend S} (map : gmap string (Z * Z * bool))
    {coeffs : Type}
    (get_params : coeffs → coeffs → Z → Z → coeffs * coeffs * gmap string Z)
    (prefix : string) (b a : coeffs) (s s1 s2 : S) (shift width : Z) :
  PitayaCSR.get map (prefix +:+ "_shift") s = (Ok shift, s1) →
  PitayaCSR.get map (prefix +:+ "_width") s1 = (Ok width, s2) →
  PitayaCSR.set_iir map get_params prefix b a s
  = PitayaCSR.set_params map prefix
      (get_params b a (if decide (shift = 0) then 16 else shift)
                      (if decide (width = 0) then 25 else width)).2 s2
  ∧ (shift = 0 → width = 0 →
     PitayaCSR.set_iir map get_params prefix b a s
     = PitayaCSR.set_params map prefix (get_params b a 16 25).2 s2).
Proof.
  intros Hshift Hwidth.
  assert (PitayaCSR.set_iir map get_params prefix b a s
          = PitayaCSR.set_params map prefix
              (get_params b a (if decide (shift = 0) then 16 else shift)
                 (if decide (width = 0) then 25 else width)).2 s2) as H.
  { unfold PitayaCSR.set_iir, mbind, M_bind.
    rewrite (bind_Ok _ _ _ _ _ Hshift), (bind_Ok _ _ _ _ _ Hwidth).
    unfold PitayaCSR.or_.
    destruct (get_params b a _ _) as [[b' a'] params]. reflexivity. }
  split; [exact H|]. intros -> ->. exact H.
Qed.

Lemma set_iir_defaults_witness :
  PitayaCSR.get iir_map ("iir_c" +:+ "_shift") (∅ : gmap key Z)
  = (Ok 0, ∅) ∧
  PitayaCSR.get iir_map ("iir_c" +:+ "_width") (∅ : gmap key Z)
  = (Ok 0, ∅) ∧
  PitayaCSR.set_iir iir_map echo_params "iir_c" () () (∅ : gmap key Z)
  = PitayaCSR.set_params iir_map "iir_c" (echo_params () () 16 25).2 ∅.
Proof.
  split; [reflexivity|]. split; [reflexivity|].
  apply (set_iir_defaults iir_map echo_params "iir_c" () ()
           (∅ : gmap key Z) ∅ ∅ 0 0); reflexivity.
Defined.

(** On the simulated backend the values passed are always the
    defaults: the stand-in for [get_params] sees 16 and 25, and they
    are what is written to [b0] and [a1]. *)
Example PitayaTB_set_iir :
  PitayaCSR.set_iir iir_map echo_params "iir_c" () () (∅ : gmap key Z)
  = (Ok (),
     {[ inr 14 := 0; inr 15 := 0; inr 16 := 0; inr 17 := 25;
        inr 10 := 0; inr 11 := 0; inr 12 := 0; inr 13 := 16 ]}).
Proof. vm_compute. reflexivity. Qed.

(** ** [CsrThread.gen] on the empty queue *)

Lemma gen_empty (g : CsrThread.thread) :
  CsrThread.queue g = [] → CsrThread.finished g = false →
  CsrThread.gen g
  = (CsrThread.Yield None,
     CsrThread.Thread [] (Nat.pred (CsrThread.sleeping g)) false
                      (CsrThread.events g)).
Proof.
  intros Hq Hf. unfold CsrThread.gen. rewrite Hf, Hq.
  destruct (CsrThread.sleeping g); reflexivity.
Qed.

(** One clock cycle on the empty queue. *)
Lemma cycle_empty (s : CsrThread.simulation) :
  CsrThread.running s = true →
  CsrThread.finished (CsrThread.generator s) = false →
  CsrThread.queue (CsrThread.generator s) = [] →
  let s' := CsrThread.cycle s in
  CsrThread.cycle_counter s' = CsrThread.cycle_counter s + 1 ∧
  CsrThread.running s' = true ∧
  CsrThread.finished (CsrThread.generator s') = false ∧
  CsrThread.queue (CsrThread.generator s') = [] ∧
  CsrThread.events (CsrThread.generator s')
  = CsrThread.events (CsrThread.generator s) ∧
  (CsrThread.on_bus s = None → CsrThread.on_bus s' = None) ∧
  (CsrThread.sleeping (CsrThread.generator s) = 0%nat →
   CsrThread.sleeping (CsrThread.generator s') = 0%nat).
Proof.
  intros Hrun Hfin Hq. unfold CsrThread.cycle. rewrite Hrun.
  unfold CsrThread.do_simulation.
  pose proof (gen_empty (CsrThread.generator s) Hq Hfin) as Hgen.
  destruct (CsrThread.on_bus s) as [[a v|a]|];
    [| destruct (CsrThread.read_data_ready s) |];
    try rewrite Hgen; cbn;
    repeat split; try assumption; try discriminate; try reflexivity;
    intros ->; reflexivity.
Qed.

(** Any number of clock cycles on the empty queue. *)
Lemma cycles_empty (s : CsrThread.simulation) (n : nat) :
  CsrThread.running s = true →
  CsrThread.finished (CsrThread.generator s) = false →
  CsrThread.queue (CsrThread.generator s) = [] →
  let s' := Nat.iter n CsrThread.cycle s in
  CsrThread.cycle_counter s' = CsrThread.cycle_counter s + Z.of_nat n ∧
  CsrThread.running s' = true ∧
  CsrThread.finished (CsrThread.generator s') = false ∧
  CsrThread.queue (CsrThread.generator s') = [] ∧
  CsrThread.events (CsrThread.generator s')
  = CsrThread.events (CsrThread.generator s) ∧
  (CsrThread.on_bus s = None → CsrThread.on_bus s' = None) ∧
  (CsrThread.sleeping (CsrThread.generator s) = 0%nat →
   CsrThread.sleeping (CsrThread.generator s') = 0%nat).
Proof.
  intros Hrun Hfin Hq. cbn zeta. induction n as [|n IH].
  - change (Nat.iter 0 CsrThread.cycle s) with s.
    split; [lia|]. auto 10.
  - destruct IH as (Hc & Hr & Hf & Hqn & Hev & Hbus & Hsl).
    rewrite Nat.iter_succ.
    destruct (cycle_empty (Nat.iter n CsrThread.cycle s) Hr Hf Hqn)
      as (Hc' & Hr' & Hf' & Hq' & Hev' & Hbus' & Hsl').
    split; [lia|]. split; [assumption|]. split; [assumption|].
    split; [assumption|]. split; [congruence|]. split; auto.
Qed.

(** A write that arrives while the loop idles is on the bus after the
    next clock cycle. *)
Lemma cycle_after_write (s : CsrThread.simulation) (addr value : Z)
    (ev : nat) :
  CsrThread.running s = true →
  CsrThread.finished (CsrThread.generator s) = false →
  CsrThread.queue (CsrThread.generator s) = [] →
  CsrThread.on_bus s = None →
  CsrThread.sleeping (CsrThread.generator s) = 0%nat →
  CsrThread.on_bus (CsrThread.cycle (caller_write addr value ev s))
  = Some (TWrite addr value) ∧
  CsrThread.cycle_counter (CsrThread.cycle (caller_write addr value ev s))
  = CsrThread.cycle_counter s + 1.
Proof.
  intros Hrun Hfin Hq Hbus Hsl.
  unfold caller_write, CsrThread.cycle. cbn [CsrThread.running].
  rewrite Hrun. unfold CsrThread.do_simulation.
  cbn [CsrThread.on_bus CsrThread.generator CsrThread.read_data_ready
       CsrThread.cycle_counter].
  rewrite Hbus. unfold CsrThread.gen, CsrThread.write, CsrThread.append.
  cbn [CsrThread.finished CsrThread.sleeping CsrThread.queue
       CsrThread.events].
  rewrite Hfin, Hsl, Hq. cbn. split; reflexivity.
Qed.

(** C8: with the queue empty the loop is neither ended nor failed.
    [next] on the generator yields [None], the step without a
    transaction, and leaves the queue empty and the generator alive; the
    simulation goes on, one clock cycle per step, for any number [n] of
    cycles; and once a caller has queued a write, the next cycle with
    the bus free puts it on the bus. *)
Theorem empty_queue_idles (s : CsrThread.simulation) (n : nat) :
  CsrThread.running s = true →
  CsrThread.finished (CsrThread.generator s) = false →
  CsrThread.queue (CsrThread.generator s) = [] →
  let s' := Nat.iter n CsrThread.cycle s in
  fst (CsrThread.gen (CsrThread.generator s)) = CsrThread.Yield None ∧
  CsrThread.cycle_counter s' = CsrThread.cycle_counter s + Z.of_nat n ∧
  CsrThread.running s' = true ∧
  CsrThread.finished (CsrThread.generator s') = false ∧
  CsrThread.queue (CsrThread.generator s') = [] ∧
  CsrThread.events (CsrThread.generator s')
  = CsrThread.events (CsrThread.generator s) ∧
  (CsrThread.on_bus s = None →
   CsrThread.sleeping (CsrThread.generator s) = 0%nat →
   CsrThread.on_bus s' = None ∧
   ∀ addr value ev,
     CsrThread.on_bus (CsrThread.cycle (caller_write addr value ev s'))
     = Some (TWrite addr value) ∧
     CsrThread.cycle_counter (CsrThread.cycle (caller_write addr value ev s'))
     = CsrThread.cycle_counter s + Z.of_nat n + 1).
Proof.
  intros Hrun Hfin Hq. cbn zeta.
  destruct (cycles_empty s n Hrun Hfin Hq)
    as (Hc & Hr & Hf & Hqn & Hev & Hbus & Hsl).
  split; [rewrite gen_empty by assumption; reflexivity|].
  repeat split; try assumption.
  - apply Hbus. assumption.
  - apply cycle_after_write; auto.
  - rewrite <- Hc. apply cycle_after_write; auto.
Qed.

Lemma empty_queue_idles_witness :
  CsrThread.running idle_simulation = true ∧
  CsrThread.finished (CsrThread.generator idle_simulation) = false ∧
  CsrThread.queue (CsrThread.generator idle_simulation) = [] ∧
  CsrThread.cycle_counter (Nat.iter 5 CsrThread.cycle idle_simulation)
  = CsrThread.cycle_counter idle_simulation + Z.of_nat 5 ∧
  CsrThread.running (Nat.iter 5 CsrThread.cycle idle_simulation) = true.
Proof.
  split; [reflexivity|]. split; [reflexivity|]. split; [reflexivity|].
  destruct (empty_queue_idles idle_simulation 5 eq_refl eq_refl eq_refl)
    as (_ & Hc & Hr & _).
  split; [exact Hc|exact Hr].
Defined.

(** The loop ends on the [None] that a caller queues, not on the empty
    queue. *)
Example gen_stops_on_None :
  fst (CsrThread.gen (CsrThread.Thread [CsrThread.QNone] 0 false []))
  = CsrThread.StopIteration ∧
  fst (CsrThread.gen (CsrThread.Thread [] 0 false []))
  = CsrThread.Yield None.
Proof. split; reflexivity. Qed.

(** ** The timed sampler *)

Section Filter_facts.
Context {D : Type}.
Variable dut_y : D → Z.
Variable dut_clock : Z → D → D.

#[local] Abbreviation do_simulation := (Filter.do_simulation dut_y).
#[local] Abbreviation run_simulation :=
  (Filter.run_simulation dut_y dut_clock).
#[local] Abbreviation at_cycle := (Filter.at_cycle dut_y dut_clock).
#[local] Abbreviation clock := (Filter.clock dut_clock).

Lemma cycle_counter_clocks (k : nat) (selfp : Filter.proxy) :
  Filter.cycle_counter (Nat.iter k clock selfp)
  = Filter.cycle_counter selfp + Z.of_nat k.
Proof.
  induction k as [|k IH].
  - change (Nat.iter 0 clock selfp) with selfp. lia.
  - rewrite Nat.iter_succ. cbn [Filter.clock Filter.cycle_counter].
    rewrite IH. lia.
Qed.

(** During the warmup nothing happens. *)
Lemma do_simulation_warmup self selfp :
  Filter.cycle_counter selfp - Filter.warmup self < 0 →
  do_simulation self selfp = (Filter.Return, self, selfp).
Proof.
  intros Hc. unfold Filter.do_simulation.
  destruct (Z.ltb_spec (Filter.cycle_counter selfp - Filter.warmup self) 0);
    [reflexivity|lia].
Qed.

Lemma run_simulation_warmup (k fuel : nat) self selfp :
  ((0 < k)%nat →
   Filter.cycle_counter selfp + Z.of_nat k <= Filter.warmup self) →
  run_simulation (k + fuel) self selfp
  = run_simulation fuel self (Nat.iter k clock selfp).
Proof.
  revert selfp. induction k as [|k IH]; intros selfp Hk.
  - reflexivity.
  - cbn [Nat.add Filter.run_simulation].
    rewrite do_simulation_warmup by lia.
    rewrite IH by (cbn [Filter.clock Filter.cycle_counter]; lia).
    rewrite Nat.iter_succ_r. reflexivity.
Qed.

(** With nothing to sample the first call past the warmup stops. *)
Lemma do_simulation_done self selfp :
  0 <= Filter.cycle_counter selfp - Filter.warmup self →
  length (Filter.y self) = length (Filter.x self) →
  do_simulation self selfp = (Filter.StopSimulation, self, selfp).
Proof.
  intros Hc Hlen. unfold Filter.do_simulation.
  destruct (Z.ltb_spec (Filter.cycle_counter selfp - Filter.warmup self) 0);
    [lia|].
  destruct (decide _); [reflexivity|contradiction].
Qed.

(** C7 (as amended): a run on the empty input sequence captures no
    output and stops at the first clock cycle whose effective cycle
    is not negative, which is cycle [max 0 warmup'] for the warmup
    [warmup' = warmup - warmup % interval]: it does not stop before
    (fuel for fewer calls runs out), and it stops at cycle 0 exactly
    when [warmup' <= 0]. *)
Theorem empty_input_stops (flen_x warmup latency interval : Z) (d : D) :
  interval ≠ 0 →
  ∃ self,
    Filter.init flen_x [] warmup latency interval = Some self ∧
    Filter.warmup self = warmup - warmup mod interval ∧
    let start := Z.max 0 (Filter.warmup self) in
    (∀ fuel, (fuel <= Z.to_nat start)%nat →
       run_simulation fuel self (Filter.Proxy 0 d 0) = None) ∧
    ∃ self' selfp',
      run_simulation (Datatypes.S (Z.to_nat start)) self
        (Filter.Proxy 0 d 0) = Some (self', selfp') ∧
      Filter.y self' = [] ∧
      Filter.cycle_counter selfp' = start ∧
      (Filter.cycle_counter selfp' = 0 ↔ Filter.warmup self <= 0).
Proof.
  intros Hi. unfold Filter.init.
  destruct (decide (interval = 0)); [contradiction|].
  eexists. split; [reflexivity|]. split; [reflexivity|].
  cbn [Filter.warmup]. set (w := warmup - warmup mod interval).
  set (self := Filter.State _ _ _ _ _ _ _ _).
  cbn zeta. split.
  - intros fuel Hfuel.
    replace fuel with (fuel + 0)%nat by lia.
    rewrite run_simulation_warmup; [reflexivity|].
    cbn [Filter.cycle_counter Filter.warmup self]. lia.
  - replace (Datatypes.S (Z.to_nat (Z.max 0 w)))
      with (Z.to_nat (Z.max 0 w) + 1)%nat by lia.
    rewrite run_simulation_warmup
      by (cbn [Filter.cycle_counter Filter.warmup self]; lia).
    cbn [Filter.run_simulation].
    rewrite do_simulation_done.
    + eexists _, _. split; [reflexivity|]. split; [reflexivity|].
      rewrite cycle_counter_clocks. cbn [Filter.cycle_counter].
      split; lia.
    + rewrite cycle_counter_clocks.
      cbn [Filter.cycle_counter Filter.warmup self]. lia.
    + reflexivity.
Qed.
(** A run whose first [m] calls return is, after them, the run from
    the state at cycle [m]. *)
Lemma run_simulation_steps (m fuel : nat) self selfp :
  (∀ c, (c < m)%nat →
     (let '(self', selfp') := at_cycle c self selfp in
      (do_simulation self' selfp').1.1) = Filter.Return) →
  run_simulation (m + fuel) self selfp
  = (let '(self', selfp') := at_cycle m self selfp in
     run_simulation fuel self' selfp').
Proof.
  revert fuel. induction m as [|m IH]; intros fuel Hret.
  - reflexivity.
  - replace (Datatypes.S m + fuel)%nat with (m + Datatypes.S fuel)%nat
      by lia.
    rewrite IH by (intros c Hc; apply Hret; lia).
    specialize (Hret m ltac:(lia)).
    cbn [Filter.at_cycle].
    destruct (at_cycle m self selfp) as [self' selfp'].
    cbn [Filter.run_simulation].
    destruct (do_simulation self' selfp') as [[o self''] selfp''].
    cbn in Hret. subst o. reflexivity.
Qed.
End Filter_facts.

Lemma empty_input_stops_witness :
  (1 : Z) ≠ 0 ∧
  ∃ self,
    Filter.init 14 [] 200 0 1 = Some self ∧
    Filter.warmup self = 200 - 200 mod 1 ∧
    ∃ self' selfp',
      Filter.run_simulation delay_y delay_clock
        (Datatypes.S (Z.to_nat (Z.max 0 (Filter.warmup self)))) self
        (Filter.Proxy 0 0 0) = Some (self', selfp') ∧
      Filter.y self' = [] ∧
      Filter.cycle_counter selfp' = Z.max 0 (Filter.warmup self).
Proof.
  split; [lia|].
  destruct (empty_input_stops delay_y delay_clock 14 200 0 1 0 ltac:(lia))
    as (self & Hinit & Hw & _ & self' & selfp' & Hrun & Hy & Hc & _).
  exists self. split; [exact Hinit|]. split; [exact Hw|].
  exists self', selfp'. auto.
Defined.

(** C7, as stated, fails: with the default warmup of 200 cycles a run
    on the empty input sequence does not stop at cycle 0 (one call is
    not enough); it stops at cycle 200. *)
Lemma empty_input_runs_through_warmup :
  Filter.init 14 [] 200 0 1 = Some (Filter.State 8191 [] [] [] [] 200 0 1) ∧
  Filter.run_simulation delay_y delay_clock 1
    (Filter.State 8191 [] [] [] [] 200 0 1) (Filter.Proxy 0 0 0) = None ∧
  Filter.run_simulation delay_y delay_clock 201
    (Filter.State 8191 [] [] [] [] 200 0 1) (Filter.Proxy 0 0 0)
  = Some (Filter.State 8191 [] [] [] [] 200 0 1, Filter.Proxy 200 0 0).
Proof. repeat split; vm_compute; reflexivity. Qed.

Section Filter_sampling.
Context {D : Type}.
Variable dut_y : D → Z.
Variable dut_clock : Z → D → D.

(** A filter without warmup that samples at every cycle, at the start
    of its run. *)
Variable scale L : Z.
Variable xs : list Z.
Variable d : D.
Hypothesis L_nonneg : 0 <= L.
Hypothesis xs_nonempty : xs ≠ [].

#[local] Abbreviation self0 := (Filter.State scale xs xs [] [] 0 L 1).
#[local] Abbreviation selfp0 := (Filter.Proxy 0 d 0).
#[local] Abbreviation n := (Z.of_nat (length xs)).
#[local] Abbreviation applied c := (Z.min c n).
#[local] Abbreviation captured c := (Z.max 0 (Z.min (c - 1 - L) n)).
#[local] Abbreviation due := (λ j : Z, j + 1 + L).
#[local] Abbreviation sample :=
  (λ j : Z, Filter.output_at dut_y dut_clock (Z.to_nat (j + 1 + L))
              self0 selfp0).

Lemma n_pos : 0 < n.
Proof using xs_nonempty. destruct xs; [contradiction|cbn; lia]. Qed.

(** The state at the start of cycle [c], up to the cycle after the
    last capture: [applied c] inputs have been driven,
    [captured c] outputs have been captured, each at the cycle at
    which it was due, and the others are pending. *)
Lemma sampler_state (c : nat) :
  Z.of_nat c <= n + L + 1 →
  ∃ dc xv,
    Filter.at_cycle dut_y dut_clock c self0 selfp0
    = (Filter.State scale xs
         (drop (Z.to_nat (applied (Z.of_nat c))) xs)
         (due <$> seqZ (captured (Z.of_nat c))
                       (applied (Z.of_nat c) - captured (Z.of_nat c)))
         (sample <$> seqZ 0 (captured (Z.of_nat c)))
         0 L 1,
       Filter.Proxy (Z.of_nat c) dc xv).
Proof using L_nonneg xs_nonempty.
  pose proof n_pos as Hn.
  induction c as [|c IH]; intros Hc.
  - exists d, 0. cbn [Filter.at_cycle].
    replace (applied (Z.of_nat 0)) with 0 by lia.
    replace (captured (Z.of_nat 0)) with 0 by lia.
    reflexivity.
  - destruct IH as (dc & xv & IH); [lia|].
    cbn [Filter.at_cycle]. rewrite IH.
    assert (Filter.output_at dut_y dut_clock c self0 selfp0 = dut_y dc)
      as Hout by (unfold Filter.output_at; rewrite IH; reflexivity).
    set (cz := Z.of_nat c) in *.
    assert (captured cz = Z.max 0 (cz - 1 - L)) as Hp by lia.
    assert (captured cz < n) as Hpn by lia.
    unfold Filter.do_simulation.
    cbn [Filter.cycle_counter Filter.warmup Filter.y Filter.x
         Filter.interval].
    destruct (Z.ltb_spec (cz - 0) 0) as [|_]; [lia|].
    rewrite length_fmap, length_seqZ.
    destruct (decide (Z.to_nat (captured cz) = length xs)) as [|_];
      [lia|].
    destruct (decide (1 = 0)) as [|_]; [lia|].
    (* the first block *)
    assert (∃ xv',
      Filter.apply_input (cz - 0)
        (Filter.State scale xs (drop (Z.to_nat (applied cz)) xs)
           (due <$> seqZ (captured cz) (applied cz - captured cz))
           (sample <$> seqZ 0 (captured cz)) 0 L 1)
        (Filter.Proxy cz dc xv)
      = (Filter.State scale xs (drop (Z.to_nat (applied (cz + 1))) xs)
           (due <$> seqZ (captured cz) (applied (cz + 1) - captured cz))
           (sample <$> seqZ 0 (captured cz)) 0 L 1,
         Filter.Proxy cz dc xv')) as [xv' Happly].
    { unfold Filter.apply_input. cbn [Filter.interval Filter.xgen].
      rewrite Z.mod_1_r. destruct (decide (0 = 0)) as [_|]; [|lia].
      destruct (Z.lt_ge_cases cz n) as [Hlt|Hge].
      - replace (applied cz) with cz by lia.
        replace (applied (cz + 1)) with (cz + 1) by lia.
        destruct (lookup_lt_is_Some_2 xs c) as [v Hv]; [lia|].
        replace (Z.to_nat cz) with c by lia.
        rewrite (drop_S _ _ _ Hv). exists v.
        cbn [Filter.scale Filter.x Filter.ygen Filter.y Filter.warmup
             Filter.latency Filter.interval Filter.cycle_counter
             Filter.dut].
        replace (Z.to_nat (cz + 1)) with (Datatypes.S c) by lia.
        replace (cz + 1 - captured cz) with (cz - captured cz + 1)
          by lia.
        rewrite seqZ_app by lia. rewrite fmap_app.
        change (seqZ (captured cz + (cz - captured cz)) 1)
          with [captured cz + (cz - captured cz)].
        cbn [fmap list_fmap].
        replace (captured cz + (cz - captured cz) + 1 + L)
          with (cz - 0 + 1 + L) by lia.
        reflexivity.
      - replace (applied cz) with n by lia.
        replace (applied (cz + 1)) with n by lia.
        rewrite Nat2Z.id, drop_all. exists xv. reflexivity. }
    rewrite Happly. clear Happly.
    exists (dut_clock xv' dc), xv'.
    cbn [Filter.clock Filter.cycle_counter Filter.dut Filter.dut_x].
    replace (Z.of_nat (Datatypes.S c)) with (cz + 1) by lia.
    f_equal.
    (* the second block *)
    unfold Filter.capture_output. cbn [Filter.ygen].
    destruct (Z.lt_ge_cases (cz - 1 - L) 0) as [Hearly|Hdue].
    + replace (captured cz) with 0 by lia.
      replace (captured (cz + 1)) with 0 by lia.
      destruct (seqZ 0 (applied (cz + 1) - 0)) as [|j l] eqn:E;
        [reflexivity|].
      assert (j = 0) as ->.
      { assert (seqZ 0 (applied (cz + 1) - 0) !! 0%nat = Some j) as Hj
          by (rewrite E; reflexivity).
        apply lookup_seqZ in Hj. lia. }
      cbn [fmap list_fmap].
      destruct (decide (cz - 0 = 0 + 1 + L)) as [|_]; [lia|].
      reflexivity.
    + replace (captured cz) with (cz - 1 - L) by lia.
      replace (captured (cz + 1)) with (cz - 1 - L + 1) by lia.
      rewrite (seqZ_cons (cz - 1 - L)) by lia. cbn [fmap list_fmap].
      destruct (decide (cz - 0 = cz - 1 - L + 1 + L)) as [_|]; [|lia].
      cbn [Filter.scale Filter.x Filter.xgen Filter.y Filter.warmup
           Filter.latency Filter.interval Filter.dut].
      f_equal.
      * f_equal. f_equal; lia.
      * rewrite (seqZ_app 0 (cz - 1 - L) 1) by lia.
        rewrite fmap_app. f_equal.
        change (seqZ (0 + (cz - 1 - L)) 1) with [0 + (cz - 1 - L)].
        cbn [fmap list_fmap].
        replace (Z.to_nat (0 + (cz - 1 - L) + 1 + L)) with c by lia.
        rewrite Hout. reflexivity.
Qed.
(** Until the last output is captured every call returns, and the
    call after it stops the simulation. *)
Lemma sampler_outcome (c : nat) :
  Z.of_nat c <= n + L + 1 →
  (let '(self, selfp) := Filter.at_cycle dut_y dut_clock c self0 selfp0 in
   (Filter.do_simulation dut_y self selfp).1.1)
  = if decide (Z.of_nat c = n + L + 1) then Filter.StopSimulation
    else Filter.Return.
Proof using L_nonneg xs_nonempty.
  intros Hc. pose proof n_pos as Hn.
  destruct (sampler_state c Hc) as (dc & xv & ->).
  unfold Filter.do_simulation.
  cbn [Filter.cycle_counter Filter.warmup Filter.y Filter.x
       Filter.interval].
  destruct (Z.ltb_spec (Z.of_nat c - 0) 0) as [|_]; [lia|].
  rewrite length_fmap, length_seqZ.
  destruct (decide (Z.of_nat c = n + L + 1)) as [Heq|Hne].
  - destruct (decide (Z.to_nat (captured (Z.of_nat c)) = length xs))
      as [_|]; [reflexivity|lia].
  - destruct (decide (Z.to_nat (captured (Z.of_nat c)) = length xs))
      as [|_]; [lia|].
    destruct (decide (1 = 0)) as [|_]; [lia|].
    destruct (Filter.apply_input _ _ _). reflexivity.
Qed.
(** The run ends at cycle [n + L + 1], with the [n] outputs sampled
    at the cycles [1 + L], ..., [n + L]. *)
Lemma sampler_run :
  ∃ self' selfp',
    Filter.run_simulation dut_y dut_clock
      (Z.to_nat (n + L + 1) + 1) self0 selfp0 = Some (self', selfp') ∧
    Filter.cycle_counter selfp' = n + L + 1 ∧
    Filter.x self' = xs ∧
    Filter.scale self' = scale ∧
    Filter.y self' = sample <$> seqZ 0 n.
Proof using L_nonneg xs_nonempty.
  pose proof n_pos as Hn.
  rewrite run_simulation_steps.
  - destruct (sampler_state (Z.to_nat (n + L + 1))) as (dc & xv & ->);
      [lia|].
    cbn [Filter.run_simulation].
    rewrite do_simulation_done.
    + eexists _, _. split; [reflexivity|].
      cbn [Filter.cycle_counter Filter.x Filter.y Filter.scale].
      split; [lia|]. split; [reflexivity|]. split; [reflexivity|].
      f_equal. f_equal. lia.
    + cbn [Filter.cycle_counter Filter.warmup]. lia.
    + cbn [Filter.y Filter.x]. rewrite length_fmap, length_seqZ. lia.
  - intros c Hc. rewrite sampler_outcome by lia.
    destruct (decide _); [lia|reflexivity].
Qed.

(** Output [k] is captured at cycle [k + 1 + L]: at the start of that
    cycle [k] outputs have been captured, at the start of the next
    one [k + 1]. *)
Lemma sampler_capture (k : Z) :
  0 <= k < n →
  length (Filter.y (Filter.at_cycle dut_y dut_clock
                      (Z.to_nat (k + 1 + L)) self0 selfp0).1)
  = Z.to_nat k ∧
  length (Filter.y (Filter.at_cycle dut_y dut_clock
                      (Datatypes.S (Z.to_nat (k + 1 + L))) self0 selfp0).1)
  = Datatypes.S (Z.to_nat k).
Proof using L_nonneg xs_nonempty.
  intros Hk. split.
  - destruct (sampler_state (Z.to_nat (k + 1 + L))) as (dc & xv & ->);
      [lia|].
    cbn [fst Filter.y]. rewrite length_fmap, length_seqZ. lia.
  - destruct (sampler_state (Datatypes.S (Z.to_nat (k + 1 + L))))
      as (dc & xv & ->); [lia|].
    cbn [fst Filter.y]. rewrite length_fmap, length_seqZ. lia.
Qed.
End Filter_sampling.

(** C6: a filter with [latency = L >= 0], [interval = 1], [warmup = 0]
    and three input samples runs to its end and captures exactly three
    outputs; output [k] is the output of the device at cycle
    [k + 1 + L], and it is at that cycle that the number of captured
    outputs goes from [k] to [k + 1]. In general, an input applied at
    the effective cycle [c] has [c + 1 + latency] appended to the due
    cycles. *)
Theorem latency_alignment {D : Type} (dut_y : D → Z)
    (dut_clock : Z → D → D) (flen_x L : Z) (i0 i1 i2 : Q) (d : D) :
  0 <= L →
  ∃ self,
    Filter.init flen_x [i0; i1; i2] 0 L 1 = Some self ∧
    (∃ self' selfp',
       Filter.run_simulation dut_y dut_clock (Z.to_nat (L + 5)) self
         (Filter.Proxy 0 d 0) = Some (self', selfp') ∧
       length (Filter.y self') = 3%nat ∧
       Filter.y self'
       = (λ k, Filter.output_at dut_y dut_clock (Z.to_nat (k + 1 + L)) self
                 (Filter.Proxy 0 d 0)) <$> [0; 1; 2]) ∧
    (∀ k, 0 <= k < 3 →
       length (Filter.y (Filter.at_cycle dut_y dut_clock
                           (Z.to_nat (k + 1 + L)) self
                           (Filter.Proxy 0 d 0)).1) = Z.to_nat k ∧
       length (Filter.y (Filter.at_cycle dut_y dut_clock
                           (Datatypes.S (Z.to_nat (k + 1 + L))) self
                           (Filter.Proxy 0 d 0)).1)
       = Datatypes.S (Z.to_nat k)) ∧
    (∀ (st : Filter.state) (selfp : Filter.proxy (D := D)) c v rest,
       c mod Filter.interval st = 0 → Filter.xgen st = v :: rest →
       Filter.ygen (Filter.apply_input c st selfp).1
       = Filter.ygen st ++ [c + 1 + Filter.latency st] ∧
       Filter.dut_x (Filter.apply_input c st selfp).2 = v).
Proof.
  intros HL. unfold Filter.init.
  destruct (decide (1 = 0)) as [|_]; [lia|].
  change (0 - 0 mod 1) with 0.
  set (scale := 2 ^ (flen_x - 1) - 1).
  set (xs := (λ v, Filter.astype_int
                     (Float64.mul (Float64.of_int scale) (Float64.round v)))
             <$> [i0; i1; i2]).
  assert (xs ≠ []) as Hxs by discriminate.
  eexists. split; [reflexivity|]. split; [|split].
  - destruct (sampler_run dut_y dut_clock scale L xs d HL Hxs)
      as (self' & selfp' & Hrun & _ & _ & _ & Hy).
    exists self', selfp'.
    replace (Z.to_nat (L + 5))
      with (Z.to_nat (Z.of_nat (length xs) + L + 1) + 1)%nat
      by (cbn [length xs fmap list_fmap]; lia).
    split; [exact Hrun|]. rewrite Hy. split; reflexivity.
  - intros k Hk.
    apply (sampler_capture dut_y dut_clock scale L xs d HL Hxs).
    cbn [length xs fmap list_fmap]. lia.
  - intros st selfp c v rest Hc Hx. unfold Filter.apply_input.
    rewrite Hx. destruct (decide (c mod Filter.interval st = 0));
      [split; reflexivity|contradiction].
Qed.

Lemma latency_alignment_witness :
  0 <= 2 ∧
  ∃ self,
    Filter.init 14 [1 # 2; -1 # 4; 1 # 8]%Q 0 2 1 = Some self ∧
    ∃ self' selfp',
      Filter.run_simulation delay_y delay_clock (Z.to_nat (2 + 5)) self
        (Filter.Proxy 0 0 0) = Some (self', selfp') ∧
      length (Filter.y self') = 3%nat ∧
      Filter.y self'
      = (λ k, Filter.output_at delay_y delay_clock (Z.to_nat (k + 1 + 2))
                self (Filter.Proxy 0 0 0)) <$> [0; 1; 2].
Proof.
  split; [lia|].
  destruct (latency_alignment delay_y delay_clock 14 2
              (1 # 2) (-1 # 4) (1 # 8) 0 ltac:(lia))
    as (self & Hinit & Hrun & _).
  exists self. split; [exact Hinit|exact Hrun].
Defined.

(** A run, computed: with the latency 0 of the delay register the
    three samples come back as they were sent, captured at the cycles
    1, 2 and 3, and the simulation stops at cycle 4. *)
Example delay_run :
  Filter.run_simulation delay_y delay_clock 5
    (Filter.State 8191 [4095; -2047; 1023] [4095; -2047; 1023] [] []
                  0 0 1)
    (Filter.Proxy 0 0 0)
  = Some (Filter.State 8191 [4095; -2047; 1023] [] []
                       [4095; -2047; 1023] 0 0 1,
          Filter.Proxy 4 1023 1023).
Proof. vm_compute. reflexivity. Qed.

(** ** Rounding into [float64] *)

Section Float64_facts.
Import Float64.
Local Open Scope Q_scope.

Lemma pow2_pos (e : Z) : 0 < pow2 e.
Proof. apply Qpower_0_lt. reflexivity. Qed.

Lemma pow2_add (a b : Z) : pow2 (a + b) == pow2 a * pow2 b.
Proof. apply Qpower_plus. discriminate. Qed.

Lemma pow2_Z (e : Z) : (0 <= e)%Z → pow2 e == inject_Z (2 ^ e).
Proof. intros He. unfold pow2. rewrite Zpower_Qpower by exact He. reflexivity. Qed.

Lemma pow2_le (a b : Z) : (a <= b)%Z → pow2 a <= pow2 b.
Proof. intros H. apply Qpower_le_compat_l; [exact H|]. discriminate. Qed.

Lemma inject_Z_le (a b : Z) : (a <= b)%Z → inject_Z a <= inject_Z b.
Proof. intros H. rewrite <- Zle_Qle. exact H. Qed.

Lemma inject_Z_lt (a b : Z) : (a < b)%Z → inject_Z a < inject_Z b.
Proof. intros H. rewrite <- Zlt_Qlt. exact H. Qed.

(** [ilog2 q] is not above the logarithm of [q]. *)
Lemma ilog2_le (q : Q) : 0 < q → pow2 (ilog2 q) <= q.
Proof.
  intros Hq. unfold ilog2.
  destruct (Qle_bool _ q) eqn:E; [apply Qle_bool_iff, E|].
  destruct q as [n d]. cbn [Qnum Qden].
  assert (0 < n)%Z as Hn by (unfold Qlt in Hq; cbn in Hq; lia).
  pose proof (Z.log2_spec n Hn) as [Hn1 _].
  pose proof (Z.log2_spec (Z.pos d) ltac:(lia)) as [_ Hd2].
  pose proof (Z.log2_nonneg n). pose proof (Z.log2_nonneg (Z.pos d)).
  set (a := Z.log2 n) in *. set (b := Z.log2 (Z.pos d)) in *.
  assert (pow2 (a - b - 1) * inject_Z (2 ^ (b + 1)) == inject_Z (2 ^ a))
    as Hprod.
  { rewrite <- !pow2_Z by lia. rewrite <- pow2_add.
    replace (a - b - 1 + (b + 1))%Z with a by lia. reflexivity. }
  assert (n # d == inject_Z n / inject_Z (Z.pos d)) as -> by apply Qmake_Qdiv.
  apply Qle_shift_div_l; [reflexivity|].
  apply Qle_trans with (inject_Z (2 ^ a)); [|apply inject_Z_le, Hn1].
  rewrite <- Hprod. apply Qmult_le_l; [apply pow2_pos|].
  apply inject_Z_le. unfold Z.succ in Hd2. lia.
Qed.

(** [round_half_even] stays on the side of an integer bound. *)
Lemma round_half_even_le (x : Q) (H : Z) :
  x <= inject_Z H → (round_half_even x <= H)%Z.
Proof.
  intros Hx. unfold round_half_even.
  pose proof (Qfloor_le x) as Hf.
  assert (Qfloor x <= H)%Z as HfH.
  { rewrite <- (Qfloor_Z H). apply Qfloor_resp_le, Hx. }
  destruct (Z.eq_dec (Qfloor x) H) as [Heq|Hne].
  - assert (x - inject_Z (Qfloor x) < 1 # 2) as Hlt
      by (rewrite Heq in *; lra).
    destruct (Qcompare_spec (x - inject_Z (Qfloor x)) (1 # 2));
      [lra|lia|lra].
  - destruct (_ ?= _); [destruct (Z.even _)| |]; lia.
Qed.

Lemma round_half_even_ge (x : Q) (H : Z) :
  inject_Z H <= x → (H <= round_half_even x)%Z.
Proof.
  intros Hx. unfold round_half_even.
  assert (H <= Qfloor x)%Z as HfH.
  { rewrite <- (Qfloor_Z H). apply Qfloor_resp_le, Hx. }
  destruct (_ ?= _); [destruct (Z.even _)| |]; lia.
Qed.

(** A binary64 number [m * 2^eb] is a multiple of [2^e], the unit of
    [q], or it is below the binade of [q]. *)
Lemma unit_divides (q : Q) (m eb : Z) :
  ~ q == 0 → (Z.abs m < 2 ^ 53)%Z → (-1074 <= eb)%Z →
  let e := Z.max (ilog2 (Qabs q) - 52) (-1074) in
  (∃ H : Z, inject_Z m * pow2 eb == inject_Z H * pow2 e) ∨
  (Qabs (inject_Z m * pow2 eb) < pow2 (52 + e) ∧ pow2 (52 + e) <= Qabs q).
Proof.
  intros Hq Hm Heb e.
  destruct (Z_le_gt_dec e eb) as [Hle|Hgt].
  - left. exists (m * 2 ^ (eb - e))%Z.
    rewrite inject_Z_mult, <- pow2_Z by lia.
    rewrite <- Qmult_assoc, <- pow2_add.
    replace (eb - e + e)%Z with eb by lia. reflexivity.
  - right.
    assert (e = ilog2 (Qabs q) - 52)%Z as He by lia.
    split.
    + rewrite Qabs_Qmult, (Qabs_pos (pow2 eb))
        by apply Qlt_le_weak, pow2_pos.
      apply Qlt_le_trans with (inject_Z (2 ^ 53) * pow2 eb).
      * apply Qmult_lt_r; [apply pow2_pos|].
        assert (Qabs (inject_Z m) == inject_Z (Z.abs m)) as ->
          by (unfold Qabs, inject_Z; reflexivity).
        apply inject_Z_lt, Hm.
      * rewrite <- pow2_Z, <- pow2_add by lia. apply pow2_le. lia.
    + replace (52 + e)%Z with (ilog2 (Qabs q)) by lia.
      apply ilog2_le.
      pose proof (Qabs_nonneg q) as Hnn.
      apply Qle_lteq in Hnn as [Hlt|Heq]; [exact Hlt|].
      exfalso. apply Hq. symmetry in Heq.
      pose proof (Qabs_Qle_condition q 0) as [Hc _].
      destruct (Hc ltac:(rewrite Heq; apply Qle_refl)) as [H1 H2].
      lra.
Qed.
(** One side of [round_between]: the rounded value, before the test
    for overflow, is not beyond a binary64 number that [q] is not
    beyond. *)
Lemma round_upper (q : Q) (m eb : Z) :
  ~ q == 0 → (Z.abs m < 2 ^ 53)%Z → (-1074 <= eb)%Z →
  q <= inject_Z m * pow2 eb →
  let e := Z.max (ilog2 (Qabs q) - 52) (-1074) in
  inject_Z (round_half_even (q / pow2 e)) * pow2 e <= inject_Z m * pow2 eb.
Proof.
  intros Hq Hm Heb Hle e.
  pose proof (pow2_pos e) as He.
  destruct (unit_divides q m eb Hq Hm Heb) as [[H HH]|[Hsmall Hbig]];
    fold e in HH || fold e in Hsmall, Hbig.
  - rewrite HH in *.
    apply Qmult_le_compat_r; [|apply Qlt_le_weak, He].
    apply inject_Z_le, round_half_even_le.
    apply Qle_shift_div_r; [exact He|exact Hle].
  - set (B := inject_Z m * pow2 eb) in *.
    assert (pow2 (52 + e) == inject_Z (2 ^ 52) * pow2 e) as HP
      by (rewrite pow2_add, pow2_Z by lia; reflexivity).
    apply Qabs_Qlt_condition in Hsmall as [HB1 HB2].
    assert (q <= - pow2 (52 + e)) as Hneg.
    { destruct (Qlt_le_dec q 0) as [Hlt|Hge].
      - rewrite (Qabs_neg q) in Hbig by lra. lra.
      - rewrite (Qabs_pos q) in Hbig by lra. lra. }
    apply Qle_trans with (inject_Z (- 2 ^ 52) * pow2 e).
    + apply Qmult_le_compat_r; [|apply Qlt_le_weak, He].
      apply inject_Z_le, round_half_even_le.
      apply Qle_shift_div_r; [exact He|].
      rewrite inject_Z_opp. lra.
    + rewrite inject_Z_opp. lra.
Qed.

Lemma round_lower (q : Q) (m eb : Z) :
  ~ q == 0 → (Z.abs m < 2 ^ 53)%Z → (-1074 <= eb)%Z →
  inject_Z m * pow2 eb <= q →
  let e := Z.max (ilog2 (Qabs q) - 52) (-1074) in
  inject_Z m * pow2 eb <= inject_Z (round_half_even (q / pow2 e)) * pow2 e.
Proof.
  intros Hq Hm Heb Hle e.
  pose proof (pow2_pos e) as He.
  destruct (unit_divides q m eb Hq Hm Heb) as [[H HH]|[Hsmall Hbig]];
    fold e in HH || fold e in Hsmall, Hbig.
  - rewrite HH in *.
    apply Qmult_le_compat_r; [|apply Qlt_le_weak, He].
    apply inject_Z_le, round_half_even_ge.
    apply Qle_shift_div_l; [exact He|exact Hle].
  - set (B := inject_Z m * pow2 eb) in *.
    assert (pow2 (52 + e) == inject_Z (2 ^ 52) * pow2 e) as HP
      by (rewrite pow2_add, pow2_Z by lia; reflexivity).
    apply Qabs_Qlt_condition in Hsmall as [HB1 HB2].
    assert (pow2 (52 + e) <= q) as Hpos.
    { destruct (Qlt_le_dec q 0) as [Hlt|Hge].
      - rewrite (Qabs_neg q) in Hbig by lra. lra.
      - rewrite (Qabs_pos q) in Hbig by lra. lra. }
    apply Qle_trans with (inject_Z (2 ^ 52) * pow2 e).
    + lra.
    + apply Qmult_le_compat_r; [|apply Qlt_le_weak, He].
      apply inject_Z_le, round_half_even_ge.
      apply Qle_shift_div_l; [exact He|]. lra.
Qed.

(** A binary64 number is below [2^1024]. *)
Lemma binary64_bound (m eb : Z) :
  (Z.abs m < 2 ^ 53)%Z → (eb <= 971)%Z →
  - pow2 1024 < inject_Z m * pow2 eb < pow2 1024.
Proof.
  intros Hm Heb. apply Qabs_Qlt_condition.
  rewrite Qabs_Qmult, (Qabs_pos (pow2 eb)) by apply Qlt_le_weak, pow2_pos.
  assert (Qabs (inject_Z m) == inject_Z (Z.abs m)) as ->
    by (unfold Qabs, inject_Z; reflexivity).
  apply Qlt_le_trans with (inject_Z (2 ^ 53) * pow2 eb).
  - apply Qmult_lt_r; [apply pow2_pos|]. apply inject_Z_lt, Hm.
  - rewrite <- pow2_Z, <- pow2_add by lia. apply pow2_le. lia.
Qed.

(** Rounding is monotone at the binary64 numbers: what lies between
    two of them is rounded to a finite number between them. *)
Lemma round_between (q : Q) (ml el mh eh : Z) :
  (Z.abs ml < 2 ^ 53)%Z → (-1074 <= el <= 971)%Z →
  (Z.abs mh < 2 ^ 53)%Z → (-1074 <= eh <= 971)%Z →
  inject_Z ml * pow2 el <= q → q <= inject_Z mh * pow2 eh →
  ∃ r, round q = Finite r ∧
       inject_Z ml * pow2 el <= r ∧ r <= inject_Z mh * pow2 eh.
Proof.
  intros Hml Hel Hmh Heh Hlo Hhi. unfold round.
  destruct (Qeq_bool q 0) eqn:E0.
  - apply Qeq_bool_eq in E0. exists 0. split; [reflexivity|]. lra.
  - apply Qeq_bool_neq in E0.
    pose proof (round_upper q mh eh E0 Hmh ltac:(lia) Hhi) as Hu.
    pose proof (round_lower q ml el E0 Hml ltac:(lia) Hlo) as Hl.
    cbn zeta in Hu, Hl.
    set (r := inject_Z (round_half_even _) * pow2 _) in *.
    pose proof (binary64_bound ml el Hml ltac:(lia)) as [Hb1 _].
    pose proof (binary64_bound mh eh Hmh ltac:(lia)) as [_ Hb2].
    destruct (Qle_bool (pow2 1024) (Qabs r)) eqn:Eo.
    + exfalso. apply Qle_bool_iff in Eo.
      assert (Qabs r < pow2 1024) by (apply Qabs_Qlt_condition; lra).
      lra.
    + exists (Qred r). split; [reflexivity|].
      rewrite Qred_correct. auto.
Qed.

(** An integer of at most 53 bits is converted as it is. *)
Lemma of_int_exact (z : Z) :
  (Z.abs z < 2 ^ 53)%Z → ∃ r, of_int z = Finite r ∧ r == inject_Z z.
Proof.
  intros Hz.
  destruct (round_between (inject_Z z) z 0 z 0) as (r & Hr & H1 & H2);
    try lia.
  - change (pow2 0) with 1. lra.
  - change (pow2 0) with 1. lra.
  - exists r. split; [exact Hr|]. change (pow2 0) with 1 in *. lra.
Qed.

(** What is in [[-1, 1]] is rounded into [[-1, 1]]. *)
Lemma round_unit (q : Q) :
  -1 <= q <= 1 → ∃ r, round q = Finite r ∧ -1 <= r <= 1.
Proof.
  intros [H1 H2].
  destruct (round_between q (-1) 0 1 0) as (r & Hr & Hr1 & Hr2); try lia.
  - change (inject_Z (-1) * pow2 0) with (-1 * 1). lra.
  - change (inject_Z 1 * pow2 0) with (1 * 1). lra.
  - exists r. split; [exact Hr|].
    change (inject_Z (-1) * pow2 0) with (-1 * 1) in Hr1.
    change (inject_Z 1 * pow2 0) with (1 * 1) in Hr2. lra.
Qed.
End Float64_facts.

(** ** The scale of the samples *)

Section Filter_scaling.
Import Float64.
Local Open Scope Q_scope.

(** A sample in [[-1, 1]], multiplied by the scale [s] and cast, is
    within the scale. *)
Lemma scaled_sample_bound (s : Z) (v : Q) :
  (0 <= s < 2 ^ 53)%Z → -1 <= v <= 1 →
  (- s <= Filter.astype_int (mul (of_int s) (round v)) <= s)%Z.
Proof.
  intros Hs [Hv1 Hv2].
  destruct (round_unit v) as (rv & -> & Hrv1 & Hrv2); [lra|].
  destruct (of_int_exact s) as (rs & -> & Hrs); [lia|].
  cbn [mul].
  assert (0 <= inject_Z s) as Hs0 by (apply (inject_Z_le 0); lia).
  destruct (round_between (rs * rv) (- s) 0 s 0) as (p & -> & Hp1 & Hp2);
    try lia.
  - change (pow2 0) with 1. rewrite inject_Z_opp, Hrs. nra.
  - change (pow2 0) with 1. rewrite Hrs. nra.
  - change (pow2 0) with 1 in *. unfold Filter.astype_int.
    destruct p as [a b]. unfold Qle in Hp1, Hp2. cbn in Hp1, Hp2.
    cbn [Qnum Qden].
    assert (- s <= a ÷ Z.pos b <= s)%Z as Ht.
    { split.
      - apply Z.le_trans with ((- s * Z.pos b) ÷ Z.pos b)%Z;
          [rewrite Z.quot_mul by lia; lia|apply Z.quot_le_mono; lia].
      - apply Z.le_trans with ((s * Z.pos b) ÷ Z.pos b)%Z;
          [apply Z.quot_le_mono; lia|rewrite Z.quot_mul by lia; lia]. }
    destruct (decide _) as [_|Hout]; [exact Ht|].
    exfalso. apply Hout. lia.
Qed.

(** A raw value within the scale [s], divided by it, is in
    [[-1, 1]]. *)
Lemma normalized_bound (s k : Z) :
  (1 <= s < 2 ^ 53)%Z → (- s <= k <= s)%Z →
  ∃ r, div (of_int k) (of_int s) = Finite r ∧ -1 <= r <= 1.
Proof.
  intros Hs Hk.
  destruct (of_int_exact k) as (rk & -> & Hrk); [lia|].
  destruct (of_int_exact s) as (rs & -> & Hrs); [lia|].
  assert (1 <= inject_Z s) as Hs1 by (apply (inject_Z_le 1); lia).
  assert (- inject_Z s <= inject_Z k <= inject_Z s) as [Hk1 Hk2].
  { rewrite <- inject_Z_opp. split; apply inject_Z_le; lia. }
  cbn [div]. unfold is_zero.
  destruct (Qeq_bool rs 0) eqn:E; [apply Qeq_bool_eq in E; lra|].
  destruct (round_unit (rk / rs)) as (r & -> & Hr1 & Hr2).
  - split; [apply Qle_shift_div_l|apply Qle_shift_div_r]; lra.
  - exists r. split; [reflexivity|lra].
Qed.

(** The raw value [-(s + 1)], divided by the scale [s], is below -1:
    the quotient is not nearer to -1 than to the next number of
    binary64. *)
Lemma normalized_lowest (s : Z) :
  (1 <= s < 2 ^ 52)%Z →
  ∃ r, div (of_int (- (s + 1))) (of_int s) = Finite r ∧ r < -1.
Proof.
  intros Hs.
  destruct (of_int_exact (- (s + 1))) as (rk & -> & Hrk); [lia|].
  destruct (of_int_exact s) as (rs & -> & Hrs); [lia|].
  assert (1 <= inject_Z s) as Hs1 by (apply (inject_Z_le 1); lia).
  assert (inject_Z s <= inject_Z (2 ^ 52)) as Hs2
    by (apply inject_Z_le; lia).
  rewrite inject_Z_opp, inject_Z_plus in Hrk.
  change (inject_Z 1) with 1 in Hrk.
  cbn [div]. unfold is_zero.
  destruct (Qeq_bool rs 0) eqn:E; [apply Qeq_bool_eq in E; lra|].
  assert (pow2 (-52) * inject_Z (2 ^ 52) == 1) as Hu by reflexivity.
  assert (0 < pow2 (-52)) as Hu0 by apply pow2_pos.
  assert (pow2 (-52) * inject_Z s <= 1) as Hps
    by (rewrite <- Hu; apply Qmult_le_l; assumption).
  assert (pow2 (-52) * inject_Z (2 ^ 52) * inject_Z s == inject_Z s)
    as Hus by (rewrite Hu; ring).
  destruct (round_between (rk / rs) (-2) 0 (- (2 ^ 52 + 1)) (-52))
    as (r & -> & Hr1 & Hr2); try lia.
  - change (inject_Z (-2) * pow2 0) with (-2 * 1).
    apply Qle_shift_div_l; lra.
  - apply Qle_shift_div_r; [lra|].
    rewrite inject_Z_opp, inject_Z_plus. rewrite Hrk, Hrs.
    change (inject_Z 1) with 1. lra.
  - exists r. split; [reflexivity|].
    rewrite inject_Z_opp, inject_Z_plus in Hr2.
    change (inject_Z 1) with 1 in Hr2. lra.
Qed.

(** Nothing divided by the scale 0 is a finite number. *)
Lemma normalized_by_zero (k : Z) (q : Q) :
  div (of_int k) (of_int 0) ≠ Finite q.
Proof.
  change (of_int 0) with (Finite 0).
  destruct (of_int k) as [rk|s|]; cbn [div]; [|discriminate..].
  change (is_zero 0) with true. cbn match.
  destruct (is_zero rk); discriminate.
Qed.
End Filter_scaling.
Section Filter_scale.
Context {D : Type}.
Variable dut_y : D → Z.
Variable dut_clock : Z → D → D.

(** A call of [do_simulation] changes neither [scale] nor [x], and
    what it appends to [y] is an output of the device. *)
Lemma do_simulation_preserves (P : Z → Prop) self selfp :
  (∀ d, P (dut_y d)) →
  Filter.scale (Filter.do_simulation dut_y self selfp).1.2
  = Filter.scale self ∧
  Filter.x (Filter.do_simulation dut_y self selfp).1.2 = Filter.x self ∧
  (Forall P (Filter.y self) →
   Forall P (Filter.y (Filter.do_simulation dut_y self selfp).1.2)).
Proof.
  intros HP. unfold Filter.do_simulation.
  destruct (_ <? 0); [auto|].
  destruct (decide _); [auto|]. destruct (decide _); [auto|].
  unfold Filter.apply_input, Filter.capture_output.
  destruct (decide _); [destruct (Filter.xgen self)|];
    cbn [fst snd Filter.ygen];
    repeat match goal with
      | |- context [match ?l with [] => _ | _ :: _ => _ end] =>
          destruct l
      | |- context [decide ?p] => destruct (decide p)
      end;
    cbn [fst snd Filter.scale Filter.x Filter.y Filter.dut];
    repeat split; auto;
    intros Hy; apply Forall_app; split; auto.
Qed.

Lemma run_simulation_preserves (P : Z → Prop) fuel self selfp
    self' selfp' :
  (∀ d, P (dut_y d)) →
  Filter.run_simulation dut_y dut_clock fuel self selfp
  = Some (self', selfp') →
  Filter.scale self' = Filter.scale self ∧
  Filter.x self' = Filter.x self ∧
  (Forall P (Filter.y self) → Forall P (Filter.y self')).
Proof.
  intros HP. revert self selfp.
  induction fuel as [|fuel IH]; intros self selfp Hrun; [discriminate|].
  cbn [Filter.run_simulation] in Hrun.
  pose proof (do_simulation_preserves P self selfp HP)
    as (Hs & Hx & Hy).
  destruct (Filter.do_simulation dut_y self selfp)
    as [[o self1] selfp1].
  cbn [fst snd] in Hs, Hx, Hy. destruct o.
  - apply IH in Hrun as (Hs' & Hx' & Hy').
    rewrite Hs', Hx', Hs, Hx. auto.
  - inversion Hrun; subst. auto.
  - discriminate.
Qed.

Lemma run_simulation_ncycles_preserves (P : Z → Prop) n self selfp
    self' selfp' :
  (∀ d, P (dut_y d)) →
  Filter.run_simulation_ncycles dut_y dut_clock n self selfp
  = Some (self', selfp') →
  Filter.scale self' = Filter.scale self ∧
  Filter.x self' = Filter.x self ∧
  (Forall P (Filter.y self) → Forall P (Filter.y self')).
Proof.
  intros HP. revert self selfp.
  induction n as [|n IH]; intros self selfp Hrun.
  { inversion Hrun; subst. auto. }
  cbn [Filter.run_simulation_ncycles] in Hrun.
  pose proof (do_simulation_preserves P self selfp HP)
    as (Hs & Hx & Hy).
  destruct (Filter.do_simulation dut_y self selfp)
    as [[o self1] selfp1].
  cbn [fst snd] in Hs, Hx, Hy. destruct o.
  - apply IH in Hrun as (Hs' & Hx' & Hy').
    rewrite Hs', Hx', Hs, Hx. auto.
  - inversion Hrun; subst. auto.
  - discriminate.
Qed.

(** What [run] returns: the series [x] and the outputs captured, both
    divided by the scale. *)
Lemma run_returns ncycles fuel self (d : D) xs ys :
  Filter.run dut_y dut_clock ncycles fuel self d = Some (xs, ys) →
  ∃ self',
    xs = Filter.normalize (Filter.scale self) (Filter.x self) ∧
    ys = Filter.normalize (Filter.scale self) (Filter.y self') ∧
    ∀ P : Z → Prop, (∀ d', P (dut_y d')) →
      Forall P (Filter.y self) → Forall P (Filter.y self').
Proof.
  unfold Filter.run. intros Hrun.
  destruct ncycles as [n|].
  - destruct (Filter.run_simulation_ncycles _ _ _ _ _)
      as [[self' selfp']|] eqn:Hsim; [|discriminate].
    inversion Hrun as [[Hxs Hys]]. exists self'.
    destruct (run_simulation_ncycles_preserves (λ _, True) _ _ _ _ _
                (λ _, I) Hsim) as (-> & -> & _).
    split; [reflexivity|]. split; [reflexivity|]. intros P HP.
    apply (run_simulation_ncycles_preserves P _ _ _ _ _ HP Hsim).
  - destruct (Filter.run_simulation _ _ _ _ _)
      as [[self' selfp']|] eqn:Hsim; [|discriminate].
    inversion Hrun as [[Hxs Hys]]. exists self'.
    destruct (run_simulation_preserves (λ _, True) _ _ _ _ _
                (λ _, I) Hsim) as (-> & -> & _).
    split; [reflexivity|]. split; [reflexivity|]. intros P HP.
    apply (run_simulation_preserves P _ _ _ _ _ HP Hsim).
Qed.
End Filter_scale.

(** C9 (as amended), for a device whose input signal is 1 to 64 bits
    wide and whose outputs are integers of 64 bits: the scale is
    [2^(w-1) - 1] for the bit width [w] of the input signal [x] of the
    device (not of its output); the samples are multiplied by it in
    [float64] and cast to integers before they are driven, and both
    returned series are the raw series divided by it in [float64],
    whether the run has stopped by itself or was bounded by
    [ncycles]. For [2 <= w <= 53]: the returned inputs are in
    [[-1, 1]] when the samples are; the returned outputs are in
    [[-1, 1]] when the raw outputs are within the scale; for a signed
    output of [w] bits they are at most 1 and at least the quotient of
    [-2^(w-1)] by the scale, which is below -1 and is what the most
    negative output gives. For [w = 1] the scale is 0 and no returned
    value is a finite number. *)
Theorem run_normalized {D : Type} (dut_y : D → Z) (dut_clock : Z → D → D)
    (flen_x : Z) (samples : list Q) (warmup latency interval : Z)
    (ncycles : option nat) (fuel : nat) (d : D) (self : Filter.state)
    (xs ys : list Float64.float64) :
  1 <= flen_x <= 64 →
  (∀ d', - 2 ^ 63 <= dut_y d' < 2 ^ 64) →
  Filter.init flen_x samples warmup latency interval = Some self →
  Filter.run dut_y dut_clock ncycles fuel self d = Some (xs, ys) →
  let scale := 2 ^ (flen_x - 1) - 1 in
  Filter.scale self = scale ∧
  Filter.x self
  = (λ v, Filter.astype_int
            (Float64.mul (Float64.of_int scale) (Float64.round v)))
    <$> samples ∧
  Filter.xgen self = Filter.x self ∧
  xs = Filter.normalize scale (Filter.x self) ∧
  (∃ raw, ys = Filter.normalize scale raw ∧
          Forall (λ v, ∃ d', v = dut_y d') raw) ∧
  (2 <= flen_x <= 53 →
   (Forall (λ v, -1 <= v <= 1)%Q samples →
    Forall (λ f, ∃ q, f = Float64.Finite q ∧ (-1 <= q <= 1)%Q) xs) ∧
   ((∀ d', - scale <= dut_y d' <= scale) →
    Forall (λ f, ∃ q, f = Float64.Finite q ∧ (-1 <= q <= 1)%Q) ys) ∧
   ((∀ d', - 2 ^ (flen_x - 1) <= dut_y d' < 2 ^ (flen_x - 1)) →
    ∃ lowest,
      Float64.div (Float64.of_int (- 2 ^ (flen_x - 1)))
                  (Float64.of_int scale)
      = Float64.Finite lowest ∧
      (lowest < -1)%Q ∧
      Forall (λ f, ∃ q, f = Float64.Finite q ∧ (lowest <= q <= 1)%Q) ys)) ∧
  (flen_x = 1 → Forall (λ f, ∀ q, f ≠ Float64.Finite q) (xs ++ ys)).
Proof.
  intros _ _ Hinit Hrun. cbn zeta.
  set (scale := 2 ^ (flen_x - 1) - 1) in *.
  unfold Filter.init in Hinit. fold scale in Hinit.
  destruct (decide (interval = 0)); [discriminate|].
  injection Hinit as Hself.
  destruct (run_returns dut_y dut_clock _ _ _ _ _ _ Hrun)
    as (self' & Hxs & Hys & Hraw).
  assert (∀ P : Z → Prop, (∀ d', P (dut_y d')) → Forall P (Filter.y self'))
    as Hout.
  { intros P HP. apply (Hraw P HP). subst self. constructor. }
  clear Hraw Hrun. subst self. cbn [Filter.scale Filter.x Filter.xgen] in *.
  split; [reflexivity|]. split; [reflexivity|]. split; [reflexivity|].
  split; [exact Hxs|].
  split; [exists (Filter.y self'); split; [exact Hys|apply Hout; eauto]|].
  split.
  - intros Hw.
    assert (2 ^ 1 <= 2 ^ (flen_x - 1) <= 2 ^ 52) as [Hp1 Hp2]
      by (split; apply Z.pow_le_mono_r; lia).
    change (2 ^ 1) with 2 in Hp1.
    assert (1 <= scale < 2 ^ 52) as Hscale by (unfold scale; lia).
    split; [|split].
    + intros Hsamples. subst xs. unfold Filter.normalize.
      rewrite <- list_fmap_compose. apply Forall_fmap.
      eapply Forall_impl; [exact Hsamples|]. intros v Hv. cbn.
      apply normalized_bound; [lia|].
      apply scaled_sample_bound; [lia|exact Hv].
    + intros Hdut. subst ys. unfold Filter.normalize. apply Forall_fmap.
      eapply Forall_impl;
        [apply (Hout (λ v, - scale <= v <= scale) Hdut)|].
      intros v Hv. cbn. apply normalized_bound; [lia|exact Hv].
    + intros Hdut.
      destruct (normalized_lowest scale Hscale) as (lowest & Hl & Hlt).
      replace (- (scale + 1)) with (- 2 ^ (flen_x - 1)) in Hl
        by (unfold scale; lia).
      exists lowest. split; [exact Hl|]. split; [exact Hlt|].
      subst ys. unfold Filter.normalize. apply Forall_fmap.
      eapply Forall_impl;
        [apply (Hout (λ v, - 2 ^ (flen_x - 1) <= v < 2 ^ (flen_x - 1))
                  Hdut)|].
      intros v Hv. cbn beta in Hv. cbn.
      destruct (decide (v = - 2 ^ (flen_x - 1))) as [->|Hne].
      * exists lowest. split; [exact Hl|]. split; [apply Qle_refl|].
        apply Qlt_le_weak, Qlt_trans with (-1)%Q; [exact Hlt|reflexivity].
      * destruct (normalized_bound scale v ltac:(lia)
                    ltac:(unfold scale; lia)) as (q & Hq & Hq1 & Hq2).
        exists q. split; [exact Hq|]. split; [|exact Hq2].
        apply Qlt_le_weak, Qlt_le_trans with (-1)%Q; assumption.
  - intros ->. subst xs ys. unfold scale. change (2 ^ (1 - 1) - 1) with 0.
    unfold Filter.normalize. apply Forall_app. split;
      apply Forall_fmap, Forall_forall; intros k _ q;
      apply normalized_by_zero.
Qed.

Lemma run_normalized_witness :
  1 <= 14 <= 64 ∧
  (∀ d', - 2 ^ 63 <= stuck_y d' < 2 ^ 64) ∧
  Filter.init 14 [1 # 2; -1 # 4; 1 # 8]%Q 0 0 1
  = Some (Filter.State 8191 [4095; -2047; 1023] [4095; -2047; 1023]
                       [] [] 0 0 1) ∧
  Filter.run stuck_y stuck_clock None 5
    (Filter.State 8191 [4095; -2047; 1023] [4095; -2047; 1023] [] []
                  0 0 1) ()
  = Some (Filter.normalize 8191 [4095; -2047; 1023],
          Filter.normalize 8191 [-128; -128; -128]) ∧
  2 <= 14 <= 53 ∧
  Forall (λ v, -1 <= v <= 1)%Q [1 # 2; -1 # 4; 1 # 8]%Q ∧
  Forall (λ f, ∃ q, f = Float64.Finite q ∧ (-1 <= q <= 1)%Q)
         (Filter.normalize 8191 [4095; -2047; 1023]) ∧
  (∀ d', - 8191 <= stuck_y d' <= 8191) ∧
  Forall (λ f, ∃ q, f = Float64.Finite q ∧ (-1 <= q <= 1)%Q)
         (Filter.normalize 8191 [-128; -128; -128]).
Proof.
  assert (1 <= 14 <= 64) as Hd by lia.
  assert (∀ d', - 2 ^ 63 <= stuck_y d' < 2 ^ 64) as Ho
    by (intros d'; unfold stuck_y; lia).
  assert (Filter.init 14 [1 # 2; -1 # 4; 1 # 8]%Q 0 0 1
          = Some (Filter.State 8191 [4095; -2047; 1023]
                    [4095; -2047; 1023] [] [] 0 0 1)) as Hi
    by (vm_compute; reflexivity).
  assert (Filter.run stuck_y stuck_clock None 5
            (Filter.State 8191 [4095; -2047; 1023] [4095; -2047; 1023]
               [] [] 0 0 1) ()
          = Some (Filter.normalize 8191 [4095; -2047; 1023],
                  Filter.normalize 8191 [-128; -128; -128])) as Hr
    by (vm_compute; reflexivity).
  assert (2 <= 14 <= 53) as Hw by lia.
  assert (Forall (λ v, -1 <= v <= 1)%Q [1 # 2; -1 # 4; 1 # 8]%Q) as Hs
    by (repeat constructor; unfold Qle; cbn; lia).
  assert (∀ d', - 8191 <= stuck_y d' <= 8191) as Hy
    by (intros d'; unfold stuck_y; lia).
  split; [exact Hd|]. split; [exact Ho|].
  split; [exact Hi|]. split; [exact Hr|]. split; [exact Hw|].
  split; [exact Hs|].
  pose proof (run_normalized stuck_y stuck_clock 14
                [1 # 2; -1 # 4; 1 # 8]%Q 0 0 1 None 5 () _ _ _ Hd Ho
                Hi Hr)
    as (_ & _ & _ & _ & _ & Hrange & _).
  destruct (Hrange Hw) as (Hx & Hys & _).
  split; [exact (Hx Hs)|]. split; [exact Hy|exact (Hys Hy)].
Defined.

(** The product is rounded before it is cast: the number nearest to
    1/8191, times 8191, is 1 in [float64], and an input of 1 is
    driven, where the exact product is below 1. *)
Example init_rounds_product :
  Filter.init 14 [1 # 8191]%Q 0 0 1
  = Some (Filter.State 8191 [1] [1] [] [] 0 0 1).
Proof. vm_compute. reflexivity. Qed.

(** C9, as stated, fails: a device of eight bits whose output is at its
    most negative value, -128, has the scale 127, and the returned
    output, the number of [float64] nearest to [-128/127], is below
    -1. *)
Lemma output_below_minus_one :
  Filter.init 8 [0%Q] 0 0 1
  = Some (Filter.State 127 [0] [0] [] [] 0 0 1) ∧
  Filter.run stuck_y stuck_clock None 3
    (Filter.State 127 [0] [0] [] [] 0 0 1) ()
  = Some (Filter.normalize 127 [0], Filter.normalize 127 [-128]) ∧
  Filter.normalize 127 [-128]
  = [Float64.Finite (-567382630219905 # 562949953421312)] ∧
  (-567382630219905 # 562949953421312 < -1)%Q.
Proof. repeat split; vm_compute; reflexivity. Qed.

(** * Further properties of the code *)

(** ** More on [PitayaCSR.set] and [PitayaCSR.get] *)

(** A [set] that returns has passed every check and run its loop. *)
Lemma set_Ok_inv {S} `{!Backend S} (map : gmap string (Z * Z * bool))
    (name : string) (value : Z) (s s' : S) :
  PitayaCSR.set map name value s = (Ok (), s') →
  ∃ addr nr,
    map !! name = Some (addr, nr, true) ∧ 0 <= nr <= 128 ∧
    - 2 ^ (nr * 8) <= 2 * value ∧ value < 2 ^ (nr * 8) ∧
    PitayaCSR.set_loop addr nr (value mod 2 ^ (nr * 8)) s = (Ok (), s').
Proof.
  intros Hset. destruct (map !! name) as [[[addr nr] [|]]|] eqn:Hm.
  - exists addr, nr.
    destruct (Z.lt_ge_cases nr 0) as [Hneg|Hnr].
    { rewrite (set_negative_width map name addr nr) in Hset by assumption.
      discriminate. }
    destruct (Z.lt_ge_cases 128 nr) as [Hbig|Hsmall].
    { rewrite (set_overflow map name addr nr) in Hset by assumption.
      discriminate. }
    destruct (decide (- 2 ^ (nr * 8) <= 2 * value ∧ value < 2 ^ (nr * 8)))
      as [[Hlo Hhi]|Hout].
    + rewrite (set_in_range map name addr nr) in Hset
        by (try assumption; lia).
      repeat split; try assumption; lia.
    + rewrite (set_out_of_range map name addr nr) in Hset
        by (try assumption; lia).
      discriminate.
  - rewrite (set_read_only map name addr nr) in Hset by assumption.
    discriminate.
  - rewrite set_unknown in Hset by assumption. discriminate.
Qed.

(** What the register file holds after inserting along a list. *)
Lemma foldl_insert_lookup_cases `{Countable K} (f : Z → K) (g : Z → Z)
    (l : list Z) (m : gmap K Z) k :
  (∀ i i', f i = f i' → i = i') → NoDup l →
  foldl (λ m i, <[f i := g i]> m) m l !! k
  = match list_find (λ i, f i = k) l with
    | Some (_, i) => Some (g i)
    | None => m !! k
    end.
Proof.
  intros Hinj Hnd. destruct (list_find _ l) as [[n i]|] eqn:E.
  - apply list_find_Some in E as (Hl & <- & _).
    apply foldl_insert_lookup; [assumption..|].
    eapply list_elem_of_lookup_2, Hl.
  - apply list_find_None in E. apply foldl_insert_other.
    intros i Hi. rewrite Forall_forall in E. apply E, Hi.
Qed.

Lemma range_hyp nr value :
  1 <= nr → - 2 ^ (8 * nr - 1) <= value < 2 ^ (8 * nr) →
  - 2 ^ (nr * 8) <= 2 * value ∧ value < 2 ^ (nr * 8).
Proof.
  intros Hnr Hv. pose proof (pow2_half nr Hnr) as Hhalf.
  replace (8 * nr) with (nr * 8) in * by lia.
  assert (0 < 2 ^ (nr * 8 - 1)) by (apply Z.pow_pos_nonneg; lia). lia.
Qed.

(** X1: the last write wins: after two writes of a register, [get] returns
    the second value (unsigned), and the register file is the one that
    the second write alone would have left: nothing of the first write
    remains. *)
Theorem set_overwrites (map : gmap string (Z * Z * bool)) (name : string)
    (addr nr v1 v2 : Z) (d : RegFile.device) :
  map !! name = Some (addr, nr, true) → 1 <= nr <= 128 →
  - 2 ^ (8 * nr - 1) <= v1 < 2 ^ (8 * nr) →
  - 2 ^ (8 * nr - 1) <= v2 < 2 ^ (8 * nr) →
  ∃ d1 d2 d2',
    PitayaCSR.set map name v1 d = (Ok (), d1) ∧
    PitayaCSR.set map name v2 d1 = (Ok (), d2) ∧
    PitayaCSR.set map name v2 d = (Ok (), d2') ∧
    PitayaCSR.get map name d2 = (Ok (v2 mod 2 ^ (8 * nr)), d2) ∧
    RegFile.regs d2 = RegFile.regs d2'.
Proof.
  intros Hm Hnr Hv1 Hv2.
  destruct (range_hyp nr v1 ltac:(lia) Hv1) as [Hlo1 Hhi1].
  destruct (range_hyp nr v2 ltac:(lia) Hv2) as [Hlo2 Hhi2].
  replace (8 * nr) with (nr * 8) by lia.
  assert (∀ v d0, - 2 ^ (nr * 8) <= 2 * v → v < 2 ^ (nr * 8) →
            PitayaCSR.set map name v d0
            = PitayaCSR.set_loop addr nr (v mod 2 ^ (nr * 8)) d0) as Hset.
  { intros v d0 Hlo Hhi. apply set_in_range; try assumption; lia. }
  pose (bytes v := λ i, PitayaCSR.set_byte (v mod 2 ^ (nr * 8)) nr i).
  pose (wrote v (d0 : RegFile.device) :=
          RegFile.Device
            (foldl (λ m i, <[addr + i * 4 := bytes v i]> m)
                   (RegFile.regs d0) (range nr))
            (RegFile.received d0
             ++ ((λ i, (addr + i * 4, bytes v i)) <$> range nr))).
  assert (∀ v d0, - 2 ^ (nr * 8) <= 2 * v → v < 2 ^ (nr * 8) →
            PitayaCSR.set map name v d0 = (Ok (), wrote v d0)) as Hwrote.
  { intros v d0 Hlo Hhi. rewrite Hset by assumption.
    apply RegFile_set_loop. }
  exists (wrote v1 d), (wrote v2 (wrote v1 d)), (wrote v2 d).
  split; [apply Hwrote; assumption|].
  split; [apply Hwrote; assumption|].
  split; [apply Hwrote; assumption|]. split.
  - apply (RegFile_get_after_set map name addr nr true
             (v2 mod 2 ^ (nr * 8)) (wrote v1 d)).
    + assumption.
    + lia.
    + apply Z.mod_pos_bound. apply Z.pow_pos_nonneg; lia.
    + apply RegFile_set_loop.
  - cbn [RegFile.regs wrote]. apply map_eq. intros k.
    rewrite !(foldl_insert_lookup_cases (λ i, addr + i * 4))
      by (first [apply NoDup_seqZ | intros i1 i2; lia]).
    destruct (list_find _ (range nr)) as [[n0 i]|] eqn:E; reflexivity.
Qed.

Lemma set_overwrites_witness :
  gain_map !! "gain" = Some (0x100, 2, true) ∧ 1 <= 2 <= 128 ∧
  - 2 ^ (8 * 2 - 1) <= 0x1234 < 2 ^ (8 * 2) ∧
  - 2 ^ (8 * 2 - 1) <= -2 < 2 ^ (8 * 2) ∧
  ∃ d1 d2 d2',
    PitayaCSR.set gain_map "gain" 0x1234 RegFile.reset = (Ok (), d1) ∧
    PitayaCSR.set gain_map "gain" (-2) d1 = (Ok (), d2) ∧
    PitayaCSR.set gain_map "gain" (-2) RegFile.reset = (Ok (), d2') ∧
    PitayaCSR.get gain_map "gain" d2 = (Ok (-2 mod 2 ^ (8 * 2)), d2) ∧
    RegFile.regs d2 = RegFile.regs d2'.
Proof.
  split; [reflexivity|]. split; [lia|].
  split; [vm_compute; intuition discriminate|].
  split; [vm_compute; intuition discriminate|].
  apply (set_overwrites gain_map "gain" 0x100 2 0x1234 (-2) RegFile.reset
           eq_refl); [lia|vm_compute; intuition discriminate..].
Defined.

(** What [get] returns on the register file: the bytes at the addresses
    of the register, composed most significant byte first. *)
Lemma RegFile_get (map : gmap string (Z * Z * bool)) (name : string)
    (addr nr : Z) (wr : bool) (d : RegFile.device) :
  map !! name = Some (addr, nr, wr) →
  PitayaCSR.get map name d
  = (Ok (foldl (λ v i, Z.lor v (Z.shiftl
                                  (default 0 (RegFile.regs d !! (addr + i * 4)))
                                  (8 * (nr - i - 1))))
               0 (range nr)), d).
Proof.
  intros Hm. unfold PitayaCSR.get, mbind, M_bind, bind at 1.
  unfold PitayaCSR.map_getitem. rewrite Hm. cbn.
  apply (RegFile_fold (λ v i b, Z.lor v (Z.shiftl b (8 * (nr - i - 1))))
           (λ i, addr + i * 4)).
Qed.

(** X2: a write leaves the other registers alone: when no byte of the
    register written shares its address with a byte of another
    register, [get] of the other register returns what it returned
    before. *)
Theorem set_frame (map : gmap string (Z * Z * bool)) (name name' : string)
    (addr nr addr' nr' : Z) (wr' : bool) (value : Z)
    (d d' : RegFile.device) :
  map !! name = Some (addr, nr, true) →
  map !! name' = Some (addr', nr', wr') →
  (∀ i j, 0 <= i < nr → 0 <= j < nr' → addr + i * 4 ≠ addr' + j * 4) →
  PitayaCSR.set map name value d = (Ok (), d') →
  (PitayaCSR.get map name' d').1 = (PitayaCSR.get map name' d).1.
Proof.
  intros Hm Hm' Hdisj Hset.
  apply set_Ok_inv in Hset
    as (addr0 & nr0 & Hm0 & Hnr & Hlo & Hhi & Hloop).
  rewrite Hm in Hm0. inversion Hm0; subst addr0 nr0. clear Hm0.
  rewrite RegFile_set_loop in Hloop. inversion Hloop as [Hd']. clear Hloop.
  rewrite !(RegFile_get map name' addr' nr' wr') by assumption.
  cbn [fst RegFile.regs]. f_equal. apply foldl_ext_in. intros v j Hj.
  apply elem_of_range in Hj.
  rewrite foldl_insert_other; [reflexivity|].
  intros i Hi. apply elem_of_range in Hi. apply Hdisj; assumption.
Qed.

Lemma set_frame_witness :
  bank_map !! "sweep_step" = Some (0x40300000, 3, true) ∧
  bank_map !! "tap" = Some (0x40300010, 1, true) ∧
  (∀ i j, 0 <= i < 3 → 0 <= j < 1 →
     0x40300000 + i * 4 ≠ 0x40300010 + j * 4) ∧
  ∃ d d',
    PitayaCSR.set bank_map "sweep_step" 0x123456 d = (Ok (), d') ∧
    (PitayaCSR.get bank_map "tap" d').1 = Ok 0x7f ∧
    (PitayaCSR.get bank_map "tap" d').1 = (PitayaCSR.get bank_map "tap" d).1.
Proof.
  split; [reflexivity|]. split; [reflexivity|]. split; [lia|].
  exists (PitayaCSR.set bank_map "tap" 0x7f RegFile.reset).2.
  exists (PitayaCSR.set bank_map "sweep_step" 0x123456
            (PitayaCSR.set bank_map "tap" 0x7f RegFile.reset).2).2.
  split; [vm_compute; reflexivity|]. split; [vm_compute; reflexivity|].
  apply (set_frame bank_map "sweep_step" "tap" 0x40300000 3 0x40300010 1
           true 0x123456 _ _ eq_refl eq_refl);
    [lia|vm_compute; reflexivity].
Defined.

Example hex08_base : hex08 0x40300004 = "0x40300004". Proof. reflexivity. Qed.
Example hex02_b : hex02 0x5 = "0x05". Proof. reflexivity. Qed.
Example hex02_ff : hex02 255 = "0xff". Proof. reflexivity. Qed.
Example hex02_0 : hex02 0 = "0x00". Proof. reflexivity. Qed.
Example hex08_neg : hex08 (-1) = "0x-0000001". Proof. reflexivity. Qed.
Example hex08_big : hex08 0x123456789 = "0x123456789". Proof. reflexivity. Qed.

(** ** [set] over a backend that can fail, and over [PitayaReal] *)

(** X3: a per-byte write that fails ends the [set]: the exception is
    passed on, the bytes before it have been written, those after it
    are not. A [set] is atomic for its own checks only. *)
Theorem set_aborts_at_failed_byte {S} `{!Backend S}
    (map : gmap string (Z * Z * bool)) (name : string)
    (addr nr value j : Z) (s s1 s2 : S) (e : exn) :
  map !! name = Some (addr, nr, true) → 1 <= nr <= 128 →
  - 2 ^ (8 * nr - 1) <= value < 2 ^ (8 * nr) →
  0 <= j < nr →
  for_ (range j)
       (λ i, set_one (addr + i * 4)
               (PitayaCSR.set_byte (value mod 2 ^ (nr * 8)) nr i)) s
  = (Ok (), s1) →
  set_one (addr + j * 4)
          (PitayaCSR.set_byte (value mod 2 ^ (nr * 8)) nr j) s1
  = (Raise e, s2) →
  PitayaCSR.set map name value s = (Raise e, s2).
Proof.
  intros Hm Hnr Hv Hj Hfirst Hfail.
  destruct (range_hyp nr value ltac:(lia) Hv) as [Hlo Hhi].
  rewrite (set_in_range map name addr nr) by (try assumption; lia).
  unfold PitayaCSR.set_loop.
  replace nr with (j + (1 + (nr - j - 1))) at 1 by lia.
  unfold range in *. rewrite seqZ_app by lia. rewrite for_app.
  rewrite (bind_Ok _ _ _ _ _ Hfirst).
  rewrite seqZ_app by lia. rewrite for_app.
  apply bind_Raise. change (seqZ (0 + j) 1) with [0 + j].
  cbn [for_]. apply bind_Raise. exact Hfail.
Qed.

Lemma set_aborts_at_failed_byte_witness :
  bank_map !! "sweep_step" = Some (0x40300000, 3, true) ∧
  1 <= 3 <= 128 ∧ - 2 ^ (8 * 3 - 1) <= 0x123456 < 2 ^ (8 * 3) ∧
  0 <= 1 < 3 ∧
  @PitayaCSR.set _ (PitayaReal.backend flaky_popen hex08 hex02 (λ _, None))
    bank_map "sweep_step" 0x123456 []
  = (Raise (ValueError
              (CmdFailed ["/opt/bin/monitor"; "0x40300004"; "0x34"]
                         EmptyString "bus error")),
     [["/opt/bin/monitor"; "0x40300000"; "0x12"];
      ["/opt/bin/monitor"; "0x40300004"; "0x34"]]).
Proof.
  split; [reflexivity|]. split; [lia|].
  split; [vm_compute; intuition discriminate|]. split; [lia|].
  apply (@set_aborts_at_failed_byte _
           (PitayaReal.backend flaky_popen hex08 hex02 (λ _, None))
           bank_map "sweep_step" 0x40300000 3 0x123456 1 []
           [["/opt/bin/monitor"; "0x40300000"; "0x12"]]);
    [reflexivity|lia|vm_compute; intuition discriminate|lia
    |reflexivity|reflexivity].
Defined.

(** X4: what [PitayaReal] sends for a [set] when the remote side never
    answers with diagnostic output: one monitor command per byte, with
    the address of the byte and the byte, in the order of the bytes;
    the remote side has then seen these commands and no other. *)
Theorem PitayaReal_set_commands {R : Type}
    (popen : list string → R → string * string * R)
    (hex08 hex02 : Z → string) (int16 : string → option Z)
    (map : gmap string (Z * Z * bool)) (name : string)
    (addr nr value : Z) (r : R) :
  (∀ c r0, (popen c r0).1.2 = EmptyString) →
  map !! name = Some (addr, nr, true) → 1 <= nr <= 128 →
  - 2 ^ (8 * nr - 1) <= value < 2 ^ (8 * nr) →
  @PitayaCSR.set _ (PitayaReal.backend popen hex08 hex02 int16)
    map name value r
  = (Ok (),
     foldl (λ r0 c, (popen c r0).2) r
       ((λ i, [PitayaReal.mon; hex08 (addr + 4 * i);
               hex02 (big_endian_byte (value mod 2 ^ (8 * nr)) nr i)])
        <$> range nr)).
Proof.
  intros Hquiet Hm Hnr Hv.
  destruct (range_hyp nr value ltac:(lia) Hv) as [Hlo Hhi].
  rewrite (set_in_range map name addr nr) by (try assumption; lia).
  unfold PitayaCSR.set_loop.
  assert (∀ (l : list Z) r0,
    (∀ i, i ∈ l → 0 <= i < nr) →
    for_ l (λ i, @set_one _ (PitayaReal.backend popen hex08 hex02 int16)
                   (addr + i * 4)
                   (PitayaCSR.set_byte (value mod 2 ^ (nr * 8)) nr i)) r0
    = (Ok (),
       foldl (λ r0 c, (popen c r0).2) r0
         ((λ i, [PitayaReal.mon; hex08 (addr + 4 * i);
                 hex02 (big_endian_byte (value mod 2 ^ (8 * nr)) nr i)])
          <$> l))) as Hfor.
  { intros l. induction l as [|i l IH]; intros r0 Hl; [reflexivity|].
    cbn [for_ fmap list_fmap foldl]. unfold bind at 1.
    cbn [set_one PitayaReal.backend].
    unfold PitayaReal.set_one, mbind, M_bind, bind, PitayaReal.cmd.
    specialize (Hquiet [PitayaReal.mon; hex08 (addr + i * 4);
                        hex02 (PitayaCSR.set_byte
                                 (value mod 2 ^ (nr * 8)) nr i)] r0).
    destruct (popen _ r0) as [[o err] r1] eqn:E. cbn in Hquiet. subst err.
    destruct (decide (EmptyString = EmptyString)) as [_|]; [|contradiction].
    cbn [mret M_ret ret].
    rewrite IH by (intros k Hk; apply Hl; right; exact Hk).
    rewrite set_byte_big_endian in E by (apply Hl; left).
    replace (i * 4) with (4 * i) in E by lia.
    replace (nr * 8) with (8 * nr) in E by lia. rewrite E. reflexivity. }
  apply Hfor. intros i Hi. apply elem_of_range in Hi. lia.
Qed.

Lemma PitayaReal_set_commands_witness :
  (∀ c r0, (quiet_popen c r0).1.2 = EmptyString) ∧
  bank_map !! "sweep_step" = Some (0x40300000, 3, true) ∧
  1 <= 3 <= 128 ∧ - 2 ^ (8 * 3 - 1) <= 0x123456 < 2 ^ (8 * 3) ∧
  @PitayaCSR.set _ (PitayaReal.backend quiet_popen hex08 hex02 (λ _, None))
    bank_map "sweep_step" 0x123456 []
  = (Ok (),
     foldl (λ r0 c, (quiet_popen c r0).2) []
       ((λ i, [PitayaReal.mon; hex08 (0x40300000 + 4 * i);
               hex02 (big_endian_byte (0x123456 mod 2 ^ (8 * 3)) 3 i)])
        <$> range 3)).
Proof.
  split; [reflexivity|]. split; [reflexivity|]. split; [lia|].
  split; [vm_compute; intuition discriminate|].
  apply (PitayaReal_set_commands quiet_popen hex08 hex02 (λ _, None)
           bank_map "sweep_step" 0x40300000 3 0x123456 []);
    [reflexivity|reflexivity|lia|vm_compute; intuition discriminate].
Defined.

(** The commands of the example, as the remote side sees them. *)
Example PitayaReal_set_sweep_step :
  @PitayaCSR.set _ (PitayaReal.backend quiet_popen hex08 hex02 (λ _, None))
    bank_map "sweep_step" 0x123456 []
  = (Ok (), [["/opt/bin/monitor"; "0x40300000"; "0x12"];
             ["/opt/bin/monitor"; "0x40300004"; "0x34"];
             ["/opt/bin/monitor"; "0x40300008"; "0x56"]]).
Proof. vm_compute. reflexivity. Qed.

(** ** The value that [get] returns *)

Lemma lor_bound a b n :
  0 <= n → 0 <= a < 2 ^ n → 0 <= b < 2 ^ n → 0 <= Z.lor a b < 2 ^ n.
Proof.
  intros Hn Ha Hb. split; [apply Z.lor_nonneg; lia|].
  rewrite <- (Z.mod_small a (2 ^ n)), <- (Z.mod_small b (2 ^ n)) by lia.
  rewrite <- !Z.land_ones, <- Z.land_lor_distr_l, Z.land_ones by lia.
  apply Z.mod_pos_bound. apply Z.pow_pos_nonneg; lia.
Qed.

Lemma foldl_invariant {A B} (P : A → Prop) (f : A → B → A) (l : list B)
    acc :
  P acc → (∀ a b, b ∈ l → P a → P (f a b)) → P (foldl f acc l).
Proof.
  revert acc. induction l as [|b l IH]; intros acc Hacc Hf; [exact Hacc|].
  cbn. apply IH.
  - apply Hf; [left|exact Hacc].
  - intros a b' Hb'. apply Hf. right. exact Hb'.
Qed.

(** X5: [get] returns an unsigned value: on a register file that holds
    bytes, the value of a register of [nr] bytes is in [0, 2^(8*nr))
    whatever was written, and [get] leaves the device as it was; a
    [set] keeps the register file one that holds bytes. *)
Theorem get_unsigned (map : gmap string (Z * Z * bool)) (name : string)
    (addr nr : Z) (wr : bool) (d : RegFile.device) :
  map !! name = Some (addr, nr, wr) →
  (∀ a b, RegFile.regs d !! a = Some b → 0 <= b < 256) →
  (∃ v, PitayaCSR.get map name d = (Ok v, d) ∧
        0 <= v < 2 ^ (8 * Z.max 0 nr)) ∧
  (∀ name' value d',
     PitayaCSR.set map name' value d = (Ok (), d') →
     ∀ a b, RegFile.regs d' !! a = Some b → 0 <= b < 256).
Proof.
  intros Hm Hbytes. split.
  - rewrite (RegFile_get map name addr nr wr d Hm). eexists.
    split; [reflexivity|].
    apply (foldl_invariant (λ v, 0 <= v < 2 ^ (8 * Z.max 0 nr))).
    + split; [lia|]. apply Z.pow_pos_nonneg; lia.
    + intros v i Hi Hv. apply elem_of_range in Hi.
      apply lor_bound; [lia|exact Hv|].
      assert (0 <= default 0 (RegFile.regs d !! (addr + i * 4)) < 256)
        as Hb.
      { destruct (RegFile.regs d !! (addr + i * 4)) as [b|] eqn:E; cbn;
          [eapply Hbytes, E|lia]. }
      rewrite Z.shiftl_mul_pow2 by lia.
      assert (0 < 2 ^ (8 * (nr - i - 1))) as Hp
        by (apply Z.pow_pos_nonneg; lia).
      split; [nia|].
      replace (8 * Z.max 0 nr) with (8 * (i + 1) + 8 * (nr - i - 1))
        by lia.
      rewrite Z.pow_add_r by lia.
      assert (2 ^ 8 <= 2 ^ (8 * (i + 1))) as Hi8
        by (apply Z.pow_le_mono_r; lia).
      change (2 ^ 8) with 256 in Hi8. nia.
  - intros name' value d' Hset a b Hab.
    apply set_Ok_inv in Hset
      as (addr0 & nr0 & Hm0 & Hnr0 & Hlo & Hhi & Hloop).
    rewrite RegFile_set_loop in Hloop. inversion Hloop as [Hd'].
    rewrite <- Hd' in Hab. cbn [RegFile.regs] in Hab.
    rewrite (foldl_insert_lookup_cases (λ i, addr0 + i * 4)) in Hab
      by (first [apply NoDup_seqZ | intros i1 i2; lia]).
    destruct (list_find _ (range nr0)) as [[n0 i]|].
    + inversion Hab. apply set_byte_range.
    + eapply Hbytes, Hab.
Qed.

Lemma get_unsigned_witness :
  bank_map !! "sweep_step" = Some (0x40300000, 3, true) ∧
  (∀ a b,
     (<[0x40300000 := 0x12]> (<[0x40300004 := 0xff]>
        (<[0x40300008 := 0x56]> (∅ : gmap Z Z)))) !! a = Some b →
     0 <= b < 256) ∧
  PitayaCSR.get bank_map "sweep_step"
    (RegFile.Device
       (<[0x40300000 := 0x12]> (<[0x40300004 := 0xff]>
          (<[0x40300008 := 0x56]> ∅))) [])
  = (Ok 0x12ff56,
     RegFile.Device
       (<[0x40300000 := 0x12]> (<[0x40300004 := 0xff]>
          (<[0x40300008 := 0x56]> ∅))) []) ∧
  0 <= 0x12ff56 < 2 ^ (8 * Z.max 0 3) ∧
  ∃ d',
    PitayaCSR.set bank_map "tap" (-1)
      (RegFile.Device
         (<[0x40300000 := 0x12]> (<[0x40300004 := 0xff]>
            (<[0x40300008 := 0x56]> ∅))) [])
    = (Ok (), d') ∧
    RegFile.regs d' !! 0x40300010 = Some 0xff ∧
    ∀ a b, RegFile.regs d' !! a = Some b → 0 <= b < 256.
Proof.
  set (d := RegFile.Device
              (<[0x40300000 := 0x12]> (<[0x40300004 := 0xff]>
                 (<[0x40300008 := 0x56]> ∅))) []).
  assert (∀ a b, RegFile.regs d !! a = Some b → 0 <= b < 256) as Hbytes.
  { intros a b H. cbn [d RegFile.regs] in H.
    repeat (apply lookup_insert_Some in H as [[_ <-]|[_ H]]; [lia|]).
    rewrite lookup_empty in H. discriminate. }
  split; [reflexivity|]. split; [exact Hbytes|].
  destruct (get_unsigned bank_map "sweep_step" 0x40300000 3 true d
              eq_refl Hbytes) as [(v & Hget & Hv) Hset].
  assert (PitayaCSR.get bank_map "sweep_step" d = (Ok 0x12ff56, d)) as Hc
    by (vm_compute; reflexivity).
  rewrite Hc in Hget. injection Hget as <-.
  split; [exact Hc|]. split; [exact Hv|].
  assert (∃ d', PitayaCSR.set bank_map "tap" (-1) d = (Ok (), d') ∧
                RegFile.regs d' !! 0x40300010 = Some 0xff)
    as (d' & Hs & Hd') by (eexists; split; vm_compute; reflexivity).
  exists d'. split; [exact Hs|]. split; [exact Hd'|].
  exact (Hset "tap" (-1) d' Hs).
Defined.

(** ** The simulated backend *)

(** X6: the simulated backend does not read back: after a [set] the
    dictionary holds the low byte of the value under the key of the
    last byte of the register, and [get] returns 0 all the same. *)
Theorem PitayaTB_no_read_back (map : gmap string (Z * Z * bool))
    (name : string) (addr nr value : Z) (params : gmap key Z) :
  map !! name = Some (addr, nr, true) → 1 <= nr <= 128 →
  - 2 ^ (8 * nr - 1) <= value < 2 ^ (8 * nr) →
  ∃ params',
    PitayaCSR.set map name value params = (Ok (), params') ∧
    params' !! inr ((addr - 0x40300000) / 4 + (nr - 1))
    = Some (value mod 256) ∧
    PitayaCSR.get map name params' = (Ok 0, params').
Proof.
  intros Hm Hnr Hv.
  destruct (range_hyp nr value ltac:(lia) Hv) as [Hlo Hhi].
  rewrite (set_in_range map name addr nr) by (try assumption; lia).
  rewrite PitayaTB_set_loop. eexists. split; [reflexivity|]. split.
  - rewrite (foldl_insert_lookup
               (λ i, inr ((addr - 0x40300000) / 4 + i))
               (λ i, PitayaCSR.set_byte (value mod 2 ^ (nr * 8)) nr i)
               (range nr) params (nr - 1)).
    + f_equal. unfold PitayaCSR.set_byte.
      replace (8 * (nr - (nr - 1) - 1)) with 0 by lia.
      rewrite Z.shiftr_0_r. change 255 with (Z.ones 8).
      rewrite Z.land_ones by lia. change (2 ^ 8) with 256.
      apply Z.mod_mod_divide. exists (2 ^ (8 * (nr - 1))).
      replace (nr * 8) with (8 * (nr - 1) + 8) by lia.
      rewrite Z.pow_add_r by lia. reflexivity.
    + intros i1 i2 Heq. inversion Heq. lia.
    + apply NoDup_seqZ.
    + apply elem_of_range. lia.
  - apply (PitayaTB_get map name addr nr true). exact Hm.
Qed.

Lemma PitayaTB_no_read_back_witness :
  gain_map !! "gain" = Some (0x100, 2, true) ∧ 1 <= 2 <= 128 ∧
  - 2 ^ (8 * 2 - 1) <= 0x1234 < 2 ^ (8 * 2) ∧
  ∃ params',
    PitayaCSR.set gain_map "gain" 0x1234 (∅ : gmap key Z)
    = (Ok (), params') ∧
    params' !! inr ((0x100 - 0x40300000) / 4 + (2 - 1))
    = Some (0x1234 mod 256) ∧
    PitayaCSR.get gain_map "gain" params' = (Ok 0, params').
Proof.
  split; [reflexivity|]. split; [lia|].
  split; [vm_compute; intuition discriminate|].
  apply (PitayaTB_no_read_back gain_map "gain" 0x100 2 0x1234 ∅ eq_refl);
    [lia|vm_compute; intuition discriminate].
Defined.

(** ** Widths that [set] cannot handle *)

(** X7: a register wider than 128 bytes cannot be set, whatever the value:
    the float division in the range check overflows. A register of
    negative width cannot be set either: the shift count is negative.
    In both cases nothing is written. *)
Theorem set_width_errors {S} `{!Backend S}
    (map : gmap string (Z * Z * bool)) (name : string)
    (addr nr value : Z) (s : S) :
  map !! name = Some (addr, nr, true) → ¬ (0 <= nr <= 128) →
  PitayaCSR.set map name value s
  = (Raise (if decide (nr < 0) then ValueError NegativeShiftCount
            else OverflowError), s).
Proof.
  intros Hm Hnr. destruct (decide (nr < 0)).
  - apply (set_negative_width map name addr nr); assumption.
  - apply (set_overflow map name addr nr); [assumption|lia].
Qed.

Lemma set_width_errors_witness :
  wide_map !! "wide" = Some (0x40300040, 129, true) ∧
  ¬ (0 <= 129 <= 128) ∧
  PitayaCSR.set wide_map "wide" 0 RegFile.reset
  = (Raise OverflowError, RegFile.reset).
Proof.
  split; [reflexivity|]. split; [lia|].
  apply (set_width_errors wide_map "wide" 0x40300040 129 0 RegFile.reset);
    [reflexivity|lia].
Defined.

(** ** More on [set_iir] *)

(** X8: the defaults of [set_iir] stand in for a register that reads 0,
    not for a register that is missing: without the shift register or
    the width register in the map, [set_iir] on the simulated backend
    raises [KeyError] for it, whatever [get_params] is, and nothing is
    written. *)
Theorem set_iir_missing_register (map : gmap string (Z * Z * bool))
    {coeffs : Type}
    (get_params : coeffs → coeffs → Z → Z → coeffs * coeffs * gmap string Z)
    (prefix : string) (b a : coeffs) (params : gmap key Z) :
  map !! (prefix +:+ "_shift") = None ∨ map !! (prefix +:+ "_width") = None →
  ∃ k, PitayaCSR.set_iir map get_params prefix b a params
       = (Raise (UnknownRegister k), params) ∧
       (k = prefix +:+ "_shift" ∨ k = prefix +:+ "_width") ∧
       map !! k = None.
Proof.
  intros Hmiss. unfold PitayaCSR.set_iir, mbind, M_bind.
  destruct (map !! (prefix +:+ "_shift")) as [[[addr nr] wr]|] eqn:Hs.
  - destruct Hmiss as [|Hw]; [discriminate|].
    exists (prefix +:+ "_width").
    rewrite (bind_Ok _ _ _ _ _ (PitayaTB_get map _ addr nr wr params Hs)).
    split; [|auto]. apply bind_Raise.
    unfold PitayaCSR.get, mbind, M_bind. apply bind_Raise.
    unfold PitayaCSR.map_getitem. rewrite Hw. reflexivity.
  - exists (prefix +:+ "_shift"). split; [|auto]. apply bind_Raise.
    unfold PitayaCSR.get, mbind, M_bind. apply bind_Raise.
    unfold PitayaCSR.map_getitem. rewrite Hs. reflexivity.
Qed.

Lemma set_iir_missing_register_witness :
  (gain_map !! ("gain" +:+ "_shift") = None
   ∨ gain_map !! ("gain" +:+ "_width") = None) ∧
  ∃ k, PitayaCSR.set_iir gain_map echo_params "gain" () ()
         (∅ : gmap key Z)
       = (Raise (UnknownRegister k), ∅) ∧
       (k = "gain" +:+ "_shift" ∨ k = "gain" +:+ "_width") ∧
       gain_map !! k = None.
Proof.
  split; [left; reflexivity|].
  apply (set_iir_missing_register gain_map echo_params "gain" () ()
           (∅ : gmap key Z)). left. reflexivity.
Defined.

#[local] Instance string_le_total : Total string_le.
Proof.
  intros s1 s2. unfold string_le.
  destruct (String.leb_total s1 s2) as [H|H]; rewrite H; [left|right];
    exact I.
Qed.

(** The keys of the parameters as [set_iir] goes through them. *)
Lemma sorted_spec (params : gmap string Z) :
  Sorted string_le (PitayaCSR.sorted params) ∧
  NoDup (PitayaCSR.sorted params) ∧
  ∀ k, k ∈ PitayaCSR.sorted params ↔ is_Some (params !! k).
Proof.
  unfold PitayaCSR.sorted. split; [|split].
  - apply Sorted_merge_sort. apply _.
  - rewrite merge_sort_Permutation. apply NoDup_fst_map_to_list.
  - intros k. rewrite merge_sort_Permutation. apply elem_of_keys.
Qed.

Lemma register_writes_received (map : gmap string (Z * Z * bool))
    (name : string) (addr nr value : Z) (d : RegFile.device) :
  map !! name = Some (addr, nr, true) → 1 <= nr <= 128 →
  - 2 ^ (8 * nr - 1) <= value < 2 ^ (8 * nr) →
  ∃ d', PitayaCSR.set map name value d = (Ok (), d') ∧
        RegFile.received d'
        = RegFile.received d ++ register_writes map name value.
Proof.
  intros Hm Hnr Hv.
  destruct (range_hyp nr value ltac:(lia) Hv) as [Hlo Hhi].
  unfold register_writes. rewrite Hm.
  apply RegFile_set_received; [assumption|lia|assumption..].
Qed.

(** X9: [set_iir] sets the registers of the parameters in the order of
    their names: when every parameter has a writable register that
    takes its value, the device receives the bytes of the first name in
    that order, then those of the second, and so on, and nothing
    else. *)
Theorem set_iir_order (map : gmap string (Z * Z * bool)) {coeffs : Type}
    (get_params : coeffs → coeffs → Z → Z → coeffs * coeffs * gmap string Z)
    (prefix : string) (b a : coeffs) (d : RegFile.device)
    (shift width : Z) (params : gmap string Z) :
  PitayaCSR.get map (prefix +:+ "_shift") d = (Ok shift, d) →
  PitayaCSR.get map (prefix +:+ "_width") d = (Ok width, d) →
  (get_params b a (if decide (shift = 0) then 16 else shift)
                  (if decide (width = 0) then 25 else width)).2 = params →
  (∀ k v, params !! k = Some v →
     ∃ addr nr, map !! (prefix +:+ "_" +:+ k) = Some (addr, nr, true) ∧
                1 <= nr <= 128 ∧
                - 2 ^ (8 * nr - 1) <= v < 2 ^ (8 * nr)) →
  ∃ d' ks,
    PitayaCSR.set_iir map get_params prefix b a d = (Ok (), d') ∧
    Sorted string_le ks ∧ NoDup ks ∧
    (∀ k, k ∈ ks ↔ is_Some (params !! k)) ∧
    RegFile.received d'
    = RegFile.received d
      ++ mjoin ((λ k, register_writes map (prefix +:+ "_" +:+ k)
                        (default 0 (params !! k))) <$> ks).
Proof.
  intros Hshift Hwidth Hparams Hregs.
  assert (PitayaCSR.set_iir map get_params prefix b a d
          = PitayaCSR.set_params map prefix params d) as ->.
  { unfold PitayaCSR.set_iir, mbind, M_bind.
    rewrite (bind_Ok _ _ _ _ _ Hshift), (bind_Ok _ _ _ _ _ Hwidth).
    unfold PitayaCSR.or_. rewrite <- Hparams.
    destruct (get_params b a _ _) as [[b' a'] params']. reflexivity. }
  destruct (sorted_spec params) as (Hsorted & Hnd & Hin).
  unfold PitayaCSR.set_params.
  assert (∀ (ks : list string) d0,
    (∀ k, k ∈ ks → is_Some (params !! k)) →
    ∃ d', for_ ks (λ k, match params !! k with
                        | Some v => PitayaCSR.set map (prefix +:+ "_" +:+ k) v
                        | None => raise (KeyError (inl k))
                        end) d0 = (Ok (), d') ∧
          RegFile.received d'
          = RegFile.received d0
            ++ mjoin ((λ k, register_writes map (prefix +:+ "_" +:+ k)
                              (default 0 (params !! k))) <$> ks)) as Hfor.
  { intros ks. induction ks as [|k ks IH]; intros d0 Hks.
    - exists d0. split; [reflexivity|]. cbn. rewrite app_nil_r. reflexivity.
    - destruct (Hks k ltac:(left)) as [v Hv].
      destruct (Hregs k v Hv) as (addr & nr & Hm & Hnr & Hrange).
      destruct (register_writes_received map _ addr nr v d0 Hm Hnr Hrange)
        as (d1 & Hset & Hrec).
      destruct (IH d1) as (d' & Hrest & Hrec');
        [intros k' Hk'; apply Hks; right; exact Hk'|].
      exists d'. cbn [for_ fmap list_fmap mjoin list_join].
      rewrite Hv. rewrite (bind_Ok _ _ _ _ _ Hset).
      split; [exact Hrest|]. rewrite Hrec', Hrec. cbn [default].
      rewrite <- app_assoc. reflexivity. }
  destruct (Hfor (PitayaCSR.sorted params) d) as (d' & Hrun & Hrec).
  { intros k Hk. apply Hin, Hk. }
  exists d', (PitayaCSR.sorted params). auto.
Qed.

Lemma set_iir_order_witness :
  PitayaCSR.get iir_map ("iir_c" +:+ "_shift") RegFile.reset
  = (Ok 0, RegFile.reset) ∧
  PitayaCSR.get iir_map ("iir_c" +:+ "_width") RegFile.reset
  = (Ok 0, RegFile.reset) ∧
  (echo_params () () 16 25).2 = {[ "b0" := 16; "a1" := 25 ]} ∧
  ∃ d' ks,
    PitayaCSR.set_iir iir_map echo_params "iir_c" () () RegFile.reset
    = (Ok (), d') ∧
    Sorted string_le ks ∧ NoDup ks ∧
    (∀ k, k ∈ ks ↔
          is_Some (({[ "b0" := 16; "a1" := 25 ]} : gmap string Z) !! k)) ∧
    RegFile.received d'
    = RegFile.received RegFile.reset
      ++ mjoin ((λ k, register_writes iir_map ("iir_c" +:+ "_" +:+ k)
                        (default 0 (({[ "b0" := 16; "a1" := 25 ]}
                                      : gmap string Z) !! k))) <$> ks).
Proof.
  split; [reflexivity|]. split; [reflexivity|]. split; [reflexivity|].
  apply (set_iir_order iir_map echo_params "iir_c" () () RegFile.reset
           0 0 {[ "b0" := 16; "a1" := 25 ]});
    [reflexivity|reflexivity|reflexivity|].
  intros k v Hkv.
  apply lookup_insert_Some in Hkv as [[<- <-]|[_ Hkv]].
  - exists 0x40300028, 4. split; [reflexivity|].
    split; [lia|vm_compute; intuition discriminate].
  - apply lookup_singleton_Some in Hkv as [<- <-].
    exists 0x40300038, 4. split; [reflexivity|].
    split; [lia|vm_compute; intuition discriminate].
Defined.

(** The example, computed: [a1] comes before [b0]. *)
Example set_iir_received :
  RegFile.received
    (PitayaCSR.set_iir iir_map echo_params "iir_c" () () RegFile.reset).2
  = [(0x40300038, 0); (0x4030003c, 0); (0x40300040, 0); (0x40300044, 25);
     (0x40300028, 0); (0x4030002c, 0); (0x40300030, 0); (0x40300034, 16)].
Proof. vm_compute. reflexivity. Qed.

(** ** More on [CsrParams.writes] *)

(** The first [j] of the [b] bytes of a value, read as one number. *)
Lemma big_endian_prefix v b (j : nat) :
  Z.of_nat j <= b →
  foldl (λ acc i, acc * 256 + big_endian_byte v b i) 0 (range (Z.of_nat j))
  = (v / 2 ^ (8 * (b - Z.of_nat j))) mod 2 ^ (8 * Z.of_nat j).
Proof.
  intros Hj. induction j as [|j IH].
  - cbn. rewrite Z.mod_1_r. reflexivity.
  - replace (Z.of_nat (Datatypes.S j)) with (Z.of_nat j + 1) by lia.
    rewrite range_succ by lia. rewrite foldl_snoc, IH by lia.
    unfold big_endian_byte.
    replace (8 * (b - Z.of_nat j)) with (8 * (b - (Z.of_nat j + 1)) + 8)
      by lia.
    replace (b - 1 - Z.of_nat j) with (b - (Z.of_nat j + 1)) by lia.
    set (k := 8 * (b - (Z.of_nat j + 1))).
    rewrite Z.pow_add_r by lia. change (2 ^ 8) with 256.
    rewrite <- Z.div_div by (try apply Z.pow_pos_nonneg; lia).
    set (w := v / 2 ^ k).
    replace (8 * (Z.of_nat j + 1)) with (8 + 8 * Z.of_nat j) by lia.
    rewrite Z.pow_add_r by lia. change (2 ^ 8) with 256.
    assert (0 < 2 ^ (8 * Z.of_nat j)) by (apply Z.pow_pos_nonneg; lia).
    rewrite (Z.rem_mul_r w 256) by lia. lia.
Qed.

Lemma big_endian_value v b :
  0 <= b →
  foldl (λ acc i, acc * 256 + big_endian_byte v b i) 0 (range b)
  = v mod 2 ^ (8 * b).
Proof.
  intros Hb. pose proof (big_endian_prefix v b (Z.to_nat b)) as H.
  rewrite Z2Nat.id in H by lia. rewrite H by lia.
  replace (8 * (b - b)) with 0 by lia. rewrite Z.div_1_r. reflexivity.
Qed.

Lemma written_value_fmap (f : Z → Z) (g : Z → Z) (l : list Z) :
  written_value ((λ j, TWrite (f j) (g j)) <$> l)
  = foldl (λ acc i, acc * 256 + g i) 0 l.
Proof.
  unfold written_value. generalize 0.
  induction l as [|i l IH]; intros acc; [reflexivity|]. cbn. apply IH.
Qed.

(** X10: [writes] does not check the value of a named parameter against the
    size of its register: the bytes it writes, read back as one number,
    are the value modulo [2^(8*b)] for the [b = ceil(n/8)] bytes of the
    register, so a value and the same value plus [2^(8*b)] give the
    same transactions. *)
Theorem writes_truncates (get_offset : list csr → string → option Z)
    (desc : list csr) (k : string) (v a n : Z) :
  get_offset desc k = Some a →
  CsrParams.find_size desc (inl k) None = Some n →
  0 <= n →
  let b := (n + 8 - 1) / 8 in
  (CsrParams.writes get_offset desc {[ inl k := v ]}).2 = None ∧
  written_value (CsrParams.writes get_offset desc {[ inl k := v ]}).1
  = v mod 2 ^ (8 * b) ∧
  CsrParams.writes get_offset desc {[ inl k := v + 2 ^ (8 * b) ]}
  = CsrParams.writes get_offset desc {[ inl k := v ]}.
Proof.
  intros Ha Hn Hn0 b.
  assert (0 <= b) as Hb by (apply Z.div_pos; lia).
  rewrite !(writes_named get_offset desc k _ a n Ha Hn). fold b.
  cbn [fst snd]. split; [reflexivity|]. split.
  - rewrite (written_value_fmap (λ j, a + j)
               (λ j, big_endian_byte v b j)).
    apply big_endian_value. exact Hb.
  - f_equal. apply fmap_range_ext. intros j Hj. f_equal.
    unfold big_endian_byte.
    replace (8 * b) with (8 * (b - 1 - j) + (8 * j + 8)) by lia.
    rewrite !Z.pow_add_r by lia. change (2 ^ 8) with 256.
    set (P := 2 ^ (8 * (b - 1 - j))). set (Q := 2 ^ (8 * j)).
    assert (0 < P) by (apply Z.pow_pos_nonneg; lia).
    replace (v + P * (Q * 256)) with (v + Q * 256 * P) by lia.
    rewrite Z.div_add by lia. rewrite Z.add_mod by lia.
    rewrite Z.mod_mul by lia. rewrite Z.add_0_r. apply Z.mod_mod. lia.
Qed.

Lemma writes_truncates_witness :
  bank_offset bank_desc "tap" = Some 0 ∧
  CsrParams.find_size bank_desc (inl "tap") None = Some 2 ∧
  0 <= 2 ∧
  written_value
    (CsrParams.writes bank_offset bank_desc {[ inl "tap" := 0x1ff ]}).1
  = 0x1ff mod 2 ^ (8 * ((2 + 8 - 1) / 8)).
Proof.
  split; [reflexivity|]. split; [reflexivity|].
  split; [lia|].
  apply (writes_truncates bank_offset bank_desc "tap" 0x1ff 0 2);
    [reflexivity|reflexivity|lia].
Defined.

(** The keys that [sorted] returns, and when it raises. *)
Lemma CsrParams_sorted_spec (params : gmap key Z) :
  match CsrParams.sorted params with
  | Ok ks =>
      NoDup ks ∧ (∀ k, k ∈ ks ↔ is_Some (params !! k)) ∧
      ((∃ names, ks = inl <$> names ∧ Sorted string_le names) ∨
       (∃ addrs, ks = inr <$> addrs ∧ Sorted Z.le addrs))
  | Raise e =>
      e = TypeError ∧
      ∃ s i, is_Some (params !! inl s) ∧ is_Some (params !! inr i)
  end.
Proof.
  unfold CsrParams.sorted.
  set (l := (map_to_list params).*1).
  set (pl := λ k : key, match k with inl s => Some s | inr _ => None end).
  set (pr := λ k : key, match k with inr i => Some i | inl _ => None end).
  assert (NoDup l) as Hnd by apply NoDup_fst_map_to_list.
  assert (∀ k, k ∈ l ↔ is_Some (params !! k)) as Hl
    by (intros k; apply elem_of_keys).
  assert (∀ s, s ∈ omap pl l ↔ inl s ∈ l) as Hstr.
  { intros s. rewrite list_elem_of_omap. split.
    - intros ([s'|i] & Hk & Heq); inversion Heq; subst; exact Hk.
    - intros Hs. exists (inl s). auto. }
  assert (∀ i, i ∈ omap pr l ↔ inr i ∈ l) as Hint.
  { intros i. rewrite list_elem_of_omap. split.
    - intros ([s|i'] & Hk & Heq); inversion Heq; subst; exact Hk.
    - intros Hi. exists (inr i). auto. }
  assert (NoDup (omap pl l)) as Hnds.
  { clear -Hnd. induction Hnd as [|k l Hk Hnd IH]; [constructor|].
    destruct k as [s|i]; cbn; [|exact IH]. constructor; [|exact IH].
    intros Hs. apply list_elem_of_omap in Hs as ([s'|i'] & Hin & Heq);
      inversion Heq; subst. contradiction. }
  assert (NoDup (omap pr l)) as Hndi.
  { clear -Hnd. induction Hnd as [|k l Hk Hnd IH]; [constructor|].
    destruct k as [s|i]; cbn; [exact IH|]. constructor; [|exact IH].
    intros Hs. apply list_elem_of_omap in Hs as ([s'|i'] & Hin & Heq);
      inversion Heq; subst. contradiction. }
  assert (omap pr l = [] →
          NoDup (inl <$> merge_sort string_le (omap pl l) : list key) ∧
          (∀ k, k ∈ (inl <$> merge_sort string_le (omap pl l) : list key)
                ↔ is_Some (params !! k)) ∧
          ((∃ names, (inl <$> merge_sort string_le (omap pl l) : list key)
                     = inl <$> names ∧ Sorted string_le names) ∨
           (∃ addrs, (inl <$> merge_sort string_le (omap pl l) : list key)
                     = inr <$> addrs ∧ Sorted Z.le addrs))) as Hnames.
  { intros Ei. split; [|split].
    + apply (NoDup_fmap_2 _). rewrite merge_sort_Permutation. exact Hnds.
    + intros k. rewrite <- Hl, list_elem_of_fmap. split.
      * intros (s & -> & Hs). rewrite merge_sort_Permutation in Hs.
        apply Hstr, Hs.
      * intros Hk. destruct k as [s|i].
        -- exists s. split; [reflexivity|].
           rewrite merge_sort_Permutation. apply Hstr, Hk.
        -- apply Hint in Hk. rewrite Ei in Hk. inversion Hk.
    + left. eexists. split; [reflexivity|].
      apply Sorted_merge_sort. apply _. }
  assert (omap pl l = [] →
          NoDup (inr <$> merge_sort Z.le (omap pr l) : list key) ∧
          (∀ k, k ∈ (inr <$> merge_sort Z.le (omap pr l) : list key)
                ↔ is_Some (params !! k)) ∧
          ((∃ names, (inr <$> merge_sort Z.le (omap pr l) : list key)
                     = inl <$> names ∧ Sorted string_le names) ∨
           (∃ addrs, (inr <$> merge_sort Z.le (omap pr l) : list key)
                     = inr <$> addrs ∧ Sorted Z.le addrs))) as Haddrs.
  { intros Es. split; [|split].
    + apply (NoDup_fmap_2 _). rewrite merge_sort_Permutation. exact Hndi.
    + intros k. rewrite <- Hl, list_elem_of_fmap. split.
      * intros (i & -> & Hi). rewrite merge_sort_Permutation in Hi.
        apply Hint, Hi.
      * intros Hk. destruct k as [s|i].
        -- apply Hstr in Hk. rewrite Es in Hk. inversion Hk.
        -- exists i. split; [reflexivity|].
           rewrite merge_sort_Permutation. apply Hint, Hk.
    + right. eexists. split; [reflexivity|].
      apply Sorted_merge_sort. apply _. }
  destruct (omap pl l) as [|s0 strs] eqn:Es;
    destruct (omap pr l) as [|i0 ints] eqn:Ei.
  - apply Hnames. reflexivity.
  - apply Haddrs. reflexivity.
  - apply Hnames. reflexivity.
  - split; [reflexivity|]. exists s0, i0. split.
    + apply Hl, Hstr. left.
    + apply Hl, Hint. left.
Qed.

Lemma write_bytes_bytes a v idx :
  Forall (λ t, ∃ a' data, t = TWrite a' data ∧ 0 <= data < 256)
         (CsrParams.write_bytes a v idx).
Proof.
  revert a. induction idx as [|i idx IH]; intros a; cbn; constructor.
  - eexists _, _. split; [reflexivity|].
    change 255 with (Z.ones 8). rewrite Z.land_ones by lia.
    apply Z.mod_pos_bound. lia.
  - apply IH.
Qed.

(** X11: whatever the dictionary, [writes] yields write transactions only,
    and every one of them carries a byte. *)
Theorem writes_bytes_only (get_offset : list csr → string → option Z)
    (desc : list csr) (params : gmap key Z) :
  Forall (λ t, ∃ a data, t = TWrite a data ∧ 0 <= data < 256)
         (CsrParams.writes get_offset desc params).1.
Proof.
  unfold CsrParams.writes.
  destruct (CsrParams.sorted params) as [ks|e]; [|constructor].
  generalize (@None Z). induction ks as [|k ks IH]; intros n;
    [constructor|].
  cbn [CsrParams.writes_keys].
  destruct (CsrParams.writes_key get_offset desc params k n)
    as [ts [n'|e]] eqn:E.
  - specialize (IH n').
    destruct (CsrParams.writes_keys get_offset desc params ks n')
      as [ts' r]. cbn [fst] in *. apply Forall_app. split; [|exact IH].
    unfold CsrParams.writes_key in E.
    repeat match type of E with
      | context [match ?x with _ => _ end] => destruct x
      end; inversion E; subst; first [constructor|apply write_bytes_bytes].
  - cbn [fst]. unfold CsrParams.writes_key in E.
    repeat match type of E with
      | context [match ?x with _ => _ end] => destruct x
      end; inversion E; subst; first [constructor|apply write_bytes_bytes].
Qed.

(** X12: a dictionary with a name and an address among its keys does not
    sort: [writes] raises [TypeError] before it yields anything. *)
Theorem writes_mixed_keys (get_offset : list csr → string → option Z)
    (desc : list csr) (params : gmap key Z) (s : string) (i : Z) :
  is_Some (params !! inl s) → is_Some (params !! inr i) →
  CsrParams.writes get_offset desc params = ([], Some TypeError).
Proof.
  intros Hs Hi. unfold CsrParams.writes.
  pose proof (CsrParams_sorted_spec params) as Hspec.
  destruct (CsrParams.sorted params) as [ks|e].
  - exfalso. destruct Hspec as (_ & Hin & [(names & -> & _)|(addrs & -> & _)]).
    + apply Hin in Hi. apply list_elem_of_fmap in Hi as (? & ? & _).
      discriminate.
    + apply Hin in Hs. apply list_elem_of_fmap in Hs as (? & ? & _).
      discriminate.
  - destruct Hspec as [-> _]. reflexivity.
Qed.

Lemma writes_mixed_keys_witness :
  is_Some (({[ inl "tap" := 1; inr 3 := 2 ]} : gmap key Z) !! inl "tap") ∧
  is_Some (({[ inl "tap" := 1; inr 3 := 2 ]} : gmap key Z) !! inr 3) ∧
  CsrParams.writes bank_offset bank_desc {[ inl "tap" := 1; inr 3 := 2 ]}
  = ([], Some TypeError).
Proof.
  split; [eexists; reflexivity|]. split; [eexists; reflexivity|].
  apply (writes_mixed_keys bank_offset bank_desc _ "tap" 3);
    eexists; reflexivity.
Defined.

(** A size that the search finds does not depend on the value that [n]
    had before. *)
Lemma find_size_found (desc : list csr) (k : key) (n : Z) (n0 : option Z) :
  CsrParams.find_size desc k None = Some n →
  CsrParams.find_size desc k n0 = Some n.
Proof.
  induction desc as [|c desc IH]; cbn; [discriminate|].
  destruct (decide (inl (CSR.name c) = k)); [auto|exact IH].
Qed.

Lemma find_size_name (desc : list csr) (k : string) (n0 : option Z) :
  (∃ c, c ∈ desc ∧ CSR.name c = k) →
  ∃ n, CsrParams.find_size desc (inl k) n0 = Some n.
Proof.
  intros (c & Hc & Hk). induction desc as [|c' desc IH]; [inversion Hc|].
  cbn. destruct (decide (inl (CSR.name c') = inl k)); [eauto|].
  apply IH. apply elem_of_cons in Hc as [->|Hc]; [|exact Hc].
  congruence.
Qed.

(** The keys of a dictionary without names sort as numbers, and each
    gives one write. *)
Lemma writes_addresses_in_order
    (get_offset : list csr → string → option Z)
    (desc : list csr) (params : gmap key Z) :
  (∀ s, params !! inl s = None) →
  ∃ addrs,
    CsrParams.writes get_offset desc params
    = ((λ k, TWrite k (default 0 (params !! inr k) mod 256)) <$> addrs,
       None) ∧
    Sorted Z.le addrs ∧ NoDup addrs ∧
    ∀ k, k ∈ addrs ↔ is_Some (params !! inr k).
Proof.
  intros Hint. unfold CsrParams.writes.
  pose proof (CsrParams_sorted_spec params) as Hspec.
  destruct (CsrParams.sorted params) as [ks|e].
  - destruct Hspec as (Hnd & Hin & Hkind).
    assert (∃ addrs, ks = inr <$> addrs ∧ Sorted Z.le addrs)
      as (addrs & -> & Hsorted).
    { destruct Hkind as [(names & -> & _)|H]; [|exact H].
      exists []. split; [|constructor].
      destruct names as [|s names]; [reflexivity|].
      destruct (Hin (inl s)) as [[v Hv] _]; [left|].
      rewrite Hint in Hv. discriminate. }
    exists addrs. split; [|split; [exact Hsorted|split]].
    + apply (writes_keys_int get_offset desc params addrs
               (λ k, default 0 (params !! inr k))).
      intros k Hk.
      destruct (Hin (inr k)) as [[v Hv] _].
      { apply list_elem_of_fmap. eauto. }
      rewrite Hv. reflexivity.
    + apply (NoDup_fmap_1 (inr : Z → key)). exact Hnd.
    + intros k. rewrite <- Hin, list_elem_of_fmap. split.
      * eauto.
      * intros (k' & Heq & Hk'). inversion Heq. subst. exact Hk'.
  - exfalso. destruct Hspec as (_ & s & i & [v Hv] & _).
    rewrite Hint in Hv. discriminate.
Qed.

(** X13: a dictionary filled by address, as [PitayaTB.set_one] fills it:
    [writes] yields one write per address, in the order of the
    addresses, with the low byte of the value stored there, and ends
    without an exception. *)
Theorem writes_by_address (get_offset : list csr → string → option Z)
    (desc : list csr) (params : gmap key Z) :
  (∀ s, params !! inl s = None) →
  ∃ addrs,
    CsrParams.writes get_offset desc params
    = ((λ k, TWrite k (default 0 (params !! inr k) mod 256)) <$> addrs,
       None) ∧
    Sorted Z.le addrs ∧ NoDup addrs ∧
    ∀ k, k ∈ addrs ↔ is_Some (params !! inr k).
Proof. apply writes_addresses_in_order. Qed.

Lemma writes_by_address_witness :
  (∀ s, ({[ inr 7 := 0x1ff; inr 2 := 3 ]} : gmap key Z) !! inl s = None) ∧
  ∃ addrs,
    CsrParams.writes bank_offset bank_desc {[ inr 7 := 0x1ff; inr 2 := 3 ]}
    = ((λ k, TWrite k (default 0 (({[ inr 7 := 0x1ff; inr 2 := 3 ]}
                                    : gmap key Z) !! inr k) mod 256))
       <$> addrs, None) ∧
    Sorted Z.le addrs.
Proof.
  assert (∀ s, ({[ inr 7 := 0x1ff; inr 2 := 3 ]} : gmap key Z) !! inl s
               = None) as H.
  { intros s. rewrite lookup_insert_ne by discriminate.
    apply lookup_singleton_ne. discriminate. }
  split; [exact H|].
  destruct (writes_by_address bank_offset bank_desc _ H)
    as (addrs & Hw & Hs & _).
  exists addrs. split; [exact Hw|exact Hs].
Defined.

(** The example, computed: address 2 comes before address 7, and of
    the value [0x1ff] only the low byte goes out. *)
Example writes_addresses :
  CsrParams.writes bank_offset bank_desc {[ inr 7 := 0x1ff; inr 2 := 3 ]}
  = ([TWrite 2 3; TWrite 7 0xff], None).
Proof. vm_compute. reflexivity. Qed.

Lemma writes_keys_named (get_offset : list csr → string → option Z)
    (desc : list csr) (params : gmap key Z) (names : list string)
    (n0 : option Z) :
  (∀ k, k ∈ names →
     is_Some (params !! inl k) ∧
     ∃ a n, get_offset desc k = Some a ∧
            CsrParams.find_size desc (inl k) None = Some n) →
  CsrParams.writes_keys get_offset desc params (inl <$> names) n0
  = (mjoin ((λ k, parameter_writes get_offset desc k
                    (default 0 (params !! inl k))) <$> names), None).
Proof.
  revert n0. induction names as [|k names IH]; intros n0 Hnames;
    [reflexivity|].
  destruct (Hnames k ltac:(left)) as ([v Hv] & a & n & Ha & Hn).
  cbn [fmap list_fmap CsrParams.writes_keys mjoin list_join].
  unfold CsrParams.writes_key.
  rewrite (find_size_found desc (inl k) n n0 Hn), Ha, Hv.
  change (list_fmap string key inl names) with (inl <$> names : list key).
  rewrite IH by (intros k' Hk'; apply Hnames; right; exact Hk').
  unfold parameter_writes at 2. rewrite Ha, Hn. cbn [default].
  rewrite write_bytes_big_endian. reflexivity.
Qed.

(** X14: a dictionary filled by name, as [get_params] returns it: when the
    register bank has every name, [writes] yields the bytes of the
    first name in the order of the names, then those of the second,
    and so on, and ends without an exception. *)
Theorem writes_by_name (get_offset : list csr → string → option Z)
    (desc : list csr) (params : gmap key Z) :
  (∀ i, params !! inr i = None) →
  (∀ k, is_Some (params !! inl k) →
     ∃ a n, get_offset desc k = Some a ∧
            CsrParams.find_size desc (inl k) None = Some n) →
  ∃ names,
    CsrParams.writes get_offset desc params
    = (mjoin ((λ k, parameter_writes get_offset desc k
                      (default 0 (params !! inl k))) <$> names), None) ∧
    Sorted string_le names ∧ NoDup names ∧
    ∀ k, k ∈ names ↔ is_Some (params !! inl k).
Proof.
  intros Hstr Hbank. unfold CsrParams.writes.
  pose proof (CsrParams_sorted_spec params) as Hspec.
  destruct (CsrParams.sorted params) as [ks|e].
  - destruct Hspec as (Hnd & Hin & Hkind).
    assert (∃ names, ks = inl <$> names ∧ Sorted string_le names)
      as (names & -> & Hsorted).
    { destruct Hkind as [H|(addrs & -> & _)]; [exact H|].
      exists []. split; [|constructor].
      destruct addrs as [|i addrs]; [reflexivity|].
      destruct (Hin (inr i)) as [[v Hv] _]; [left|].
      rewrite Hstr in Hv. discriminate. }
    assert (∀ k, k ∈ names ↔ is_Some (params !! inl k)) as Hnames.
    { intros k. rewrite <- Hin, list_elem_of_fmap. split.
      - eauto.
      - intros (k' & Heq & Hk'). inversion Heq. subst. exact Hk'. }
    exists names. split; [|split; [exact Hsorted|split]].
    + apply writes_keys_named. intros k Hk. apply Hnames in Hk. auto.
    + apply (NoDup_fmap_1 (inl : string → key)). exact Hnd.
    + exact Hnames.
  - exfalso. destruct Hspec as (_ & s & i & _ & [v Hv]).
    rewrite Hstr in Hv. discriminate.
Qed.

Lemma writes_by_name_witness :
  (∀ i, ({[ inl "tap" := 1; inl "sweep_step" := 0x123456 ]} : gmap key Z)
        !! inr i = None) ∧
  ∃ names,
    CsrParams.writes bank_offset bank_desc
      {[ inl "tap" := 1; inl "sweep_step" := 0x123456 ]}
    = (mjoin ((λ k, parameter_writes bank_offset bank_desc k
                      (default 0 (({[ inl "tap" := 1;
                                      inl "sweep_step" := 0x123456 ]}
                                    : gmap key Z) !! inl k))) <$> names),
       None) ∧
    Sorted string_le names.
Proof.
  assert (∀ i, ({[ inl "tap" := 1; inl "sweep_step" := 0x123456 ]}
                 : gmap key Z) !! inr i = None) as H.
  { intros i. rewrite lookup_insert_ne by discriminate.
    apply lookup_singleton_ne. discriminate. }
  split; [exact H|].
  destruct (writes_by_name bank_offset bank_desc _ H)
    as (names & Hw & Hs & _).
  - intros k [v Hv].
    apply lookup_insert_Some in Hv as [[Hk _]|[_ Hv]].
    + inversion Hk. eexists _, _. split; reflexivity.
    + apply lookup_singleton_Some in Hv as [Hk _]. inversion Hk.
      eexists _, _. split; reflexivity.
  - exists names. split; [exact Hw|exact Hs].
Defined.

(** The example, computed: [sweep_step] comes before [tap]. *)
Example writes_names :
  CsrParams.writes bank_offset bank_desc
    {[ inl "tap" := 1; inl "sweep_step" := 0x123456 ]}
  = ([TWrite 1 0x12; TWrite 2 0x34; TWrite 3 0x56; TWrite 0 1], None).
Proof. vm_compute. reflexivity. Qed.

Lemma bank_offset_from_name (desc : list csr) (k : string) (o a : Z) :
  bank_offset_from o desc k = Some a → ∃ c, c ∈ desc ∧ CSR.name c = k.
Proof.
  revert o. induction desc as [|c desc IH]; intros o; cbn; [discriminate|].
  destruct (decide (CSR.name c = k)) as [Hk|_].
  - intros _. exists c. split; [left|exact Hk].
  - intros H. apply IH in H as (c' & Hc' & Hk'). exists c'.
    split; [right; exact Hc'|exact Hk'].
Qed.

(** X15: the exceptions of [writes], for a [get_offset] that finds only
    names of the register bank: [TypeError] for a dictionary with keys
    of both kinds, and [KeyError] for a name that the register bank
    does not have; the variable [n] is never read unbound. *)
Theorem writes_exceptions (get_offset : list csr → string → option Z)
    (desc : list csr) (params : gmap key Z) (e : exn) :
  (∀ k a, get_offset desc k = Some a → ∃ c, c ∈ desc ∧ CSR.name c = k) →
  (CsrParams.writes get_offset desc params).2 = Some e →
  (e = TypeError ∧
   ∃ s i, is_Some (params !! inl s) ∧ is_Some (params !! inr i)) ∨
  (∃ k, e = KeyError (inl k) ∧ is_Some (params !! inl k) ∧
        get_offset desc k = None).
Proof.
  intros Hbank. unfold CsrParams.writes.
  pose proof (CsrParams_sorted_spec params) as Hspec.
  destruct (CsrParams.sorted params) as [ks|e0].
  - destruct Hspec as (_ & Hin & _). intros He. right.
    assert (∀ k, k ∈ ks → is_Some (params !! k)) as Hks
      by (intros k Hk; apply Hin, Hk).
    clear Hin. revert He. generalize (@None Z) at 1.
    induction ks as [|k ks IH]; intros n0; [discriminate|].
    cbn [CsrParams.writes_keys].
    destruct (Hks k ltac:(left)) as [v Hv].
    unfold CsrParams.writes_key. rewrite Hv.
    destruct k as [s|i].
    + destruct (get_offset desc s) as [a|] eqn:Ha.
      * destruct (find_size_name desc s n0 (Hbank s a Ha)) as [n ->].
        destruct (CsrParams.writes_keys _ _ _ ks (Some n)) as [ts r] eqn:E.
        cbn [snd]. intros ->.
        apply (IH ltac:(intros k Hk; apply Hks; right; exact Hk) (Some n)).
        rewrite E. reflexivity.
      * cbn [snd]. intros He. inversion He. subst. exists s.
        split; [reflexivity|]. split; [eexists; exact Hv|exact Ha].
    + destruct (CsrParams.writes_keys _ _ _ ks (Some 1)) as [ts r] eqn:E.
      cbn [snd]. intros ->.
      apply (IH ltac:(intros k Hk; apply Hks; right; exact Hk) (Some 1)).
      rewrite E. reflexivity.
  - destruct Hspec as [-> Hmixed]. intros He. inversion He. left. auto.
Qed.

Lemma writes_exceptions_witness :
  (∀ k a, bank_offset bank_desc k = Some a →
          ∃ c, c ∈ bank_desc ∧ CSR.name c = k) ∧
  (CsrParams.writes bank_offset bank_desc
     {[ inl "sweep_step" := 1; inl "unknown" := 2 ]}).2
  = Some (KeyError (inl "unknown")) ∧
  ((KeyError (inl "unknown") = TypeError ∧
    ∃ s i, is_Some (({[ inl "sweep_step" := 1; inl "unknown" := 2 ]}
                      : gmap key Z) !! inl s) ∧
           is_Some (({[ inl "sweep_step" := 1; inl "unknown" := 2 ]}
                      : gmap key Z) !! inr i)) ∨
   (∃ k, KeyError (inl "unknown") = KeyError (inl k) ∧
         is_Some (({[ inl "sweep_step" := 1; inl "unknown" := 2 ]}
                    : gmap key Z) !! inl k) ∧
         bank_offset bank_desc k = None)).
Proof.
  assert (∀ k a, bank_offset bank_desc k = Some a →
                 ∃ c, c ∈ bank_desc ∧ CSR.name c = k) as H
    by (intros k a; apply bank_offset_from_name).
  split; [exact H|]. split; [vm_compute; reflexivity|].
  apply (writes_exceptions bank_offset bank_desc _ _ H).
  vm_compute. reflexivity.
Defined.

(** The example, computed: the writes of [sweep_step] have gone out
    when the exception for [unknown] ends the generator. *)
Example writes_unknown_name :
  CsrParams.writes bank_offset bank_desc
    {[ inl "sweep_step" := 0x123456; inl "unknown" := 2 ]}
  = ([TWrite 1 0x12; TWrite 2 0x34; TWrite 3 0x56],
     Some (KeyError (inl "unknown"))).
Proof. vm_compute. reflexivity. Qed.

(** ** Any number of [set]s on the simulated backend *)

(** [set] changes the state of the backend through [set_one] only: a
    property of the state that every [set_one] keeps, [set] keeps,
    whether it returns or raises. *)
Lemma set_preserves {S} `{!Backend S} (P : S → Prop)
    (map : gmap string (Z * Z * bool)) (name : string) (value : Z)
    (s s' : S) r :
  (∀ a v s0 r0 s1,
     0 <= v < 256 → set_one a v s0 = (r0, s1) → P s0 → P s1) →
  PitayaCSR.set map name value s = (r, s') → P s → P s'.
Proof.
  intros Hone Hset HP.
  assert (∀ (l : list Z) (f g : Z → Z) s0 r0 s1,
            (∀ i, 0 <= g i < 256) →
            for_ l (λ i, set_one (f i) (g i)) s0 = (r0, s1) →
            P s0 → P s1) as Hfor.
  { intros l f g. induction l as [|i l IH]; intros s0 r0 s1 Hg; cbn.
    - unfold ret. intros H; inversion H; subst. auto.
    - unfold bind. destruct (set_one (f i) (g i) s0) as [[[]|e] s2] eqn:E.
      + intros H Hs0. eapply IH; [exact Hg|exact H|].
        eapply Hone; [apply Hg|exact E|exact Hs0].
      + intros H Hs0. inversion H; subst.
        eapply Hone; [apply Hg|exact E|exact Hs0]. }
  destruct (map !! name) as [[[addr nr] [|]]|] eqn:Hm.
  - destruct (Z.lt_ge_cases nr 0) as [Hneg|Hnr].
    { rewrite (set_negative_width map name addr nr) in Hset by assumption.
      inversion Hset; subst. exact HP. }
    destruct (Z.lt_ge_cases 128 nr) as [Hbig|Hsmall].
    { rewrite (set_overflow map name addr nr) in Hset by assumption.
      inversion Hset; subst. exact HP. }
    destruct (decide (- 2 ^ (nr * 8) <= 2 * value ∧ value < 2 ^ (nr * 8)))
      as [[Hlo Hhi]|Hout].
    + rewrite (set_in_range map name addr nr) in Hset
        by (try assumption; lia).
      unfold PitayaCSR.set_loop in Hset.
      eapply (Hfor _ (λ i, addr + i * 4)
                (λ i, PitayaCSR.set_byte (value mod 2 ^ (nr * 8)) nr i));
        [intros i; apply set_byte_range|exact Hset|exact HP].
    + rewrite (set_out_of_range map name addr nr) in Hset
        by (try assumption; lia).
      inversion Hset; subst. exact HP.
  - rewrite (set_read_only map name addr nr) in Hset by assumption.
    inversion Hset; subst. exact HP.
  - rewrite set_unknown in Hset by assumption.
    inversion Hset; subst. exact HP.
Qed.

(** X16: however many registers are set on the simulated backend, in
    whatever order, and whether the last [set] fails or not, the
    generator [writes] of [CsrParams] then yields one write per bus
    address that was set, in the order of the addresses and not of the
    [set]s, with the byte stored last at the address, and ends without
    an exception. *)
Theorem PitayaTB_writes_by_address
    (get_offset : list csr → string → option Z) (desc : list csr)
    (map : gmap string (Z * Z * bool)) (sets : list (string * Z))
    (r : result unit) (params : gmap key Z) :
  for_ sets (λ nv, PitayaCSR.set map nv.1 nv.2) (∅ : gmap key Z)
  = (r, params) →
  ∃ addrs,
    CsrParams.writes get_offset desc params
    = ((λ k, TWrite k (default 0 (params !! inr k))) <$> addrs, None) ∧
    Sorted Z.le addrs ∧ NoDup addrs ∧
    ∀ k, k ∈ addrs ↔ is_Some (params !! inr k).
Proof.
  intros Hsets.
  pose (P := λ p : gmap key Z,
          (∀ s, p !! inl s = None) ∧
          ∀ k v, p !! inr k = Some v → 0 <= v < 256).
  assert (∀ a v (s0 : gmap key Z) (r0 : result unit) s1,
            0 <= v < 256 → set_one a v s0 = (r0, s1) → P s0 → P s1)
    as Hone.
  { intros a v s0 r0 s1 Hv H [Hs Hb]. inversion H; subst. split.
    - intros s. rewrite lookup_insert_ne by discriminate. apply Hs.
    - intros k v' Hk. apply lookup_insert_Some in Hk as [[_ <-]|[_ Hk]];
        [exact Hv|eapply Hb, Hk]. }
  assert (P params) as [Hnames Hbytes].
  { assert (P ∅) as H0 by (split; [intros s|intros k v Hk];
                           rewrite lookup_empty in *; congruence).
    revert Hsets H0. generalize (∅ : gmap key Z).
    induction sets as [|[name value] sets IH]; intros p; cbn.
    - unfold ret. intros H; inversion H; subst. auto.
    - unfold bind.
      destruct (PitayaCSR.set map name value p) as [[[]|e] p1] eqn:E;
        intros H Hp.
      + eapply IH; [exact H|]. eapply set_preserves; eassumption.
      + inversion H; subst. eapply set_preserves; eassumption. }
  destruct (writes_addresses_in_order get_offset desc params Hnames)
    as (addrs & Hw & Hs & Hnd & Hin).
  exists addrs. split; [|auto]. rewrite Hw. f_equal.
  apply list_fmap_ext. intros j k Hk. f_equal.
  destruct (params !! inr k) as [v|] eqn:Hv; cbn; [|reflexivity].
  apply Z.mod_small. eapply Hbytes, Hv.
Qed.

Lemma PitayaTB_writes_by_address_witness :
  ∃ (r : result unit) (params : gmap key Z),
    for_ [("tap", 7); ("sweep_step", 0x123456); ("tap", 9); ("version", 1)]
      (λ nv, PitayaCSR.set bank_map nv.1 nv.2) (∅ : gmap key Z)
    = (r, params) ∧
    ∃ addrs,
      CsrParams.writes bank_offset bank_desc params
      = ((λ k, TWrite k (default 0 (params !! inr k))) <$> addrs, None) ∧
      Sorted Z.le addrs ∧ NoDup addrs ∧
      ∀ k, k ∈ addrs ↔ is_Some (params !! inr k).
Proof.
  eexists _, _. split; [vm_compute; reflexivity|].
  apply (PitayaTB_writes_by_address bank_offset bank_desc bank_map
           [("tap", 7); ("sweep_step", 0x123456); ("tap", 9);
            ("version", 1)] (Raise (ReadOnlyRegister "version"))).
  vm_compute. reflexivity.
Defined.

(** The example, computed: [tap] was set first and last, and is written
    after [sweep_step], once. *)
Example PitayaTB_writes_after_sets :
  CsrParams.writes bank_offset bank_desc
    (for_ [("tap", 7); ("sweep_step", 0x123456); ("tap", 9)]
       (λ nv, PitayaCSR.set bank_map nv.1 nv.2) (∅ : gmap key Z)).2
  = ([TWrite 0 0x12; TWrite 1 0x34; TWrite 2 0x56; TWrite 4 9], None).
Proof. vm_compute. reflexivity. Qed.

(** ** [CsrThread.gen] serving its callers *)

Lemma loop_events (pend : list nat) (q : list CsrThread.item)
    (evs : list nat) :
  CsrThread.loop ((CsrThread.QEvent <$> pend) ++ q) evs
  = CsrThread.loop q (evs ++ pend).
Proof.
  revert evs. induction pend as [|ev pend IH]; intros evs; cbn.
  - rewrite app_nil_r. reflexivity.
  - rewrite IH, <- app_assoc. reflexivity.
Qed.


Lemma nexts_idle (k : nat) (evs : list nat) :
  nexts k (CsrThread.Thread [] 0 false evs)
  = (replicate k None, CsrThread.Thread [] 0 false evs).
Proof.
  induction k as [|k IH]; [reflexivity|].
  cbn [nexts]. unfold CsrThread.gen. cbn. rewrite IH. reflexivity.
Qed.


Lemma gen_finished (g g' : CsrThread.thread) :
  CsrThread.gen g = (CsrThread.StopIteration, g') →
  CsrThread.finished g' = true.
Proof.
  unfold CsrThread.gen. destruct (CsrThread.finished g) eqn:Hf.
  - intros H. inversion H; subst. exact Hf.
  - destruct (CsrThread.sleeping g); [|discriminate].
    generalize (CsrThread.events g).
    induction (CsrThread.queue g) as [|[ev| |n|t] q IH]; intros evs; cbn;
      try discriminate.
    + apply IH.
    + intros H. inversion H. reflexivity.
    + destruct (Z.to_nat n); [apply IH|discriminate].
Qed.


Lemma nexts_finished (n : nat) (g : CsrThread.thread) :
  CsrThread.finished g = true → nexts n g = ([], g).
Proof.
  intros Hf. destruct n as [|n]; [reflexivity|].
  cbn [nexts]. unfold CsrThread.gen. rewrite Hf. reflexivity.
Qed.


(** The queue that the calls [reqs] leave. *)
Lemma caller_requests_queue (reqs : list (transaction * nat))
    (g : CsrThread.thread) :
  foldl caller_request g reqs
  = CsrThread.Thread
      (CsrThread.queue g
       ++ (reqs ≫= λ r, [CsrThread.QTransaction r.1; CsrThread.QEvent r.2]))
      (CsrThread.sleeping g) (CsrThread.finished g) (CsrThread.events g).
Proof.
  revert g. induction reqs as [|[t ev] reqs IH]; intros g.
  - cbn. rewrite app_nil_r. destruct g; reflexivity.
  - cbn [foldl]. rewrite IH. unfold caller_request. cbn [fst snd].
    destruct t as [a v|a];
      unfold CsrThread.write, CsrThread.read, CsrThread.append; cbn;
      rewrite <- !app_assoc; reflexivity.
Qed.


(** A [write] or a [read] that no other thread interrupts is its two
    appends, one after the other. *)
Lemma write_steps (addr value : Z) (ev : nat) (g : CsrThread.thread) :
  schedule [Append (CsrThread.QTransaction (TWrite addr value));
            Append (CsrThread.QEvent ev)] g
  = ([], CsrThread.write addr value ev g).
Proof. reflexivity. Qed.

Lemma read_steps (addr : Z) (ev : nat) (g : CsrThread.thread) :
  schedule [Append (CsrThread.QTransaction (TRead addr));
            Append (CsrThread.QEvent ev)] g
  = ([], CsrThread.read addr ev g).
Proof. reflexivity. Qed.

(** One [next] on a queue of requests: the events at the front of the
    queue are set; then the first transaction is popped and yielded,
    with what lies behind it left in the queue, or the queue is empty
    and [None] is yielded. *)
Lemma loop_requests (q : list CsrThread.item) (evs : list nat) :
  Forall (λ i, is_request i = true) q →
  ∃ pop,
    pop ++ CsrThread.queue (CsrThread.loop q evs).2 = q ∧
    CsrThread.events (CsrThread.loop q evs).2 = evs ++ events_among pop ∧
    CsrThread.sleeping (CsrThread.loop q evs).2 = 0%nat ∧
    CsrThread.finished (CsrThread.loop q evs).2 = false ∧
    (((CsrThread.loop q evs).1 = CsrThread.Yield None ∧
      transactions pop = []) ∨
     ∃ t pop', (CsrThread.loop q evs).1 = CsrThread.Yield (Some t) ∧
               pop = pop' ++ [CsrThread.QTransaction t] ∧
               transactions pop' = []).
Proof.
  intros Hq. revert evs.
  induction Hq as [|i q Hi Hq IH]; intros evs.
  - exists []. cbn. rewrite app_nil_r. auto 10.
  - destruct i as [ev| |n|t]; try discriminate; cbn [CsrThread.loop].
    + destruct (IH (evs ++ [ev])) as (pop & Hp & He & Hs & Hf & Hy).
      exists (CsrThread.QEvent ev :: pop). cbn [app].
      rewrite Hp, He, <- app_assoc. cbn [events_among omap app].
      split; [reflexivity|]. split; [reflexivity|].
      split; [exact Hs|]. split; [exact Hf|].
      destruct Hy as [[Hy Ht]|(t & pop' & Hy & -> & Ht)].
      * left. split; [exact Hy|exact Ht].
      * right. exists t, (CsrThread.QEvent ev :: pop'). auto.
    + exists [CsrThread.QTransaction t]. cbn. rewrite app_nil_r.
      split; [reflexivity|]. split; [reflexivity|].
      split; [reflexivity|]. split; [reflexivity|].
      right. exists t, []. auto.
Qed.

(** The steps [a1 ++ a2] are the steps [a1], then the steps [a2]. *)
Lemma schedule_app (a1 a2 : list action) (g : CsrThread.thread) :
  schedule (a1 ++ a2) g
  = ((schedule a1 g).1 ++ (schedule a2 (schedule a1 g).2).1,
     (schedule a2 (schedule a1 g).2).2).
Proof.
  revert g. induction a1 as [|[q|] a1 IH]; intros g; cbn [app schedule].
  - cbn [fst snd app]. destruct (schedule a2 g). reflexivity.
  - apply IH.
  - destruct (CsrThread.gen g) as [r g']. rewrite IH.
    destruct (schedule a1 g') as [rs1 g1]. reflexivity.
Qed.

Lemma transactions_app (p q : list CsrThread.item) :
  transactions (p ++ q) = transactions p ++ transactions q.
Proof. apply omap_app. Qed.

Lemma events_among_app (p q : list CsrThread.item) :
  events_among (p ++ q) = events_among p ++ events_among q.
Proof. apply omap_app. Qed.

(** X17: the generator serves its callers in the order of the queue,
    however the appends of the callers and the calls of [next] are
    interleaved. After any steps in which the callers append
    transactions and events: the elements popped are the first of the
    elements appended, in order; the transactions yielded are the
    transactions among them, in order; the events set are the events
    among them; the generator is alive and never raised
    [StopIteration]. When the last step is a [next] that yields a
    transaction, that transaction is the last element popped: an
    event appended behind a transaction, as [write] and [read] append
    theirs, is set by a later [next] only. *)
Theorem gen_serves_in_order (acts : list action) (evs : list nat) :
  Forall (λ i, is_request i = true) (appended acts) →
  let rs := (schedule acts (CsrThread.Thread [] 0 false evs)).1 in
  let g := (schedule acts (CsrThread.Thread [] 0 false evs)).2 in
  ∃ popped,
    popped ++ CsrThread.queue g = appended acts ∧
    yielded rs = transactions popped ∧
    CsrThread.events g = evs ++ events_among popped ∧
    CsrThread.finished g = false ∧ CsrThread.sleeping g = 0%nat ∧
    Forall (λ r, r ≠ CsrThread.StopIteration) rs ∧
    ∀ acts' t, acts = acts' ++ [Next] →
      last rs = Some (CsrThread.Yield (Some t)) →
      last popped = Some (CsrThread.QTransaction t).
Proof.
  cbn zeta. induction acts as [|a acts IH] using rev_ind; intros Hreq.
  - exists []. cbn. rewrite app_nil_r.
    repeat split; auto. intros [|? ?] t H; discriminate.
  - unfold appended in Hreq |- *. rewrite omap_app in Hreq |- *.
    apply Forall_app in Hreq as [Hreq Ha].
    destruct (IH Hreq) as (popped & Hp & Hy & He & Hf & Hsl & Hs & _).
    clear IH. rewrite schedule_app.
    destruct (schedule acts (CsrThread.Thread [] 0 false evs))
      as [rs g]. cbn [fst snd] in *.
    destruct a as [q|]; cbn [schedule fst snd omap].
    + exists popped. rewrite app_nil_r.
      cbn [CsrThread.append CsrThread.queue CsrThread.events
           CsrThread.finished CsrThread.sleeping option_bind].
      rewrite app_assoc. fold (appended acts). rewrite Hp.
      split; [reflexivity|]. split; [exact Hy|]. split; [exact He|].
      split; [exact Hf|]. split; [exact Hsl|]. split; [exact Hs|].
      intros acts' t Heq. apply app_inj_tail in Heq as [_ Heq].
      discriminate.
    + cbn [option_bind]. rewrite app_nil_r. fold (appended acts).
      assert (Forall (λ i, is_request i = true) (CsrThread.queue g))
        as Hq.
      { fold (appended acts) in Hreq. rewrite <- Hp in Hreq.
        apply Forall_app in Hreq as [_ Hreq]. exact Hreq. }
      unfold CsrThread.gen. rewrite Hf, Hsl.
      destruct (loop_requests (CsrThread.queue g) (CsrThread.events g) Hq)
        as (pop & Hpop & Hev & Hsl' & Hf' & Hyield).
      destruct (CsrThread.loop _ _) as [r g']. cbn [fst snd] in *.
      exists (popped ++ pop).
      rewrite <- app_assoc, Hpop, Hp.
      split; [reflexivity|].
      unfold yielded. rewrite omap_app. fold (yielded rs).
      rewrite transactions_app, events_among_app, Hy, Hev, He, app_assoc.
      assert (r ≠ CsrThread.StopIteration ∧
              omap (λ r, match r with
                         | CsrThread.Yield (Some t) => Some t
                         | _ => None
                         end) [r] = transactions pop ∧
              ∀ t, r = CsrThread.Yield (Some t) →
                   last (popped ++ pop) = Some (CsrThread.QTransaction t))
        as (Hr & Hyr & Hlast).
      { destruct Hyield as [[-> Ht]|(t & pop' & -> & -> & Ht)].
        - split; [discriminate|]. split; [rewrite Ht; reflexivity|].
          discriminate.
        - split; [discriminate|]. split.
          + rewrite transactions_app, Ht. reflexivity.
          + intros t' Ht'. inversion Ht'. subst.
            rewrite app_assoc, last_snoc. reflexivity. }
      split; [f_equal; exact Hyr|]. split; [reflexivity|].
      split; [exact Hf'|]. split; [exact Hsl'|].
      split; [apply Forall_app; split; [exact Hs|constructor; [exact Hr|constructor]]|].
      intros acts' t _. rewrite last_snoc. intros Ht. apply Hlast.
      inversion Ht. reflexivity.
Qed.

Lemma gen_serves_in_order_witness :
  Forall (λ i, is_request i = true)
    (appended [Append (CsrThread.QTransaction (TWrite 3 7));
               Append (CsrThread.QTransaction (TRead 4));
               Next;
               Append (CsrThread.QEvent 10);
               Append (CsrThread.QEvent 11);
               Next; Next; Next]) ∧
  schedule [Append (CsrThread.QTransaction (TWrite 3 7));
            Append (CsrThread.QTransaction (TRead 4));
            Next;
            Append (CsrThread.QEvent 10);
            Append (CsrThread.QEvent 11);
            Next; Next; Next] (CsrThread.Thread [] 0 false [])
  = ([CsrThread.Yield (Some (TWrite 3 7));
      CsrThread.Yield (Some (TRead 4));
      CsrThread.Yield None; CsrThread.Yield None],
     CsrThread.Thread [] 0 false [10; 11]%nat) ∧
  ∃ popped,
    popped ++ []
    = appended [Append (CsrThread.QTransaction (TWrite 3 7));
                Append (CsrThread.QTransaction (TRead 4));
                Next;
                Append (CsrThread.QEvent 10);
                Append (CsrThread.QEvent 11);
                Next; Next; Next] ∧
    [TWrite 3 7; TRead 4] = transactions popped ∧
    [10; 11]%nat = [] ++ events_among popped.
Proof.
  assert (Forall (λ i, is_request i = true)
            (appended [Append (CsrThread.QTransaction (TWrite 3 7));
                       Append (CsrThread.QTransaction (TRead 4));
                       Next;
                       Append (CsrThread.QEvent 10);
                       Append (CsrThread.QEvent 11);
                       Next; Next; Next])) as Hreq
    by (repeat constructor).
  split; [exact Hreq|]. split; [reflexivity|].
  destruct (gen_serves_in_order _ [] Hreq)
    as (popped & Hp & Hy & He & _).
  exists popped. split; [exact Hp|]. split; [exact Hy|exact He].
Defined.

(** The same steps with the calls of [next] one at a time: the first
    [next] yields the write, the second the read, with no event set,
    although the event of the write was in the queue before the read
    was yielded; the third sets both events. *)
Example gen_interleaved_callers :
  (schedule [Append (CsrThread.QTransaction (TWrite 3 7));
             Append (CsrThread.QTransaction (TRead 4));
             Next;
             Append (CsrThread.QEvent 10);
             Append (CsrThread.QEvent 11);
             Next] (CsrThread.Thread [] 0 false [])).2
  = CsrThread.Thread [CsrThread.QEvent 10; CsrThread.QEvent 11]
                     0 false [].
Proof. reflexivity. Qed.

(** X18: an integer [n] in the queue makes the generator yield [None] [n]
    times, not at all for [n <= 0], before it goes on with the
    elements behind it. *)
Theorem gen_delay (n : Z) (q : list CsrThread.item) (evs : list nat)
    (k : nat) :
  nexts (Z.to_nat n + S k) (CsrThread.Thread (CsrThread.QInt n :: q)
                              0 false evs)
  = (replicate (Z.to_nat n) None
     ++ (nexts (S k) (CsrThread.Thread q 0 false evs)).1,
     (nexts (S k) (CsrThread.Thread q 0 false evs)).2).
Proof.
  assert (∀ r, nexts (r + S k) (CsrThread.Thread q r false evs)
               = (replicate r None
                  ++ (nexts (S k) (CsrThread.Thread q 0 false evs)).1,
                  (nexts (S k) (CsrThread.Thread q 0 false evs)).2))
    as Hsleep.
  { induction r as [|r IH].
    - cbn [Nat.add replicate app].
      destruct (nexts (S k) _). reflexivity.
    - cbn [Nat.add]. change (nexts (S (r + S k)) ?g)
        with (match CsrThread.gen g with
              | (CsrThread.Yield t, g') =>
                  let '(ts, g'') := nexts (r + S k) g' in (t :: ts, g'')
              | (CsrThread.StopIteration, g') => ([], g')
              end).
      unfold CsrThread.gen at 1.
      cbn [CsrThread.finished CsrThread.sleeping CsrThread.queue
           CsrThread.events].
      rewrite IH. reflexivity. }
  destruct (Z.to_nat n) as [|r] eqn:Hn.
  - cbn [Nat.add replicate app]. cbn [nexts]. unfold CsrThread.gen.
    cbn [CsrThread.finished CsrThread.sleeping CsrThread.queue
         CsrThread.events CsrThread.loop].
    rewrite Hn.
    destruct (CsrThread.loop q evs) as [[t|] g'];
      [destruct (nexts k g')|]; reflexivity.
  - cbn [Nat.add]. change (nexts (S (r + S k)) ?g)
      with (match CsrThread.gen g with
            | (CsrThread.Yield t, g') =>
                let '(ts, g'') := nexts (r + S k) g' in (t :: ts, g'')
            | (CsrThread.StopIteration, g') => ([], g')
            end).
    unfold CsrThread.gen at 1.
    cbn [CsrThread.finished CsrThread.sleeping CsrThread.queue
         CsrThread.events CsrThread.loop].
    rewrite Hn, Hsleep. reflexivity.
Qed.

(** X19: [None] in the queue ends the generator for good: the events
    queued before it are set, and whatever callers queue after it and
    however often [next] is called, nothing is yielded, the queue is
    not popped and no event is set, so that no later caller is ever
    released. *)
Theorem gen_stop_is_final (pend : list nat) (q : list CsrThread.item)
    (evs : list nat) (reqs : list (transaction * nat)) (n : nat) :
  let g0 := CsrThread.Thread
              ((CsrThread.QEvent <$> pend) ++ CsrThread.QNone :: q)
              0 false evs in
  let g := foldl caller_request (CsrThread.gen g0).2 reqs in
  (CsrThread.gen g0).1 = CsrThread.StopIteration ∧
  nexts n g = ([], g) ∧
  CsrThread.events g = evs ++ pend ∧
  CsrThread.queue g
  = q ++ (reqs ≫= λ r, [CsrThread.QTransaction r.1; CsrThread.QEvent r.2]).
Proof.
  intros g0 g.
  assert (CsrThread.gen g0
          = (CsrThread.StopIteration,
             CsrThread.Thread q 0 true (evs ++ pend))) as Hgen.
  { subst g0. unfold CsrThread.gen.
    cbn [CsrThread.finished CsrThread.sleeping CsrThread.queue
         CsrThread.events].
    rewrite loop_events. reflexivity. }
  subst g. rewrite Hgen. cbn [fst snd].
  rewrite caller_requests_queue.
  cbn [CsrThread.finished CsrThread.sleeping CsrThread.queue
       CsrThread.events].
  split; [reflexivity|]. split; [|split; reflexivity].
  apply nexts_finished. reflexivity.
Qed.

(** ** The sampling grid *)

(** X20: [__init__] rounds the warmup to a multiple of the interval, towards
    minus infinity for a positive interval and towards plus infinity
    for a negative one, by less than an interval; the effective cycle
    is then on the sampling grid exactly when the clock cycle is a
    multiple of the interval. There is no filter for the interval 0. *)
Theorem init_warmup_on_grid (flen_x : Z) (samples : list Q)
    (warmup latency interval : Z) :
  match Filter.init flen_x samples warmup latency interval with
  | None => interval = 0
  | Some self =>
      interval ≠ 0 ∧
      Filter.interval self = interval ∧
      Filter.warmup self mod interval = 0 ∧
      (0 < interval → warmup - interval < Filter.warmup self <= warmup) ∧
      (interval < 0 → warmup <= Filter.warmup self < warmup - interval) ∧
      ∀ cycle_counter,
        (cycle_counter - Filter.warmup self) mod Filter.interval self = 0
        ↔ cycle_counter mod interval = 0
  end.
Proof.
  unfold Filter.init. destruct (decide (interval = 0)) as [|Hi]; [assumption|].
  cbn [Filter.interval Filter.warmup].
  assert ((warmup - warmup mod interval) mod interval = 0) as Hgrid.
  { rewrite Zminus_mod_idemp_r, Z.sub_diag. apply Z.mod_0_l. exact Hi. }
  split; [exact Hi|]. split; [reflexivity|]. split; [exact Hgrid|].
  split; [|split].
  - intros Hpos. pose proof (Z.mod_pos_bound warmup interval Hpos). lia.
  - intros Hneg. pose proof (Z.mod_neg_bound warmup interval Hneg). lia.
  - intros cc. rewrite Zminus_mod, Hgrid, Z.sub_0_r, Z.mod_mod by exact Hi.
    reflexivity.
Qed.

(** ** What a run returns, whatever the device and the timing *)

Section Filter_run.
Context {D : Type}.
Variable dut_y : D → Z.
Variable dut_clock : Z → D → D.

(** A simulation that has stopped has captured one output per input,
    and has stopped past the warmup. *)
Lemma run_simulation_stopped fuel self selfp self' selfp' :
  Filter.run_simulation dut_y dut_clock fuel self selfp
  = Some (self', selfp') →
  length (Filter.y self') = length (Filter.x self') ∧
  Filter.warmup self' <= Filter.cycle_counter selfp'.
Proof.
  revert self selfp.
  induction fuel as [|fuel IH]; intros self selfp Hrun; [discriminate|].
  cbn [Filter.run_simulation] in Hrun.
  destruct (Filter.do_simulation dut_y self selfp)
    as [[o self1] selfp1] eqn:Hdo.
  destruct o; [eapply IH, Hrun| |discriminate].
  inversion Hrun; subst. clear Hrun.
  unfold Filter.do_simulation in Hdo.
  destruct (Z.ltb_spec (Filter.cycle_counter selfp - Filter.warmup self) 0)
    as [|Hc]; [discriminate|].
  destruct (decide (length (Filter.y self) = length (Filter.x self)))
    as [Hlen|_].
  - inversion Hdo; subst. split; [exact Hlen|lia].
  - destruct (decide _); [discriminate|].
    destruct (Filter.apply_input _ _ _). discriminate.
Qed.

(** A call of [do_simulation] keeps the count of the samples, of which
    each is waiting in [xgen], pending in [ygen] or captured in [y];
    it captures one output at most, and it leaves the interval as it
    is, which it divides by only when it is not 0. *)
Lemma apply_input_counts c self (selfp : Filter.proxy (D := D)) :
  let self1 := (Filter.apply_input c self selfp).1 in
  (length (Filter.ygen self1) + length (Filter.xgen self1)
   = length (Filter.ygen self) + length (Filter.xgen self))%nat ∧
  Filter.y self1 = Filter.y self ∧ Filter.x self1 = Filter.x self ∧
  Filter.interval self1 = Filter.interval self.
Proof.
  cbn zeta. unfold Filter.apply_input.
  destruct (decide _); [destruct (Filter.xgen self) eqn:E|];
    cbn [fst Filter.ygen Filter.xgen Filter.y Filter.x Filter.interval];
    rewrite ?E, ?length_app; cbn [length]; auto with lia.
Qed.

Lemma capture_output_counts c self (selfp : Filter.proxy (D := D)) :
  let self1 := Filter.capture_output dut_y c self selfp in
  (length (Filter.y self1) + length (Filter.ygen self1)
   = length (Filter.y self) + length (Filter.ygen self))%nat ∧
  (length (Filter.y self1) <= Datatypes.S (length (Filter.y self)))%nat ∧
  Filter.xgen self1 = Filter.xgen self ∧ Filter.x self1 = Filter.x self ∧
  Filter.interval self1 = Filter.interval self.
Proof.
  cbn zeta. unfold Filter.capture_output.
  destruct (Filter.ygen self) eqn:E; [|destruct (decide _)];
    cbn [Filter.ygen Filter.xgen Filter.y Filter.x Filter.interval];
    rewrite ?E, ?length_app; cbn [length]; auto with lia.
Qed.

Lemma do_simulation_counts self selfp :
  let r := Filter.do_simulation dut_y self selfp in
  ((length (Filter.y self) + length (Filter.ygen self)
    + length (Filter.xgen self) = length (Filter.x self))%nat →
   (length (Filter.y r.1.2) + length (Filter.ygen r.1.2)
    + length (Filter.xgen r.1.2) = length (Filter.x r.1.2))%nat) ∧
  (length (Filter.y r.1.2) <= Datatypes.S (length (Filter.y self)))%nat ∧
  Filter.interval r.1.2 = Filter.interval self ∧
  (Filter.interval self ≠ 0 → r.1.1 ≠ Filter.ZeroDivisionError).
Proof.
  cbn zeta. unfold Filter.do_simulation.
  destruct (_ <? 0);
    [cbn; split; [auto|]; split; [lia|]; split; [auto|discriminate]|].
  destruct (decide _);
    [cbn; split; [auto|]; split; [lia|]; split; [auto|discriminate]|].
  destruct (decide _);
    [cbn; split; [auto|]; split; [lia|]; split; [auto|contradiction]|].
  pose proof (apply_input_counts
                (Filter.cycle_counter selfp - Filter.warmup self)
                self selfp) as (Ha & Hay & Hax & Hai).
  cbn zeta in Ha, Hay, Hax, Hai.
  destruct (Filter.apply_input _ self selfp) as [self1 selfp1].
  cbn [fst snd] in *.
  pose proof (capture_output_counts
                (Filter.cycle_counter selfp - Filter.warmup self)
                self1 selfp1) as (Hc & Hcy & Hcx & Hcxx & Hci).
  cbn zeta in Hc, Hcy, Hcx, Hcxx, Hci.
  rewrite Hcx, Hcxx, Hci, Hax, Hai. rewrite Hay in Hc, Hcy.
  split; [lia|]. split; [exact Hcy|]. split; [reflexivity|discriminate].
Qed.

Lemma run_simulation_ncycles_counts n self selfp self' selfp' :
  Filter.run_simulation_ncycles dut_y dut_clock n self selfp
  = Some (self', selfp') →
  ((length (Filter.y self) + length (Filter.ygen self)
    + length (Filter.xgen self) = length (Filter.x self))%nat →
   (length (Filter.y self') + length (Filter.ygen self')
    + length (Filter.xgen self') = length (Filter.x self'))%nat) ∧
  (length (Filter.y self') <= length (Filter.y self) + n)%nat.
Proof.
  revert self selfp.
  induction n as [|n IH]; intros self selfp Hrun.
  { inversion Hrun; subst. split; [auto|lia]. }
  cbn [Filter.run_simulation_ncycles] in Hrun.
  pose proof (do_simulation_counts self selfp) as (Hc & Hy & _).
  cbn zeta in Hc, Hy.
  destruct (Filter.do_simulation dut_y self selfp)
    as [[o self1] selfp1].
  cbn [fst snd] in Hc, Hy. destruct o.
  - apply IH in Hrun as [Hc' Hy']. split; [auto|lia].
  - inversion Hrun; subst. split; [auto|lia].
  - discriminate.
Qed.
End Filter_run.

(** X21: the lengths of the two series that [run] returns. The
    returned inputs are as many as the samples given to [__init__].
    The returned outputs are as many when the simulation has run
    until the filter stopped it ([run] without [ncycles]); a run
    bounded by [ncycles = n] returns what has been captured by then,
    no more than [n] outputs and no more than there are samples. *)
Theorem run_lengths {D : Type} (dut_y : D → Z)
    (dut_clock : Z → D → D) (flen_x : Z) (samples : list Q)
    (warmup latency interval : Z) (self : Filter.state)
    (ncycles : option nat) (fuel : nat) (d : D)
    (xr yr : list Float64.float64) :
  Filter.init flen_x samples warmup latency interval = Some self →
  Filter.run dut_y dut_clock ncycles fuel self d = Some (xr, yr) →
  length xr = length samples ∧
  (length yr <= length samples)%nat ∧
  (ncycles = None → length yr = length samples) ∧
  (∀ n, ncycles = Some n → (length yr <= n)%nat).
Proof.
  intros Hinit Hrun.
  unfold Filter.init in Hinit.
  destruct (decide _) as [|_]; [discriminate|].
  injection Hinit as Hself.
  assert (length (Filter.x self) = length samples) as Hx
    by (subst self; cbn [Filter.x]; apply length_fmap).
  assert (length (Filter.y self) + length (Filter.ygen self)
          + length (Filter.xgen self) = length (Filter.x self))%nat
    as Hcount by (subst self; reflexivity).
  assert (length (Filter.y self) = 0%nat) as Hy0
    by (subst self; reflexivity).
  clear Hself. unfold Filter.run in Hrun.
  destruct ncycles as [nc|].
  - destruct (Filter.run_simulation_ncycles _ _ _ _ _)
      as [[self' selfp']|] eqn:Hsim; [|discriminate].
    inversion Hrun; subst. clear Hrun.
    destruct (run_simulation_ncycles_counts _ _ _ _ _ _ _ Hsim)
      as [Hc Hn]. specialize (Hc Hcount).
    destruct (run_simulation_ncycles_preserves dut_y dut_clock (λ _, True)
                _ _ _ _ _ (λ _, Logic.I) Hsim) as (_ & Hx' & _).
    unfold Filter.normalize. rewrite !length_fmap. rewrite Hx' in *.
    split; [lia|]. split; [lia|]. split; [discriminate|].
    intros n' Hn'. inversion Hn'. subst. lia.
  - destruct (Filter.run_simulation _ _ _ _ _)
      as [[self' selfp']|] eqn:Hsim; [|discriminate].
    inversion Hrun; subst. clear Hrun.
    destruct (run_simulation_stopped _ _ _ _ _ _ _ Hsim) as [Hlen _].
    destruct (run_simulation_preserves dut_y dut_clock (λ _, True) _ _ _ _ _
                (λ _, Logic.I) Hsim) as (_ & Hx' & _).
    unfold Filter.normalize. rewrite !length_fmap. rewrite Hx' in *.
    split; [lia|]. split; [lia|]. split; [intros _; lia|discriminate].
Qed.

Lemma run_lengths_witness :
  Filter.init 4 [1; -1; 1 # 2]%Q 2 0 1
  = Some (Filter.State 7 [7; -7; 3] [7; -7; 3] [] [] 2 0 1) ∧
  Filter.run delay_y delay_clock (Some 4%nat) 0
    (Filter.State 7 [7; -7; 3] [7; -7; 3] [] [] 2 0 1) 0
  = Some (Filter.normalize 7 [7; -7; 3], Filter.normalize 7 [7]) ∧
  length (Filter.normalize 7 [7; -7; 3]) = length [1; -1; 1 # 2]%Q ∧
  (length (Filter.normalize 7%Z [7%Z]) <= length [1; -1; 1 # 2]%Q)%nat ∧
  (length (Filter.normalize 7%Z [7%Z]) <= 4)%nat.
Proof.
  assert (Filter.init 4 [1; -1; 1 # 2]%Q 2 0 1
          = Some (Filter.State 7 [7; -7; 3] [7; -7; 3] [] [] 2 0 1)) as Hi
    by (vm_compute; reflexivity).
  assert (Filter.run delay_y delay_clock (Some 4%nat) 0
            (Filter.State 7 [7; -7; 3] [7; -7; 3] [] [] 2 0 1) 0
          = Some (Filter.normalize 7 [7; -7; 3], Filter.normalize 7 [7]))
    as Hr by (vm_compute; reflexivity).
  split; [exact Hi|]. split; [exact Hr|].
  destruct (run_lengths delay_y delay_clock 4 [1; -1; 1 # 2]%Q 2 0 1
              _ (Some 4%nat) 0 0 _ _ Hi Hr) as (Hx & Hy & _ & Hn).
  split; [exact Hx|]. split; [exact Hy|]. exact (Hn 4%nat eq_refl).
Defined.

(** The same filter without a bound: the run stops by itself, at cycle
    6, with the three outputs. *)
Example run_lengths_unbounded :
  Filter.run delay_y delay_clock None 7
    (Filter.State 7 [7; -7; 3] [7; -7; 3] [] [] 2 0 1) 0
  = Some (Filter.normalize 7 [7; -7; 3], Filter.normalize 7 [7; -7; 3]).
Proof. vm_compute. reflexivity. Qed.

(** ** A latency below -1 *)

Section Filter_negative_latency.
Context {D : Type}.
Variable dut_y : D → Z.
Variable dut_clock : Z → D → D.

(** With a latency below -1 an output is due before the cycle in which
    its input is applied: no output is ever captured. *)
Lemma negative_latency_step self selfp :
  Filter.latency self <= -2 → Filter.y self = [] → Filter.x self ≠ [] →
  Forall (λ t, t < Filter.cycle_counter selfp - Filter.warmup self)
         (Filter.ygen self) →
  let r := Filter.do_simulation dut_y self selfp in
  r.1.1 ≠ Filter.StopSimulation ∧
  Filter.latency r.1.2 <= -2 ∧ Filter.y r.1.2 = [] ∧
  Filter.x r.1.2 ≠ [] ∧
  Forall (λ t, t < Filter.cycle_counter (Filter.clock dut_clock r.2)
                   - Filter.warmup r.1.2)
         (Filter.ygen r.1.2).
Proof.
  intros HL Hy Hx Hdue. cbn zeta. unfold Filter.do_simulation.
  assert (∀ self1 (selfp1 : Filter.proxy (D := D)),
            Filter.ygen self1 = Filter.ygen self →
            Filter.warmup self1 = Filter.warmup self →
            Filter.cycle_counter selfp1 = Filter.cycle_counter selfp →
            Forall (λ t, t < Filter.cycle_counter
                               (Filter.clock dut_clock selfp1)
                             - Filter.warmup self1)
                   (Filter.ygen self1)) as Hkeep.
  { intros self1 selfp1 -> -> Hc. cbn [Filter.clock Filter.cycle_counter].
    rewrite Hc. eapply Forall_impl; [exact Hdue|]. cbn. intros; lia. }
  destruct (Z.ltb_spec (Filter.cycle_counter selfp - Filter.warmup self) 0)
    as [Hc|Hc].
  { cbn [fst snd]. split; [discriminate|]. auto. }
  destruct (decide (length (Filter.y self) = length (Filter.x self)))
    as [Hlen|_].
  { rewrite Hy in Hlen. destruct (Filter.x self); [contradiction|].
    discriminate. }
  destruct (decide (Filter.interval self = 0)) as [|_].
  { cbn [fst snd]. split; [discriminate|]. auto. }
  set (c := Filter.cycle_counter selfp - Filter.warmup self) in *.
  assert (∃ self1 selfp1,
            Filter.apply_input c self selfp = (self1, selfp1) ∧
            Filter.latency self1 = Filter.latency self ∧
            Filter.y self1 = [] ∧ Filter.x self1 = Filter.x self ∧
            Filter.warmup self1 = Filter.warmup self ∧
            Filter.cycle_counter selfp1 = Filter.cycle_counter selfp ∧
            Forall (λ t, t < c) (Filter.ygen self1))
    as (self1 & selfp1 & -> & HL1 & Hy1 & Hx1 & Hw1 & Hc1 & Hdue1).
  { unfold Filter.apply_input.
    destruct (decide (c mod Filter.interval self = 0));
      [destruct (Filter.xgen self) as [|v rest]|];
      eexists _, _; (split; [reflexivity|]);
      cbn [Filter.latency Filter.y Filter.x Filter.warmup Filter.ygen
           Filter.cycle_counter]; repeat split; auto.
    apply Forall_app. split; [exact Hdue|].
    apply Forall_singleton. lia. }
  assert (Filter.capture_output dut_y c self1 selfp1 = self1) as ->.
  { unfold Filter.capture_output.
    destruct (Filter.ygen self1) as [|t rest]; [reflexivity|].
    apply Forall_cons in Hdue1 as [Ht _].
    destruct (decide (c = t)); [lia|reflexivity]. }
  cbn [fst snd]. split; [discriminate|].
  split; [lia|]. split; [exact Hy1|]. split; [rewrite Hx1; exact Hx|].
  cbn [Filter.clock Filter.cycle_counter]. rewrite Hw1, Hc1.
  eapply Forall_impl; [exact Hdue1|]. cbn. intros; lia.
Qed.

Lemma negative_latency_run fuel self selfp :
  Filter.latency self <= -2 → Filter.y self = [] → Filter.x self ≠ [] →
  Forall (λ t, t < Filter.cycle_counter selfp - Filter.warmup self)
         (Filter.ygen self) →
  Filter.run_simulation dut_y dut_clock fuel self selfp = None.
Proof.
  revert self selfp.
  induction fuel as [|fuel IH]; intros self selfp HL Hy Hx Hdue;
    [reflexivity|].
  cbn [Filter.run_simulation].
  pose proof (negative_latency_step self selfp HL Hy Hx Hdue) as Hstep.
  cbn zeta in Hstep.
  destruct (Filter.do_simulation dut_y self selfp) as [[o self1] selfp1].
  cbn [fst snd] in Hstep.
  destruct Hstep as (Ho & HL1 & Hy1 & Hx1 & Hdue1).
  destruct o; [|contradiction|reflexivity].
  apply IH; assumption.
Qed.

Lemma negative_latency_at_cycle (m : nat) self selfp :
  Filter.latency self <= -2 → Filter.y self = [] → Filter.x self ≠ [] →
  Forall (λ t, t < Filter.cycle_counter selfp - Filter.warmup self)
         (Filter.ygen self) →
  let r := Filter.at_cycle dut_y dut_clock m self selfp in
  Filter.latency r.1 <= -2 ∧ Filter.y r.1 = [] ∧ Filter.x r.1 ≠ [] ∧
  Forall (λ t, t < Filter.cycle_counter r.2 - Filter.warmup r.1)
         (Filter.ygen r.1).
Proof.
  intros HL Hy Hx Hdue. cbn zeta.
  induction m as [|m IH]; [cbn; auto|].
  cbn [Filter.at_cycle].
  destruct (Filter.at_cycle dut_y dut_clock m self selfp)
    as [self' selfp'].
  cbn [fst snd] in IH. destruct IH as (HL' & Hy' & Hx' & Hdue').
  pose proof (negative_latency_step self' selfp' HL' Hy' Hx' Hdue')
    as Hstep.
  cbn zeta in Hstep.
  destruct (Filter.do_simulation dut_y self' selfp')
    as [[o self1] selfp1].
  cbn [fst snd] in Hstep |- *. tauto.
Qed.

(** A run bounded by [ncycles] goes through its [n] cycles and has
    captured nothing. *)
Lemma negative_latency_ncycles (n : nat) self selfp :
  Filter.latency self <= -2 → Filter.y self = [] → Filter.x self ≠ [] →
  Filter.interval self ≠ 0 →
  Forall (λ t, t < Filter.cycle_counter selfp - Filter.warmup self)
         (Filter.ygen self) →
  ∃ self' selfp',
    Filter.run_simulation_ncycles dut_y dut_clock n self selfp
    = Some (self', selfp') ∧
    Filter.y self' = [] ∧ Filter.x self' = Filter.x self ∧
    Filter.scale self' = Filter.scale self.
Proof.
  revert self selfp.
  induction n as [|n IH]; intros self selfp HL Hy Hx Hi Hdue.
  { eexists _, _. split; [reflexivity|]. auto. }
  cbn [Filter.run_simulation_ncycles].
  pose proof (negative_latency_step self selfp HL Hy Hx Hdue) as Hstep.
  pose proof (do_simulation_counts dut_y self selfp) as (_ & _ & Hi1 & Hz).
  pose proof (do_simulation_preserves dut_y (λ _, True) self selfp
                (λ _, Logic.I)) as (Hs1 & Hx1' & _).
  cbn zeta in Hstep, Hi1, Hz.
  destruct (Filter.do_simulation dut_y self selfp) as [[o self1] selfp1].
  cbn [fst snd] in *.
  destruct Hstep as (Ho & HL1 & Hy1 & Hx1 & Hdue1).
  destruct o; [|contradiction|exfalso; apply (Hz Hi); reflexivity].
  destruct (IH self1 (Filter.clock dut_clock selfp1) HL1 Hy1 Hx1
              ltac:(rewrite Hi1; exact Hi) Hdue1)
    as (self' & selfp' & Hrun & Hy' & Hx' & Hs').
  exists self', selfp'. rewrite Hx', Hs', Hx1', Hs1. auto.
Qed.
End Filter_negative_latency.

(** X22: a filter with a latency of -2 or less and at least one sample
    never finishes by itself: no call of [do_simulation] raises
    [StopSimulation], whatever the device, the warmup and the
    interval, and no output is ever captured. [run] without [ncycles]
    does not return; [run] with [ncycles] returns after that many
    cycles with an empty series of outputs. *)
Theorem negative_latency_never_stops {D : Type} (dut_y : D → Z)
    (dut_clock : Z → D → D) (flen_x : Z) (samples : list Q)
    (warmup latency interval : Z) (self : Filter.state) (d : D) :
  Filter.init flen_x samples warmup latency interval = Some self →
  latency <= -2 → samples ≠ [] →
  (∀ fuel, Filter.run dut_y dut_clock None fuel self d = None) ∧
  (∀ n fuel, ∃ xr,
     Filter.run dut_y dut_clock (Some n) fuel self d = Some (xr, [])) ∧
  ∀ m : nat,
    let r := Filter.at_cycle dut_y dut_clock m self (Filter.Proxy 0 d 0) in
    Filter.y r.1 = [] ∧
    (Filter.do_simulation dut_y r.1 r.2).1.1 = Filter.Return.
Proof.
  intros Hinit HL Hs. unfold Filter.init in Hinit.
  destruct (decide (interval = 0)) as [|Hi]; [discriminate|].
  injection Hinit as Hself.
  set (xs := (λ v, Filter.astype_int _) <$> samples) in *.
  assert (xs ≠ []) as Hxs by (destruct samples; [contradiction|discriminate]).
  assert (Filter.latency self <= -2) as HL0 by (subst self; exact HL).
  assert (Filter.y self = []) as Hy0 by (subst self; reflexivity).
  assert (Filter.x self ≠ []) as Hx0 by (subst self; exact Hxs).
  assert (Filter.interval self ≠ 0) as Hi0 by (subst self; exact Hi).
  assert (Forall (λ t, t < Filter.cycle_counter (Filter.Proxy 0 d 0)
                           - Filter.warmup self) (Filter.ygen self))
    as Hd0 by (subst self; constructor).
  clearbody xs. clear Hself. split; [|split].
  - intros fuel. unfold Filter.run.
    pose proof (negative_latency_run dut_y dut_clock fuel self
                  (Filter.Proxy 0 d 0) HL0 Hy0 Hx0 Hd0) as Hnone.
    rewrite Hnone. reflexivity.
  - intros n fuel. unfold Filter.run.
    destruct (negative_latency_ncycles dut_y dut_clock n self
                (Filter.Proxy 0 d 0) HL0 Hy0 Hx0 Hi0 Hd0)
      as (self' & selfp' & -> & -> & _). eexists. reflexivity.
  - intros m. cbn zeta.
    pose proof (negative_latency_at_cycle dut_y dut_clock m self _
                  HL0 Hy0 Hx0 Hd0) as Hm. cbn zeta in Hm.
    assert (Filter.interval
              (Filter.at_cycle dut_y dut_clock m self
                 (Filter.Proxy 0 d 0)).1 ≠ 0) as Him.
    { clear Hm. induction m as [|m IH]; [exact Hi0|].
      cbn [Filter.at_cycle].
      destruct (Filter.at_cycle dut_y dut_clock m self _)
        as [self' selfp']. cbn [fst] in IH.
      pose proof (do_simulation_counts dut_y self' selfp')
        as (_ & _ & Hi1 & _). cbn zeta in Hi1.
      destruct (Filter.do_simulation dut_y self' selfp')
        as [[o self1] selfp1]. cbn [fst snd] in *.
      rewrite Hi1. exact IH. }
    destruct (Filter.at_cycle dut_y dut_clock m self _)
      as [self' selfp'].
    cbn [fst snd] in Hm, Him |- *.
    destruct Hm as (HL' & Hy' & Hx' & Hdue').
    split; [exact Hy'|].
    pose proof (negative_latency_step dut_y dut_clock self' selfp'
                  HL' Hy' Hx' Hdue') as [Hns _].
    pose proof (do_simulation_counts dut_y self' selfp')
      as (_ & _ & _ & Hz). cbn zeta in Hns, Hz. specialize (Hz Him).
    destruct (Filter.do_simulation dut_y self' selfp').1.1;
      [reflexivity|contradiction|contradiction].
Qed.

Lemma negative_latency_never_stops_witness :
  Filter.init 4 [1; -1]%Q 0 (-2) 1
  = Some (Filter.State 7 [7; -7] [7; -7] [] [] 0 (-2) 1) ∧
  -2 <= -2 ∧
  Filter.run delay_y delay_clock None 50
    (Filter.State 7 [7; -7] [7; -7] [] [] 0 (-2) 1) 0 = None ∧
  ∃ xr, Filter.run delay_y delay_clock (Some 50%nat) 0
          (Filter.State 7 [7; -7] [7; -7] [] [] 0 (-2) 1) 0
        = Some (xr, []).
Proof.
  assert (Filter.init 4 [1; -1]%Q 0 (-2) 1
          = Some (Filter.State 7 [7; -7] [7; -7] [] [] 0 (-2) 1)) as Hi
    by (vm_compute; reflexivity).
  split; [exact Hi|]. split; [lia|].
  destruct (negative_latency_never_stops delay_y delay_clock 4 [1; -1]%Q
              0 (-2) 1 _ 0 Hi ltac:(lia) ltac:(discriminate))
    as (Hnone & Hsome & _).
  split; [apply Hnone|apply (Hsome 50%nat 0%nat)].
Defined.

(** ** The timing of a run, for any warmup, interval and latency *)

(** A multiple of [I] in the interval [((a - 1) * I, a * I]] is
    [a * I]. *)
Lemma grid_unique (I a c : Z) :
  1 <= I → (a - 1) * I < c → c <= a * I → c mod I = 0 → c = a * I.
Proof.
  intros HI Hlo Hhi Hmod.
  apply Z.div_exact in Hmod; [|lia].
  assert (c / I = a) as <- by nia. lia.
Qed.

Section Filter_timing.
Context {D : Type}.
Variable dut_y : D → Z.
Variable dut_clock : Z → D → D.

(** A filter with the warmup [W], already a multiple of the interval
    [I], at the start of its run. *)
Variable scale W L I : Z.
Variable xs : list Z.
Variable d : D.
Hypothesis W_nonneg : 0 <= W.
Hypothesis L_bound : -1 <= L.
Hypothesis I_pos : 1 <= I.
Hypothesis xs_nonempty : xs ≠ [].

#[local] Abbreviation self0 := (Filter.State scale xs xs [] [] W L I).
#[local] Abbreviation selfp0 := (Filter.Proxy 0 d 0).
#[local] Abbreviation n := (Z.of_nat (length xs)).
#[local] Abbreviation due := (λ j : Z, j * I + 1 + L).
#[local] Abbreviation sample :=
  (λ j : Z, Filter.output_at dut_y dut_clock
              (Z.to_nat (W + (j * I + 1 + L))) self0 selfp0).
#[local] Abbreviation held :=
  (λ a : Z, if decide (a = 0) then 0
            else default 0 (xs !! Z.to_nat (a - 1))).
(** The filter after [a] inputs have been applied and [k] outputs
    captured. *)
#[local] Abbreviation timed :=
  (λ (a k : Z) (ys : list Z),
     Filter.State scale xs (drop (Z.to_nat a) xs)
       (due <$> seqZ k (a - k)) ys W L I).
(** The effective cycle after the last capture, at which the run
    stops. *)
#[local] Abbreviation stop := ((n - 1) * I + L + 2).

Lemma timing_n_pos : 0 < n.
Proof using xs_nonempty. destruct xs; [contradiction|cbn; lia]. Qed.

(** The first block at the effective cycle [c]: input [a] is applied
    when [c] is [a * I]. *)
Lemma timing_apply (c a k : Z) (ys : list Z) (dc : D) :
  0 <= k <= a → a <= n →
  (a - 1) * I < c → (a < n → c <= a * I) →
  Filter.apply_input c (timed a k ys) (Filter.Proxy (W + c) dc (held a))
  = (let a' := if decide (c = a * I ∧ a < n) then a + 1 else a in
     (timed a' k ys, Filter.Proxy (W + c) dc (held a'))).
Proof using I_pos.
  intros Hk Ha Hlo Hhi. cbn zeta. unfold Filter.apply_input.
  cbn [Filter.interval Filter.xgen].
  destruct (decide (c = a * I ∧ a < n)) as [[Hc Han]|Hno].
  - destruct (decide (c mod I = 0)) as [_|Hmod];
      [|exfalso; apply Hmod; subst c; apply Z.mod_mul; lia].
    destruct (lookup_lt_is_Some_2 xs (Z.to_nat a)) as [v Hv]; [lia|].
    rewrite (drop_S _ _ _ Hv).
    cbn [Filter.scale Filter.x Filter.ygen Filter.y Filter.warmup
         Filter.latency Filter.interval Filter.cycle_counter Filter.dut].
    replace (Datatypes.S (Z.to_nat a)) with (Z.to_nat (a + 1)) by lia.
    replace (a + 1 - k) with (a - k + 1) by lia.
    rewrite seqZ_app by lia. rewrite fmap_app.
    change (seqZ (k + (a - k)) 1) with [k + (a - k)].
    cbn [fmap list_fmap].
    replace ((k + (a - k)) * I + 1 + L) with (c + 1 + L) by (subst c; lia).
    destruct (decide (a + 1 = 0)) as [|_]; [lia|].
    replace (a + 1 - 1) with a by lia. rewrite Hv. reflexivity.
  - destruct (decide (c mod I = 0)) as [Hmod|_]; [|reflexivity].
    destruct (Z.lt_ge_cases a n) as [Han|Han].
    + exfalso. apply Hno. split; [|exact Han].
      apply grid_unique; auto.
    + replace a with n by lia. rewrite Nat2Z.id, drop_all. reflexivity.
Qed.

(** The second block: output [k] is captured when [c] is its due
    cycle. *)
Lemma timing_capture (c a k : Z) (ys : list Z) (selfp : Filter.proxy) :
  0 <= k <= a → (k < a → c <= due k) → (k = a → c < due k) →
  Filter.capture_output dut_y c (timed a k ys) selfp
  = (if decide (c = due k)
     then timed a (k + 1) (ys ++ [dut_y (Filter.dut selfp)])
     else timed a k ys).
Proof.
  intros Hk Hlt Heq. cbn beta in *.
  unfold Filter.capture_output. cbn [Filter.ygen].
  destruct (Z.lt_ge_cases k a) as [Hka|Hka].
  - rewrite (seqZ_cons k) by lia. cbn [fmap list_fmap].
    destruct (decide (c = k * I + 1 + L)) as [_|_]; [|reflexivity].
    cbn [Filter.scale Filter.x Filter.xgen Filter.y Filter.warmup
         Filter.latency Filter.interval].
    f_equal. f_equal. f_equal; lia.
  - replace (a - k) with 0 by lia. cbn [seqZ fmap list_fmap].
    destruct (decide (c = k * I + 1 + L)) as [Hc|_]; [|reflexivity].
    specialize (Heq ltac:(lia)). lia.
Qed.

(** One call past the warmup, while outputs are missing. *)
Lemma timing_step (c a k : Z) (ys : list Z) (dc : D) :
  0 <= c → 0 <= k <= a → a <= n → k < n →
  (a - 1) * I < c → (a < n → c <= a * I) →
  c <= due k → length ys = Z.to_nat k →
  Filter.do_simulation dut_y (timed a k ys)
    (Filter.Proxy (W + c) dc (held a))
  = (let a' := if decide (c = a * I ∧ a < n) then a + 1 else a in
     (Filter.Return,
      if decide (c = due k) then timed a' (k + 1) (ys ++ [dut_y dc])
      else timed a' k ys,
      Filter.Proxy (W + c) dc (held a'))).
Proof using I_pos L_bound.
  intros Hc Hk Ha Hkn Hlo Hhi Hdue Hlen. cbn beta zeta in *.
  unfold Filter.do_simulation.
  cbn [Filter.cycle_counter Filter.warmup Filter.y Filter.x
       Filter.interval].
  replace (W + c - W) with c by lia.
  destruct (Z.ltb_spec c 0) as [|_]; [lia|].
  destruct (decide (length ys = length xs)) as [|_]; [lia|].
  destruct (decide (I = 0)) as [|_]; [lia|].
  pose proof (timing_apply c a k ys dc Hk Ha Hlo Hhi) as Happly.
  cbn zeta in Happly. rewrite Happly. clear Happly.
  rewrite timing_capture; [reflexivity| | |]; cbn beta;
    destruct (decide (c = a * I ∧ a < n)) as [[? ?]|Hno]; lia.
Qed.

(** During the warmup nothing is applied and nothing captured, and the
    input signal stays at its reset value. *)
Lemma timing_warmup (m : nat) :
  Z.of_nat m <= W →
  ∃ dm, Filter.at_cycle dut_y dut_clock m self0 selfp0
        = (self0, Filter.Proxy (Z.of_nat m) dm 0).
Proof.
  induction m as [|m IH]; intros Hm; [exists d; reflexivity|].
  destruct IH as [dm IH]; [lia|].
  cbn [Filter.at_cycle]. rewrite IH.
  rewrite do_simulation_warmup
    by (cbn [Filter.cycle_counter Filter.warmup]; lia).
  exists (dut_clock 0 dm).
  cbn [Filter.clock Filter.cycle_counter Filter.dut Filter.dut_x].
  replace (Z.of_nat (Datatypes.S m)) with (Z.of_nat m + 1) by lia.
  reflexivity.
Qed.

(** The filter at the start of the effective cycle [c], up to the
    cycle at which the run stops: the inputs of the grid points below
    [c] have been applied, the last of them is on the input signal,
    and the outputs due below [c] have been captured, each from the
    device at its due cycle. *)
Lemma timing_state (c : nat) :
  Z.of_nat c <= stop →
  ∃ a k dc,
    0 <= k <= a ∧ a <= n ∧
    (a - 1) * I < Z.of_nat c ∧ (a < n → Z.of_nat c <= a * I) ∧
    (k = 0 ∨ due (k - 1) < Z.of_nat c) ∧ (k < n → Z.of_nat c <= due k) ∧
    Filter.at_cycle dut_y dut_clock (Z.to_nat W + c) self0 selfp0
    = (timed a k (sample <$> seqZ 0 k),
       Filter.Proxy (W + Z.of_nat c) dc (held a)).
Proof using I_pos L_bound W_nonneg xs_nonempty.
  pose proof timing_n_pos as Hn.
  induction c as [|c IH]; intros Hc.
  - destruct (timing_warmup (Z.to_nat W)) as [dm Hw]; [lia|].
    exists 0, 0, dm. rewrite Nat.add_0_r, Hw.
    repeat (split; [lia|]). rewrite Z2Nat.id by lia.
    replace (W + Z.of_nat 0) with W by lia. reflexivity.
  - destruct IH as (a & k & dc & Hk & Ha & Hlo & Hhi & Hklo & Hkhi & IH);
      [lia|].
    cbn beta in *.
    assert (k < n) as Hkn by nia.
    specialize (Hkhi Hkn).
    assert (Filter.output_at dut_y dut_clock (Z.to_nat W + c) self0 selfp0
            = dut_y dc) as Hout
      by (unfold Filter.output_at; rewrite IH; reflexivity).
    rewrite Nat.add_succ_r. cbn [Filter.at_cycle]. rewrite IH.
    set (cz := Z.of_nat c) in *.
    rewrite (timing_step cz a k _ dc)
      by (try assumption; try lia; rewrite length_fmap, length_seqZ; lia).
    cbn zeta.
    set (a' := if decide (cz = a * I ∧ a < n) then a + 1 else a).
    exists a', (if decide (cz = due k) then k + 1 else k),
           (dut_clock (held a') dc).
    assert (a' = a ∧ ¬ (cz = a * I ∧ a < n)
            ∨ a' = a + 1 ∧ cz = a * I ∧ a < n) as Ha'
      by (subst a'; destruct (decide (cz = a * I ∧ a < n)); tauto).
    clearbody a'.
    replace (Z.of_nat (Datatypes.S c)) with (cz + 1) by lia.
    assert (k = a' → cz < due k) as Hempty.
    { intros ->. destruct Ha' as [[-> Hno]|[-> _]]; [|lia].
      specialize (Hhi Hkn).
      assert (cz ≠ a * I) by (intros Heq; apply Hno; auto). lia. }
    cbn beta in *.
    assert (a <= a' <= n ∧ (a' - 1) * I < cz + 1
            ∧ (a' < n → cz + 1 <= a' * I)) as (Haa & Hlo1 & Hhi1).
    { destruct Ha' as [[-> Hno]|(-> & Hcz & Han)].
      - split; [lia|]. split; [lia|]. intros Han. specialize (Hhi Han).
        assert (cz ≠ a * I) by (intros Heq; apply Hno; auto). lia.
      - split; [lia|]. split; [lia|]. intros _. lia. }
    clear Ha'.
    destruct (decide (cz = k * I + 1 + L)) as [Hdue|Hnot].
    + split; [lia|]. split; [lia|]. split; [exact Hlo1|].
      split; [exact Hhi1|]. split; [right; lia|].
      split; [intros ?; lia|].
      unfold Filter.clock.
      cbn [Filter.cycle_counter Filter.dut Filter.dut_x].
      replace (W + cz + 1) with (W + (cz + 1)) by lia.
      f_equal. f_equal.
      rewrite (seqZ_app 0 k 1) by lia. rewrite fmap_app. f_equal.
      change (seqZ (0 + k) 1) with [0 + k]. cbn [fmap list_fmap].
      replace (Z.to_nat (W + ((0 + k) * I + 1 + L)))
        with (Z.to_nat W + c)%nat by lia.
      rewrite Hout. reflexivity.
    + split; [lia|]. split; [lia|]. split; [exact Hlo1|].
      split; [exact Hhi1|].
      split; [destruct Hklo; [left; assumption|right; lia]|].
      split; [intros _; lia|].
      unfold Filter.clock.
      cbn [Filter.cycle_counter Filter.dut Filter.dut_x].
      replace (W + cz + 1) with (W + (cz + 1)) by lia. reflexivity.
Qed.

(** Every call before the effective cycle [stop] returns. *)
Lemma timing_outcome (m : nat) :
  Z.of_nat m < W + stop →
  (let '(self, selfp) := Filter.at_cycle dut_y dut_clock m self0 selfp0 in
   (Filter.do_simulation dut_y self selfp).1.1) = Filter.Return.
Proof using I_pos L_bound W_nonneg xs_nonempty.
  intros Hm. pose proof timing_n_pos as Hn.
  destruct (Z.lt_ge_cases (Z.of_nat m) W) as [Hw|Hw].
  - destruct (timing_warmup m) as [dm ->]; [lia|].
    rewrite do_simulation_warmup
      by (cbn [Filter.cycle_counter Filter.warmup]; lia).
    reflexivity.
  - replace m with (Z.to_nat W + (m - Z.to_nat W))%nat by lia.
    destruct (timing_state (m - Z.to_nat W))
      as (a & k & dc & Hk & Ha & Hlo & Hhi & Hklo & Hkhi & ->); [lia|].
    cbn beta in *.
    assert (k < n) as Hkn by nia.
    rewrite (timing_step _ a k _ dc)
      by (try assumption; try lia; auto;
          rewrite length_fmap, length_seqZ; lia).
    reflexivity.
Qed.

(** The run: it stops at the clock cycle [W + stop], the cycle after
    the last capture, with the output of the device at the cycle
    [W + j * I + 1 + L] for input [j]. *)
Lemma timing_run (extra : nat) :
  ∃ self' selfp',
    Filter.run_simulation dut_y dut_clock
      (Z.to_nat (W + stop) + Datatypes.S extra) self0 selfp0
    = Some (self', selfp') ∧
    Filter.cycle_counter selfp' = W + stop ∧
    Filter.x self' = xs ∧ Filter.scale self' = scale ∧
    Filter.y self' = sample <$> seqZ 0 n.
Proof using I_pos L_bound W_nonneg xs_nonempty.
  pose proof timing_n_pos as Hn.
  assert (0 <= stop) as Hstop by nia.
  rewrite run_simulation_steps by (intros c Hc; apply timing_outcome; lia).
  replace (Z.to_nat (W + stop)) with (Z.to_nat W + Z.to_nat stop)%nat
    by lia.
  destruct (timing_state (Z.to_nat stop))
    as (a & k & dc & Hk & Ha & Hlo & Hhi & Hklo & Hkhi & ->); [lia|].
  cbn beta in *.
  assert (k = n) as -> by (destruct (Z.lt_ge_cases k n); [|lia];
                           specialize (Hkhi ltac:(lia)); nia).
  cbn [Filter.run_simulation].
  rewrite do_simulation_done.
  - eexists _, _. split; [reflexivity|].
    cbn [Filter.cycle_counter Filter.x Filter.y Filter.scale].
    split; [lia|]. auto.
  - cbn [Filter.cycle_counter Filter.warmup]. lia.
  - cbn [Filter.y Filter.x]. rewrite length_fmap, length_seqZ. lia.
Qed.

(** Input [j] is on the input signal from the cycle after the grid
    point [W + j * I] until the next grid point. *)
Lemma timing_input (j c : Z) :
  0 <= j < n → j * I < c → c <= (j + 1) * I → c <= stop →
  xs !! Z.to_nat j
  = Some (Filter.dut_x (Filter.at_cycle dut_y dut_clock
                          (Z.to_nat (W + c)) self0 selfp0).2).
Proof using I_pos L_bound W_nonneg xs_nonempty.
  intros Hj Hlo Hhi Hstop.
  replace (Z.to_nat (W + c)) with (Z.to_nat W + Z.to_nat c)%nat by nia.
  destruct (timing_state (Z.to_nat c))
    as (a & k & dc & Hk & Ha & Hlo' & Hhi' & _ & _ & ->); [lia|].
  cbn [snd Filter.dut_x].
  assert (a = j + 1) as ->.
  { rewrite Z2Nat.id in Hlo', Hhi' by nia.
    destruct (Z.lt_ge_cases a n) as [Han|Han];
      [specialize (Hhi' Han)|]; nia. }
  destruct (decide (j + 1 = 0)) as [|_]; [lia|].
  replace (j + 1 - 1) with j by lia.
  destruct (lookup_lt_is_Some_2 xs (Z.to_nat j)) as [v ->]; [lia|].
  reflexivity.
Qed.

(** With fuel for the calls before the stop only, the run is not
    over. *)
Lemma timing_not_before :
  Filter.run_simulation dut_y dut_clock (Z.to_nat (W + stop)) self0 selfp0
  = None.
Proof using I_pos L_bound W_nonneg xs_nonempty.
  rewrite <- (Nat.add_0_r (Z.to_nat (W + stop))).
  rewrite run_simulation_steps by (intros c Hc; apply timing_outcome; lia).
  destruct (Filter.at_cycle _ _ _ _ _). reflexivity.
Qed.
End Filter_timing.

(** X23: the timing of a run of [n] samples, for a warmup that is not
    negative, an interval of at least 1 and a latency of at least -1,
    with [W] for the warmup rounded down to a multiple of the
    interval. Input [j] is applied at the clock cycle
    [W + j * interval] and is on the input signal of the device from
    the next cycle until the next input is applied; output [j] is the
    output of the device at the cycle
    [W + j * interval + 1 + latency]; the run stops at the cycle after
    the last capture, [W + (n - 1) * interval + latency + 2], and not
    before. *)
Theorem run_timing {D : Type} (dut_y : D → Z) (dut_clock : Z → D → D)
    (flen_x : Z) (samples : list Q) (warmup latency interval : Z)
    (self : Filter.state) (d : D) (extra : nat) :
  Filter.init flen_x samples warmup latency interval = Some self →
  0 <= warmup → 1 <= interval → -1 <= latency → samples ≠ [] →
  let W := warmup - warmup mod interval in
  let n := Z.of_nat (length samples) in
  let stop := W + ((n - 1) * interval + latency + 2) in
  (∃ self' selfp',
     Filter.run_simulation dut_y dut_clock
       (Z.to_nat stop + Datatypes.S extra) self (Filter.Proxy 0 d 0)
     = Some (self', selfp') ∧
     Filter.cycle_counter selfp' = stop ∧
     Filter.x self' = Filter.x self ∧
     Filter.y self'
     = (λ j, Filter.output_at dut_y dut_clock
               (Z.to_nat (W + (j * interval + 1 + latency))) self
               (Filter.Proxy 0 d 0)) <$> seqZ 0 n) ∧
  Filter.run_simulation dut_y dut_clock (Z.to_nat stop) self
    (Filter.Proxy 0 d 0) = None ∧
  ∀ j c, 0 <= j < n →
    j * interval < c → c <= (j + 1) * interval → W + c <= stop →
    Filter.x self !! Z.to_nat j
    = Some (Filter.dut_x (Filter.at_cycle dut_y dut_clock
                            (Z.to_nat (W + c)) self
                            (Filter.Proxy 0 d 0)).2).
Proof.
  intros Hinit Hw Hi HL Hs W n stop. unfold Filter.init in Hinit.
  destruct (decide (interval = 0)) as [|_]; [lia|].
  injection Hinit as <-.
  set (scale := 2 ^ (flen_x - 1) - 1).
  set (xs := (λ v, Filter.astype_int _) <$> samples).
  assert (xs ≠ []) as Hxs
    by (subst xs; destruct samples; [contradiction|discriminate]).
  assert (Z.of_nat (length xs) = n) as Hn
    by (subst xs n; rewrite length_fmap; reflexivity).
  assert (0 <= W) as HW
    by (subst W; pose proof (Z.mod_le warmup interval); lia).
  fold W. cbn [Filter.x].
  split; [|split].
  - destruct (timing_run dut_y dut_clock scale W latency interval xs d
                HW HL Hi Hxs extra)
      as (self' & selfp' & Hrun & Hcc & Hx & _ & Hy).
    rewrite Hn in Hrun, Hcc, Hy. exists self', selfp'. auto.
  - pose proof (timing_not_before dut_y dut_clock scale W latency interval
                  xs d HW HL Hi Hxs) as Hnone.
    rewrite Hn in Hnone. exact Hnone.
  - intros j c Hj Hlo Hhi Hstop.
    apply (timing_input dut_y dut_clock scale W latency interval xs d
             HW HL Hi Hxs); [lia|assumption|assumption|].
    rewrite Hn. subst stop. lia.
Qed.

Lemma run_timing_witness :
  Filter.init 4 [1; -1; 1 # 2]%Q 5 1 2
  = Some (Filter.State 7 [7; -7; 3] [7; -7; 3] [] [] 4 1 2) ∧
  0 <= 5 ∧ 1 <= 2 ∧ -1 <= 1 ∧
  (∃ self' selfp',
     Filter.run_simulation delay_y delay_clock 12
       (Filter.State 7 [7; -7; 3] [7; -7; 3] [] [] 4 1 2)
       (Filter.Proxy 0 0 0)
     = Some (self', selfp') ∧
     Filter.cycle_counter selfp' = 11) ∧
  Filter.run_simulation delay_y delay_clock 11
    (Filter.State 7 [7; -7; 3] [7; -7; 3] [] [] 4 1 2)
    (Filter.Proxy 0 0 0) = None.
Proof.
  assert (Filter.init 4 [1; -1; 1 # 2]%Q 5 1 2
          = Some (Filter.State 7 [7; -7; 3] [7; -7; 3] [] [] 4 1 2)) as Hi
    by (vm_compute; reflexivity).
  split; [exact Hi|]. split; [lia|]. split; [lia|]. split; [lia|].
  destruct (run_timing delay_y delay_clock 4 [1; -1; 1 # 2]%Q 5 1 2 _ 0
              0%nat Hi ltac:(lia) ltac:(lia) ltac:(lia)
              ltac:(discriminate))
    as ((self' & selfp' & Hrun & Hcc & _) & Hnone & _).
  split; [exists self', selfp'; split; [exact Hrun|exact Hcc]|exact Hnone].
Defined.

(** The example, computed: three samples every second cycle after a
    warmup of 5, rounded to 4, through a device that gives its input
    back one cycle later, captured with the latency 1: each output is
    the input applied two cycles before it. *)
Example run_timing_delay :
  Filter.run delay_y delay_clock None 12
    (Filter.State 7 [7; -7; 3] [7; -7; 3] [] [] 4 1 2) 0
  = Some (Filter.normalize 7 [7; -7; 3], Filter.normalize 7 [7; -7; 3]).
Proof. vm_compute. reflexivity. Qed.
